(** * PalmSens plan execution engine: a shallow embedding of [run.py]

    The development follows [src/run.py]: the plan documents read with
    [json.load], the per-channel interpreter [run_channel] with its three
    expansion paths (single step, generic sweep, MSA level sweep), the
    per-run routine [run_one], and the connect / gather / disconnect / save
    tail of [main].

    Python objects live in an explicit store: dictionaries and lists are
    heap cells addressed by location, so that aliasing ([params =
    step["params"]]) and copying ([dict(base)], [lvl.copy()]) are visible.
    Exceptions are a result constructor; the store and the trace of
    observable effects survive a raised exception, as they do in Python. *)

From Stdlib Require Import ZArith List String Ascii Bool Lia DecimalString DecimalZ.
From stdpp Require Import list strings.
Import ListNotations.

Set Warnings "-register-all".

Local Open Scope string_scope.
Local Open Scope list_scope.
Local Open Scope Z_scope.

(* ================================================================= *)
(** ** Values and the object store *)

(** A location is the index of a cell in the store. *)
Abbreviation loc := nat (only parsing).

(** A Python value as [json.load] produces it.  A float is carried as its
    Python [repr] (the text that [str] and an f-string print for it): the
    code never computes with sweep values, it only stores and prints them. *)
Inductive val :=
| VNone
| VBool (b : bool)
| VInt (n : Z)
| VFloat (r : string)
| VStr (s : string)
| VRef (l : loc).

(** A [dict] with string keys, in insertion order (keys are unique in every
    dictionary the code builds; non-ASCII text is outside the model). *)
Definition dict := list (string * val).

Inductive obj :=
| ODict (d : dict)
| OList (xs : list val)
| OLevel (kw : dict)   (* a level object built by pspymethods from keyword arguments kw *)
| OMixed.              (* a dict that has a key which is not a string *)

(** A plan read by [json.load] has no [OMixed] object.  One is made only
    in the sweep of a parameter, by [dict(base)] on a list of pairs or by
    [params[sweep_param] = val] with a number, a boolean or [None] for
    [sweep_param]; it then goes to [run_one], where the keyword call
    [method_func( **params)] rejects it.  Nothing else reads it, and what it
    holds is not modelled. *)

Abbreviation heap := (list obj) (only parsing).

Fixpoint dict_get (k : string) (d : dict) : option val :=
  match d with
  | [] => None
  | (k', v) :: d' => if String.eqb k k' then Some v else dict_get k d'
  end.

(** [d[k] = v]: an existing key keeps its position, a new key goes last. *)
Fixpoint dict_set (k : string) (v : val) (d : dict) : dict :=
  match d with
  | [] => [(k, v)]
  | (k', v') :: d' =>
      if String.eqb k k' then (k, v) :: d' else (k', v') :: dict_set k v d'
  end.

(** [{k: v for k, v in d.items() if k != key}] *)
Definition dict_without (key : string) (d : dict) : dict :=
  List.filter (fun kv => negb (String.eqb (fst kv) key)) d.

Definition dict_has (k : string) (d : dict) : bool :=
  match dict_get k d with Some _ => true | None => false end.

(* ================================================================= *)
(** ** JSON documents and [json.load] *)

Inductive json :=
| JNull
| JBool (b : bool)
| JInt (n : Z)
| JFloat (r : string)
| JStr (s : string)
| JArr (items : list json)
| JObj (members : list (string * json)).

(** [json.load]: every array and object becomes a fresh heap cell; a
    repeated member name overwrites the earlier value, as [dict] does. *)
Fixpoint json_load (j : json) (h : heap) : val * heap :=
  match j with
  | JNull => (VNone, h)
  | JBool b => (VBool b, h)
  | JInt n => (VInt n, h)
  | JFloat r => (VFloat r, h)
  | JStr s => (VStr s, h)
  | JArr items =>
      let '(vs, h') :=
        (fix load_items (js : list json) (h : heap) : list val * heap :=
           match js with
           | [] => ([], h)
           | j :: js' =>
               let '(v, h1) := json_load j h in
               let '(vs, h2) := load_items js' h1 in
               (v :: vs, h2)
           end) items h in
      (VRef (length h'), h' ++ [OList vs])
  | JObj members =>
      let '(d, h') :=
        (fix load_members (ms : list (string * json)) (d : dict) (h : heap)
           : dict * heap :=
           match ms with
           | [] => (d, h)
           | (k, j) :: ms' =>
               let '(v, h1) := json_load j h in
               load_members ms' (dict_set k v d) h1
           end) members [] h in
      (VRef (length h'), h' ++ [ODict d])
  end.

(* ================================================================= *)
(** ** Observable effects *)

(** One call of [run_one]: its arguments and the store at the moment of the
    call (the parameters the instrument method is built from are read in
    that store). *)
Record request := {
  rq_ch : Z;
  rq_method : string;
  rq_params : val;
  rq_title : string;
  rq_conc : val;
  rq_heap : heap
}.

(** A measurement handle appended to [all_meas]: the channel and the number
    of the [run_one] call that produced it. *)
Definition measurement := (Z * nat)%type.

(** The JSON run log written at the end of [run_one]. *)
Record runlog := {
  lg_channel : Z;
  lg_method : string;
  lg_title : string;
  lg_parameters : val;
  lg_concentration : val;
  lg_heap : heap
}.

Inductive event :=
| EvConnect (ch : Z)
| EvRun (r : request)
| EvLog (l : runlog)
| EvWarn (ch : Z) (typ : string)
| EvDisconnect (ch : Z)
| EvSave (ms : list measurement)
| EvInfo (lines : list string)      (* experiment_info.txt *)
| EvSummary (lines : list string).  (* plan_summary.txt *)

Record state := {
  st_heap : heap;
  st_trace : list event;
  st_meas : list measurement;   (* all_meas *)
  st_calls : nat                (* run_one calls made so far *)
}.

(* ================================================================= *)
(** ** Exceptions and the state-and-exception monad *)

Inductive exn :=
| KeyError (k : string)
| TypeError
| ValueError
| IndexError
| AttributeError
| FileError      (* what os.makedirs, open, the csv writer or json.dump raise: an
                    OSError, or a ValueError for a name that cannot be a path *)
| DeviceError.   (* raised by the instrument library *)

Inductive outcome (A : Type) :=
| Ok (a : A)
| Raise (e : exn).
Arguments Ok {A} a.
Arguments Raise {A} e.

Definition M (A : Type) := state -> outcome A * state.

Definition ret {A} (a : A) : M A := fun s => (Ok a, s).

Definition raise {A} (e : exn) : M A := fun s => (Raise e, s).

Definition bind {A B} (c : M A) (k : A -> M B) : M B :=
  fun s =>
    match c s with
    | (Ok a, s') => k a s'
    | (Raise e, s') => (Raise e, s')
    end.

Declare Scope py_scope.
Delimit Scope py_scope with py.
Notation "x <- c ;; k" := (bind c (fun x => k))
  (at level 100, c at next level, right associativity) : py_scope.
Notation "c ;;; k" := (bind c (fun _ => k))
  (at level 100, right associativity) : py_scope.
Local Open Scope py_scope.

Definition with_heap (h : heap) (s : state) : state :=
  {| st_heap := h; st_trace := st_trace s;
     st_meas := st_meas s; st_calls := st_calls s |}.

Definition get_heap : M heap := fun s => (Ok (st_heap s), s).

Definition put_heap (h : heap) : M unit := fun s => (Ok tt, with_heap h s).

Definition emit (e : event) : M unit :=
  fun s => (Ok tt, {| st_heap := st_heap s; st_trace := st_trace s ++ [e];
                      st_meas := st_meas s; st_calls := st_calls s |}).

(** Allocation of a new object: the next free location. *)
Definition alloc (o : obj) : M val :=
  fun s => (Ok (VRef (length (st_heap s))), with_heap (st_heap s ++ [o]) s).

(** [for x in xs: body(x)] *)
Fixpoint for_each {A} (xs : list A) (body : A -> M unit) : M unit :=
  match xs with
  | [] => ret tt
  | x :: xs' => body x ;;; for_each xs' body
  end.

(** [[f(x) for x in xs]] *)
Fixpoint map_m {A B} (f : A -> M B) (xs : list A) : M (list B) :=
  match xs with
  | [] => ret []
  | x :: xs' => y <- f x ;; ys <- map_m f xs' ;; ret (y :: ys)
  end.

Definition next_call : M nat :=
  fun s => (Ok (st_calls s),
            {| st_heap := st_heap s; st_trace := st_trace s;
               st_meas := st_meas s; st_calls := S (st_calls s) |}).

(** [all_meas.append(meas)] *)
Definition append_meas (m : measurement) : M unit :=
  fun s => (Ok tt, {| st_heap := st_heap s; st_trace := st_trace s;
                      st_meas := st_meas s ++ [m]; st_calls := st_calls s |}).

Definition get_meas : M (list measurement) := fun s => (Ok (st_meas s), s).

(* ================================================================= *)
(** ** Coroutines

    An [async def] whose body awaits: operations of [M] in sequence, with
    the points at which the coroutine is suspended and the event loop may
    run another task. *)

Inductive co (A : Type) : Type :=
| Fin (a : A)
| Act {X : Type} (c : M X) (k : X -> co A)
| Await (t : co A).
Arguments Fin {A} a.
Arguments Act {A X} c k.
Arguments Await {A} t.

Fixpoint co_bind {A B} (t : co A) (f : A -> co B) : co B :=
  match t with
  | Fin a => f a
  | Act c k => Act c (fun x => co_bind (k x) f)
  | Await t' => Await (co_bind t' f)
  end.

(** An operation that does not await. *)
Definition lift {A} (c : M A) : co A := Act c Fin.

(** The point where the coroutine is suspended. *)
Definition await : co unit := Await (Fin tt).

Notation "x <~ c ;; k" := (co_bind c (fun x => k))
  (at level 100, c at next level, right associativity) : py_scope.
Notation "c ~;; k" := (co_bind c (fun _ => k))
  (at level 100, right associativity) : py_scope.

Fixpoint co_for_each {A} (xs : list A) (body : A -> co unit) : co unit :=
  match xs with
  | [] => Fin tt
  | x :: xs' => body x ~;; co_for_each xs' body
  end.

(** A task of the event loop: suspended with what is left of it to run,
    ended by returning, or ended by raising. *)
Inductive status :=
| Waiting (t : co unit)
| Returned
| Raised (e : exn).

(** The event loop resumes a coroutine: it runs up to its next [await],
    or to its end. *)
Fixpoint resume (t : co unit) (s : state) : status * state :=
  match t with
  | Fin _ => (Returned, s)
  | Act c k =>
      match c s with
      | (Ok x, s') => resume (k x) s'
      | (Raise e, s') => (Raised e, s')
      end
  | Await t' => (Waiting t', s)
  end.

(** The coroutine when it is never kept waiting. *)
Fixpoint alone {A} (t : co A) : M A :=
  match t with
  | Fin a => ret a
  | Act c k => bind c (fun x => alone (k x))
  | Await t' => alone t'
  end.

(* ================================================================= *)
(** ** The Python operations the code uses *)

Definition deref (h : heap) (v : val) : option obj :=
  match v with
  | VRef l => h !! l
  | _ => None
  end.

(** [v[k]] with a string key: [KeyError] on a dict without the key,
    [TypeError] on a list, a string, a number or [None]. *)
Definition subscript (v : val) (k : string) : M val :=
  h <- get_heap ;;
  match deref h v with
  | Some (ODict d) =>
      match dict_get k d with
      | Some x => ret x
      | None => raise (KeyError k)
      end
  | _ => raise TypeError
  end.

Definition or_default (dflt : val) (o : option val) : val :=
  match o with Some x => x | None => dflt end.

(** [v.get(k, default)]: only a dict has the method. *)
Definition get_method (v : val) (k : string) (default : val) : M val :=
  h <- get_heap ;;
  match deref h v with
  | Some (ODict d) => ret (or_default default (dict_get k d))
  | _ => raise AttributeError
  end.

(** [v.items()] *)
Definition dict_items (v : val) : M dict :=
  h <- get_heap ;;
  match deref h v with
  | Some (ODict d) => ret d
  | _ => raise AttributeError
  end.

(** [v[k] = x] with a string key. *)
Definition setitem (v : val) (k : string) (x : val) : M unit :=
  h <- get_heap ;;
  match v with
  | VRef l =>
      match h !! l with
      | Some (ODict d) => put_heap (<[l := ODict (dict_set k x d)]> h)
      | Some OMixed => ret tt
      | _ => raise TypeError
      end
  | _ => raise TypeError
  end.

(** [v.pop(k)]: the value under [k], which is removed from the dict. *)
Definition py_pop (v : val) (k : string) : M val :=
  h <- get_heap ;;
  match v with
  | VRef l =>
      match h !! l with
      | Some (ODict d) =>
          match dict_get k d with
          | Some x => put_heap (<[l := ODict (dict_without k d)]> h) ;;; ret x
          | None => raise (KeyError k)
          end
      | _ => raise AttributeError
      end
  | _ => raise AttributeError
  end.

(** [v[key] = x] on a dictionary [v], where the key is itself a value read
    from the plan: a list or a dict is not hashable ([TypeError]); with a
    number, a boolean or [None] the dictionary gets a key that is not a
    string. *)
Definition setitem_val (v key x : val) : M unit :=
  match key with
  | VStr k => setitem v k x
  | VRef _ => raise TypeError
  | _ =>
      h <- get_heap ;;
      match v with
      | VRef l =>
          match h !! l with
          | Some (ODict _) | Some OMixed => put_heap (<[l := OMixed]> h)
          | _ => raise TypeError
          end
      | _ => raise TypeError
      end
  end.

(** Truth value of a condition such as [if step.get("sweep_potential")]. *)
Definition truthy (h : heap) (v : val) : bool :=
  match v with
  | VNone => false
  | VBool b => b
  | VInt n => negb (n =? 0)
  | VFloat r => negb (String.eqb r "0.0" || String.eqb r "-0.0")
  | VStr s => negb (String.eqb s "")
  | VRef l =>
      match h !! l with
      | Some (ODict []) | Some (OList []) => false
      | _ => true
      end
  end.

Definition py_truthy (v : val) : M bool :=
  h <- get_heap ;; ret (truthy h v).

(** [v == "literal"] *)
Definition py_eq_str (v : val) (s : string) : bool :=
  match v with
  | VStr t => String.eqb t s
  | _ => false
  end.

(** The items a [for] loop or a comprehension draws from [v]: the elements
    of a list, the keys of a dict, the characters of a string. *)
Definition py_iter (v : val) : M (list val) :=
  h <- get_heap ;;
  match v with
  | VStr s =>
      ret (map (fun c => VStr (String c EmptyString)) (list_ascii_of_string s))
  | VRef l =>
      match h !! l with
      | Some (OList xs) => ret xs
      | Some (ODict d) => ret (map (fun kv => VStr (fst kv)) d)
      | _ => raise TypeError
      end
  | _ => raise TypeError
  end.

(** An integer operand: [bool] is a subclass of [int]. *)
Definition as_int (v : val) : option Z :=
  match v with
  | VInt n => Some n
  | VBool b => Some (if b then 1 else 0)
  | _ => None
  end.

(** [range(1, reps + 1)]: empty when [reps < 1]; a float, a string, [None]
    or a container makes [reps + 1] or [range] raise [TypeError]. *)
Definition py_range1 (reps : val) : M (list Z) :=
  match as_int reps with
  | Some n => ret (map Z.of_nat (seq 1 (Z.to_nat n)))
  | None => raise TypeError
  end.

(** [v.copy()]: a shallow copy of a dict or a list in a fresh cell. *)
Definition py_copy (v : val) : M val :=
  h <- get_heap ;;
  match deref h v with
  | Some (ODict d) => alloc (ODict d)
  | Some (OList xs) => alloc (OList xs)
  | Some OMixed => alloc OMixed
  | _ => raise AttributeError
  end.

(** One element of the iterable given to [dict]: it must be iterable
    itself ([TypeError]) and have two items ([ValueError]); the first is
    the key, which must be hashable ([TypeError] for a list or a dict).
    [acc] is the dictionary built so far, [None] once a key that is not a
    string has gone in. *)
Definition dict_add_pair (acc : option dict) (item : val) : M (option dict) :=
  kv <- py_iter item ;;
  match kv with
  | [key; x] =>
      match key with
      | VStr k => ret (option_map (dict_set k x) acc)
      | VRef _ => raise TypeError
      | _ => ret None
      end
  | _ => raise ValueError
  end.

Fixpoint dict_of_pairs (acc : option dict) (items : list val)
    : M (option dict) :=
  match items with
  | [] => ret acc
  | item :: rest =>
      acc' <- dict_add_pair acc item ;;
      dict_of_pairs acc' rest
  end.

(** [dict(v)]: a shallow copy of a dict in a fresh cell; from any other
    value, the dictionary of the key/value pairs that iterating over it
    gives ([dict([])] and [dict("")] are empty dictionaries). *)
Definition py_dict (v : val) : M val :=
  h <- get_heap ;;
  match deref h v with
  | Some (ODict d) => alloc (ODict d)
  | Some OMixed => alloc OMixed
  | _ =>
      items <- py_iter v ;;
      acc <- dict_of_pairs (Some []) items ;;
      alloc (match acc with Some d => ODict d | None => OMixed end)
  end.

(** The position an integer index denotes in a list of [len] elements: a
    negative index counts from the end; [None] when it is out of range. *)
Definition norm_index (len : nat) (n : Z) : option nat :=
  let n' := if n <? 0 then n + Z.of_nat len else n in
  if (0 <=? n') && (n' <? Z.of_nat len) then Some (Z.to_nat n') else None.

(** [xs[i]] on a list. *)
Definition list_getitem (v i : val) : M val :=
  h <- get_heap ;;
  match deref h v with
  | Some (OList xs) =>
      match as_int i with
      | Some n =>
          match norm_index (length xs) n with
          | Some j =>
              match xs !! j with
              | Some x => ret x
              | None => raise IndexError
              end
          | None => raise IndexError
          end
      | None => raise TypeError
      end
  | _ => raise TypeError
  end.

(** [pspymethods.multi_step_amperometry_level( **lvl)]: the argument must
    be a mapping; the library object is opaque and keeps the keywords. *)
Definition level_object (lvl : val) : M val :=
  h <- get_heap ;;
  match deref h lvl with
  | Some (ODict kw) => alloc (OLevel kw)
  | _ => raise TypeError
  end.

Definition lower_ascii (c : ascii) : ascii :=
  let n := nat_of_ascii c in
  if (Nat.leb 65 n && Nat.leb n 90)%bool then ascii_of_nat (n + 32) else c.

Fixpoint str_lower (s : string) : string :=
  match s with
  | EmptyString => EmptyString
  | String c s' => String (lower_ascii c) (str_lower s')
  end.

(** [m.lower()]: only a string has the method. *)
Definition py_lower (v : val) : M string :=
  match v with
  | VStr s => ret (str_lower s)
  | _ => raise AttributeError
  end.

Definition str_of_Z (n : Z) : string := NilEmpty.string_of_int (Z.to_int n).

(** [enumerate(xs, start=n)] *)
Fixpoint enumerate {A} (n : Z) (xs : list A) : list (Z * A) :=
  match xs with
  | [] => []
  | x :: xs' => (n, x) :: enumerate (n + 1) xs'
  end.

Definition METHOD_FUNC_MAP : list string := ["LSV"; "CV"; "SWV"; "CA"; "MSA"].

Definition method_known (m : string) : bool :=
  existsb (String.eqb m) METHOD_FUNC_MAP.

(* ================================================================= *)
(** ** The world outside the program *)

(** How a call of [run_one] goes, as far as the file system and the
    instrument library decide: which of these parts raise when the call
    gets to them. *)
Record fate := {
  files_fail : bool;    (* lines 95-109: the directories, the data file or its header *)
  method_fails : bool;  (* line 114: the library rejects the method's arguments *)
  measure_fails : bool; (* line 115: the measurement raises *)
  close_fails : bool;   (* line 104: the data file cannot be flushed and closed *)
  log_fails : bool      (* lines 133-134: the run log cannot be opened or written *)
}.

Definition works : fate :=
  {| files_fail := false; method_fails := false; measure_fails := false;
     close_fails := false; log_fails := false |}.

(** What the code takes from Python built-ins on values the model keeps
    abstract, from the instrument and the file system, and from the event
    loop. *)
Record env := {
  container_str : heap -> loc -> string;  (* str() of a list or a dict *)
  float_add1 : string -> string;          (* repr of x + 1 for a float x *)
  run_fate : nat -> fate;                 (* of the n-th call of run_one *)
  schedule : list nat
    (* the order in which the event loop resumes the channel tasks, each
       time up to the task's next measurement *)
}.

(** Do the files, the method constructor and the measurement of the n-th
    run work. *)
Definition device_ok (E : env) (n : nat) : bool :=
  let f := run_fate E n in
  negb (files_fail f || method_fails f || measure_fails f || close_fails f
        || log_fails f).

Section Engine.

Variable E : env.

(** [str(v)], as an f-string prints a value. *)
Definition py_str (h : heap) (v : val) : string :=
  match v with
  | VNone => "None"
  | VBool true => "True"
  | VBool false => "False"
  | VInt n => str_of_Z n
  | VFloat r => r
  | VStr s => s
  | VRef l => container_str E h l
  end.

(** [v + 1] *)
Definition py_add1 (v : val) : M val :=
  match v with
  | VInt n => ret (VInt (n + 1))
  | VBool b => ret (VInt ((if b then 1 else 0) + 1))
  | VFloat r => ret (VFloat (float_add1 E r))
  | _ => raise TypeError
  end.

(* ----------------------------------------------------------------- *)
(** *** [run_one] (run.py, lines 91-135)

    The directory and file names (which carry a wall-clock timestamp) and
    the rows streamed by the instrument are not modelled: the call is
    recorded with its arguments, the files and the instrument work or
    raise as [run_fate] tells for the call, and the run log is recorded
    with the parameters it saves.

    The call is in two parts: up to the measurement it awaits, and from
    the measurement's result on. *)

(** An exception [e] raised inside [with open(csvp, "w") as cf]: the data
    file is closed on the way out, and a failure to close it is the
    exception that is raised. *)
Definition leave_with {A} (k : nat) (e : exn) : M A :=
  if close_fails (run_fate E k) then raise FileError else raise e.

(** Lines 93-115, up to the [await]: the name of the method and the number
    of the call. *)
Definition run_one_start (ch : Z) (method_name : val) (params : val)
    (title : string) (conc : val) : M (string * nat) :=
  (* os.path.join(session_dir, exp_desc, method_name) *)
  name <- match method_name with
          | VStr s => ret s
          | _ => raise TypeError
          end ;;
  h <- get_heap ;;
  emit (EvRun {| rq_ch := ch; rq_method := name; rq_params := params;
                 rq_title := title; rq_conc := conc; rq_heap := h |}) ;;;
  k <- next_call ;;
  (* os.makedirs(files); os.makedirs(logs); open(csvp, "w");
     writer.writerow(header) *)
  (if files_fail (run_fate E k) then raise FileError else ret tt) ;;;
  (* method_func = METHOD_FUNC_MAP[method_name] *)
  (if method_known name then ret tt else leave_with k (KeyError name)) ;;;
  (* method_obj = method_func( **params) *)
  match deref h params with
  | Some (ODict _) => ret tt
  | _ => leave_with k TypeError
  end ;;;
  (if method_fails (run_fate E k) then leave_with k DeviceError else ret tt) ;;;
  ret (name, k).

(** Lines 115-135, from the result of the measurement on. *)
Definition run_one_finish (ch : Z) (name : string) (params : val)
    (title : string) (conc : val) (k : nat) : M unit :=
  (* meas = await mgr.measure(...) *)
  (if measure_fails (run_fate E k) then leave_with k DeviceError else ret tt) ;;;
  (* all_meas.append(meas), and the data file is closed *)
  append_meas (ch, k) ;;;
  (if close_fails (run_fate E k) then raise FileError else ret tt) ;;;
  save_params <-
    (if String.eqb name "MSA" then
       d <- dict_items params ;;
       if dict_has "_raw_levels" d then
         sp <- py_copy params ;;
         raw <- py_pop sp "_raw_levels" ;;
         setitem sp "levels" raw ;;;
         ret sp
       else ret params
     else ret params) ;;
  (* open(jsonp, "w"); json.dump(log, jf, indent=4) *)
  (if log_fails (run_fate E k) then raise FileError else ret tt) ;;;
  h' <- get_heap ;;
  emit (EvLog {| lg_channel := ch; lg_method := name; lg_title := title;
                 lg_parameters := save_params; lg_concentration := conc;
                 lg_heap := h' |}).

(** The call when nothing else runs while the measurement is awaited. *)
Definition run_one (ch : Z) (method_name : val) (params : val)
    (title : string) (conc : val) : M unit :=
  nk <- run_one_start ch method_name params title conc ;;
  run_one_finish ch (fst nk) params title conc (snd nk).

(* ----------------------------------------------------------------- *)
(** *** [run_channel] (run.py, lines 138-195) *)

(** Lines 147-157: the parameters of a single step. *)
Definition single_params (step m : val) : M val :=
  if py_eq_str m "MSA" then
    raw <- (sp <- subscript step "params" ;; subscript sp "levels") ;;
    d <- (sp <- subscript step "params" ;; dict_items sp) ;;
    params <- alloc (ODict (dict_without "levels" d)) ;;
    setitem params "_raw_levels" raw ;;;
    mats <- (lvls <- py_iter raw ;; map_m level_object lvls) ;;
    ml <- alloc (OList mats) ;;
    setitem params "levels" ml ;;;
    ret params
  else
    subscript step "params".

(** Lines 159-162. *)
Definition single_runs (ch idx_step : Z) (m params reps conc : val) : M unit :=
  rng <- py_range1 reps ;;
  for_each rng (fun i =>
    lo <- py_lower m ;;
    let title := lo +:+ "_step" +:+ str_of_Z idx_step +:+ "_run" +:+ str_of_Z i in
    run_one ch m params title conc).

(** Lines 169-184: the runs for one swept value of an MSA level sweep. *)
Definition msa_sweep_value (ch : Z) (step m base reps conc lvl_idx val : val)
    : M unit :=
  copies <- (lvls <- (bl <- subscript base "levels" ;; py_iter bl) ;;
             map_m py_copy lvls) ;;
  raw <- alloc (OList copies) ;;
  sp <- (f <- get_method step "sweep_potential" VNone ;; py_truthy f) ;;
  (if sp : bool then
     tgt <- list_getitem raw lvl_idx ;; setitem tgt "level" val
   else ret tt) ;;;
  sd <- (f <- get_method step "sweep_duration" VNone ;; py_truthy f) ;;
  (if sd : bool then
     tgt <- list_getitem raw lvl_idx ;; setitem tgt "duration" val
   else ret tt) ;;;
  d <- dict_items base ;;
  params <- alloc (ODict (dict_without "levels" d)) ;;
  setitem params "_raw_levels" raw ;;;
  mats <- (ls <- py_iter raw ;; map_m level_object ls) ;;
  ml <- alloc (OList mats) ;;
  setitem params "levels" ml ;;;
  rng <- py_range1 reps ;;
  for_each rng (fun i =>
    lo <- py_lower m ;;
    n1 <- py_add1 lvl_idx ;;
    h <- get_heap ;;
    let title := lo +:+ "_lvl" +:+ py_str h n1 +:+ "_" +:+ py_str h val
                    +:+ "_run" +:+ str_of_Z i in
    run_one ch m params title conc).

(** Lines 167-184: the MSA level sweep. *)
Definition msa_level_sweep (ch : Z) (step m base reps conc : val) : M unit :=
  lvl_idx <- subscript step "level_index" ;;
  vals <- (sv <- subscript step "sweep_values" ;; py_iter sv) ;;
  for_each vals (msa_sweep_value ch step m base reps conc lvl_idx).

(** Lines 188-193: the runs for one swept value of a parameter sweep. *)
Definition param_sweep_value (ch : Z) (m base reps conc sweep_param val : val)
    : M unit :=
  params <- py_dict base ;;
  setitem_val params sweep_param val ;;;
  rng <- py_range1 reps ;;
  for_each rng (fun i =>
    lo <- py_lower m ;;
    h <- get_heap ;;
    let title := lo +:+ "_" +:+ py_str h sweep_param +:+ py_str h val
                    +:+ "_run" +:+ str_of_Z i in
    run_one ch m params title conc).

(** Lines 186-193: the sweep of one named parameter. *)
Definition param_sweep (ch : Z) (step m base reps conc : val) : M unit :=
  sweep_param <- subscript step "sweep_param" ;;
  vals <- (sv <- subscript step "sweep_values" ;; py_iter sv) ;;
  for_each vals (param_sweep_value ch m base reps conc sweep_param).

(** Lines 146-195: the three expansion paths and the warning. *)
Definition expand_step (ch idx_step : Z) (step m typ reps conc : val)
    : M unit :=
  if py_eq_str typ "single" then
    params <- single_params step m ;;
    single_runs ch idx_step m params reps conc
  else if py_eq_str typ "sweep" then
    base <- subscript step "base_params" ;;
    ml <- (if py_eq_str m "MSA"
           then f <- get_method step "modify_levels" VNone ;; py_truthy f
           else ret false) ;;
    if ml : bool then msa_level_sweep ch step m base reps conc
    else param_sweep ch step m base reps conc
  else
    h <- get_heap ;;
    emit (EvWarn ch (py_str h typ)).

(** The body of the loop over the plan's sequence (lines 141-195). *)
Definition run_step (ch idx_step : Z) (step : val) : M unit :=
  m <- subscript step "method" ;;
  typ <- get_method step "type" (VStr "single") ;;
  reps <- get_method step "repeats" (VInt 1) ;;
  conc <- get_method step "concentration" VNone ;;
  expand_step ch idx_step step m typ reps conc.

(** Line 140: the steps in order, numbered from [idx_step]. *)
Definition run_steps (ch idx_step : Z) (steps : list val) : M unit :=
  for_each (enumerate idx_step steps) (fun '(i, step) => run_step ch i step).

Definition run_channel (ch : Z) (plan : val) (managers : list Z) : M unit :=
  (* mgr = managers[ch] *)
  (if existsb (Z.eqb ch) managers then ret tt
   else raise (KeyError (str_of_Z ch))) ;;;
  steps <- (sq <- subscript plan "sequence" ;; py_iter sq) ;;
  run_steps ch 1 steps.

(* ----------------------------------------------------------------- *)
(** *** [main] (run.py): loading a plan, and steps 6 and 7 *)

(** Lines 256-258 (and 316-318): the plan is read and every step is tagged
    with the concentration; nothing else is looked at. *)
Definition load_plan (doc : json) (conc : val) : M val :=
  plan_data <- (h <- get_heap ;;
                let '(v, h') := json_load doc h in
                put_heap h' ;;; ret v) ;;
  steps <- (sq <- subscript plan_data "sequence" ;; py_iter sq) ;;
  for_each steps (fun step => setitem step "concentration" conc) ;;;
  ret plan_data.

(** [connect_channels] (lines 80-88): [managers] is keyed by channel.  The
    library's [connect] is taken to succeed (and so are [disconnect] and
    [save_session_file] below): what the instrument and the file system
    can do to a run is in [run_fate]. *)
Fixpoint connect_channels (channels managers : list Z) : M (list Z) :=
  match channels with
  | [] => ret managers
  | ch :: rest =>
      emit (EvConnect ch) ;;;
      connect_channels rest
        (if existsb (Z.eqb ch) managers then managers else managers ++ [ch])
  end.

(* ----------------------------------------------------------------- *)
(** *** The channel tasks as coroutines

    [run_channel] is an [async def]: under [asyncio.gather] it runs until
    the measurement it awaits ([await mgr.measure], line 115), the event
    loop then resumes another task, and so on.  Between two such points a
    task runs alone.  The definitions below are those of [run_one] and
    [run_channel] above with that point kept: [alone] forgets it and gives
    the definitions above back. *)

Definition run_one_task (ch : Z) (method_name : val) (params : val)
    (title : string) (conc : val) : co unit :=
  nk <~ lift (run_one_start ch method_name params title conc) ;;
  await ~;;
  lift (run_one_finish ch (fst nk) params title conc (snd nk)).

Definition single_runs_task (ch idx_step : Z) (m params reps conc : val)
    : co unit :=
  rng <~ lift (py_range1 reps) ;;
  co_for_each rng (fun i =>
    lo <~ lift (py_lower m) ;;
    let title := lo +:+ "_step" +:+ str_of_Z idx_step +:+ "_run" +:+ str_of_Z i in
    run_one_task ch m params title conc).

Definition msa_sweep_value_task (ch : Z)
    (step m base reps conc lvl_idx val : val) : co unit :=
  copies <~ lift (lvls <- (bl <- subscript base "levels" ;; py_iter bl) ;;
                  map_m py_copy lvls) ;;
  raw <~ lift (alloc (OList copies)) ;;
  sp <~ lift (f <- get_method step "sweep_potential" VNone ;; py_truthy f) ;;
  lift (if sp : bool then
          tgt <- list_getitem raw lvl_idx ;; setitem tgt "level" val
        else ret tt) ~;;
  sd <~ lift (f <- get_method step "sweep_duration" VNone ;; py_truthy f) ;;
  lift (if sd : bool then
          tgt <- list_getitem raw lvl_idx ;; setitem tgt "duration" val
        else ret tt) ~;;
  d <~ lift (dict_items base) ;;
  params <~ lift (alloc (ODict (dict_without "levels" d))) ;;
  lift (setitem params "_raw_levels" raw) ~;;
  mats <~ lift (ls <- py_iter raw ;; map_m level_object ls) ;;
  ml <~ lift (alloc (OList mats)) ;;
  lift (setitem params "levels" ml) ~;;
  rng <~ lift (py_range1 reps) ;;
  co_for_each rng (fun i =>
    lo <~ lift (py_lower m) ;;
    n1 <~ lift (py_add1 lvl_idx) ;;
    h <~ lift get_heap ;;
    let title := lo +:+ "_lvl" +:+ py_str h n1 +:+ "_" +:+ py_str h val
                    +:+ "_run" +:+ str_of_Z i in
    run_one_task ch m params title conc).

Definition msa_level_sweep_task (ch : Z) (step m base reps conc : val)
    : co unit :=
  lvl_idx <~ lift (subscript step "level_index") ;;
  vals <~ lift (sv <- subscript step "sweep_values" ;; py_iter sv) ;;
  co_for_each vals (msa_sweep_value_task ch step m base reps conc lvl_idx).

Definition param_sweep_value_task (ch : Z)
    (m base reps conc sweep_param val : val) : co unit :=
  params <~ lift (py_dict base) ;;
  lift (setitem_val params sweep_param val) ~;;
  rng <~ lift (py_range1 reps) ;;
  co_for_each rng (fun i =>
    lo <~ lift (py_lower m) ;;
    h <~ lift get_heap ;;
    let title := lo +:+ "_" +:+ py_str h sweep_param +:+ py_str h val
                    +:+ "_run" +:+ str_of_Z i in
    run_one_task ch m params title conc).

Definition param_sweep_task (ch : Z) (step m base reps conc : val) : co unit :=
  sweep_param <~ lift (subscript step "sweep_param") ;;
  vals <~ lift (sv <- subscript step "sweep_values" ;; py_iter sv) ;;
  co_for_each vals (param_sweep_value_task ch m base reps conc sweep_param).

Definition expand_step_task (ch idx_step : Z) (step m typ reps conc : val)
    : co unit :=
  if py_eq_str typ "single" then
    params <~ lift (single_params step m) ;;
    single_runs_task ch idx_step m params reps conc
  else if py_eq_str typ "sweep" then
    base <~ lift (subscript step "base_params") ;;
    ml <~ lift (if py_eq_str m "MSA"
                then f <- get_method step "modify_levels" VNone ;; py_truthy f
                else ret false) ;;
    if ml : bool then msa_level_sweep_task ch step m base reps conc
    else param_sweep_task ch step m base reps conc
  else
    lift (h <- get_heap ;;
          emit (EvWarn ch (py_str h typ))).

Definition run_step_task (ch idx_step : Z) (step : val) : co unit :=
  m <~ lift (subscript step "method") ;;
  typ <~ lift (get_method step "type" (VStr "single")) ;;
  reps <~ lift (get_method step "repeats" (VInt 1)) ;;
  conc <~ lift (get_method step "concentration" VNone) ;;
  expand_step_task ch idx_step step m typ reps conc.

Definition run_steps_task (ch idx_step : Z) (steps : list val) : co unit :=
  co_for_each (enumerate idx_step steps)
    (fun '(i, step) => run_step_task ch i step).

Definition run_channel_task (ch : Z) (plan : val) (managers : list Z)
    : co unit :=
  lift (if existsb (Z.eqb ch) managers then ret tt
        else raise (KeyError (str_of_Z ch))) ~;;
  steps <~ lift (sq <- subscript plan "sequence" ;; py_iter sq) ;;
  run_steps_task ch 1 steps.

(* ----------------------------------------------------------------- *)
(** *** [asyncio.gather] (line 371)

    [gather] makes one task of each coroutine and [main] waits.  The event
    loop resumes one task at a time, in the order [schedule] gives (a task
    that has ended is passed over); a task that raises ends, the others are
    not cancelled and go on being resumed.  When [schedule] is used up, the
    tasks still waiting are run to their end one after the other, unless a
    task has raised by then: in that case, or as soon as one of them raises,
    [main] is resumed with the exception that was raised first, and the
    tasks that have not ended never run again. *)

Definition resume_task (i : nat) (pool : list status) (s : state)
    : list status * state :=
  match pool !! i with
  | Some (Waiting t) =>
      let '(st, s') := resume t s in (<[i := st]> pool, s')
  | _ => (pool, s)
  end.

(** The exception a task has just raised, when no task raised before. *)
Definition first_raised (failed : option exn) (st : option status)
    : option exn :=
  match failed, st with
  | Some e, _ => Some e
  | None, Some (Raised e) => Some e
  | None, _ => None
  end.

Fixpoint event_loop (sched : list nat) (pool : list status)
    (failed : option exn) (s : state) : list status * option exn * state :=
  match sched with
  | [] => (pool, failed, s)
  | i :: rest =>
      let '(pool', s') := resume_task i pool s in
      event_loop rest pool' (first_raised failed (pool' !! i)) s'
  end.

Fixpoint run_to_end (pool : list status) (s : state)
    : list status * option exn * state :=
  match pool with
  | [] => ([], None, s)
  | Waiting t :: rest =>
      match alone t s with
      | (Ok _, s') =>
          let '(rest', failed, s'') := run_to_end rest s' in
          (Returned :: rest', failed, s'')
      | (Raise e, s') => (Raised e :: rest, Some e, s')
      end
  | st :: rest =>
      let '(rest', failed, s') := run_to_end rest s in
      (st :: rest', failed, s')
  end.

(** The tasks at the moment [main] is resumed: how each one stands, and
    the exception raised first, if any. *)
Definition run_tasks (tasks : list (co unit)) (s : state)
    : list status * option exn * state :=
  let '(pool, failed, s') := event_loop (schedule E) (map Waiting tasks) None s in
  match failed with
  | Some e => (pool, Some e, s')
  | None => run_to_end pool s'
  end.

(** [await asyncio.gather( *tasks)], without [return_exceptions]. *)
Definition gather (tasks : list (co unit)) : M unit :=
  fun s =>
    let '(_, failed, s') := run_tasks tasks s in
    match failed with
    | Some e => (Raise e, s')
    | None => (Ok tt, s')
    end.

(** Lines 364-370: one coroutine for each assignment. *)
Definition channel_tasks (managers : list Z) (assignments : list (Z * val))
    : list (co unit) :=
  map (fun '(ch, plan) => run_channel_task ch plan managers) assignments.

(** Steps 6 and 7 (lines 362-377).  [asyncio.gather] is awaited outside
    any [try]: the exception it raises ends [main] at line 371. *)
Definition connect_run_save (channels : list Z) (assignments : list (Z * val))
    : M unit :=
  managers <- connect_channels channels [] ;;
  gather (channel_tasks managers assignments) ;;;
  for_each managers (fun ch => emit (EvDisconnect ch)) ;;;
  ms <- get_meas ;;
  emit (EvSave ms).

(** Lines 266-291: the text of [plan_summary.txt].  A step without a
    ["method"], or whose parameters are neither empty nor a dict, makes
    [main] raise here, before any channel is connected. *)
Definition summary_step (i : Z) (step : val) : M (list string) :=
  m <- subscript step "method" ;;
  rpt <- get_method step "repeats" (VInt 1) ;;
  params <- (p1 <- get_method step "params" VNone ;;
             t1 <- py_truthy p1 ;;
             if t1 : bool then ret p1 else
               p2 <- get_method step "base_params" VNone ;;
               t2 <- py_truthy p2 ;;
               if t2 : bool then ret p2 else alloc (ODict [])) ;;
  d <- dict_items params ;;
  h <- get_heap ;;
  ret ((str_of_Z i +:+ ". " +:+ py_str h m
          +:+ " (repeats: " +:+ py_str h rpt +:+ ")")
       :: map (fun kv => "    • " +:+ fst kv +:+ ": " +:+ py_str h (snd kv)) d).

Definition summary_plan (ch : Z) (plan : val) : M (list string) :=
  nm <- get_method plan "name" VNone ;;
  t <- py_truthy nm ;;
  name_line <- (if t : bool then
                  n <- subscript plan "name" ;;
                  h <- get_heap ;;
                  ret ["Plan Name: " +:+ py_str h n]
                else ret []) ;;
  steps <- (sq <- subscript plan "sequence" ;; py_iter sq) ;;
  ls <- map_m (fun '(i, step) => summary_step i step) (enumerate 1 steps) ;;
  ret (("--- Channel " +:+ str_of_Z ch +:+ " Sequence ---")
       :: name_line ++ concat ls ++ [""]).

(** Steps 4 to 7 with one experiment for all channels (lines 233-291 and
    362-377): the information file, one plan document per selected channel
    (the document [json.load] reads for the index typed), the summary, then
    connect, run, disconnect and save.  The two text files are taken to be
    written without error. *)
Definition main_same_exp (session_name exp_desc : string) (channels : list Z)
    (docs : list json) (global_conc : val) : M unit :=
  h0 <- get_heap ;;
  emit (EvInfo (["Session: " +:+ session_name; "Experiment: " +:+ exp_desc]
                ++ (if truthy h0 global_conc
                    then ["Concentration: " +:+ py_str h0 global_conc]
                    else []))) ;;;
  assignments <- map_m (fun '(ch, doc) =>
                          plan <- load_plan doc global_conc ;; ret (ch, plan))
                       (combine channels docs) ;;
  h <- get_heap ;;
  let header :=
    ["Experiment: " +:+ exp_desc;
     "Concentration: " +:+ (if truthy h global_conc
                            then py_str h global_conc else "—");
     "Channels: " +:+ String.concat ", " (map str_of_Z channels);
     ""] in
  ls <- map_m (fun '(ch, plan) => summary_plan ch plan) assignments ;;
  emit (EvSummary (header ++ concat ls)) ;;;
  connect_run_save channels assignments.

End Engine.

Definition init_state : state :=
  {| st_heap := []; st_trace := []; st_meas := []; st_calls := 0 |}.

(** The calls of [run_one] in a trace, in order: the expanded runs. *)
Definition runs_of (t : list event) : list request :=
  omap (fun e => match e with EvRun r => Some r | _ => None end) t.

(** What a run is made of: channel, method, title, concentration tag, and
    the content of the parameter dictionary when [run_one] is entered. *)
Definition run_view (r : request) : Z * string * string * val * option obj :=
  (rq_ch r, rq_method r, rq_title r, rq_conc r,
   deref (rq_heap r) (rq_params r)).

(** The objects a list value holds, read in a given store. *)
Definition deep_list (h : heap) (v : val) : option (list obj) :=
  match deref h v with
  | Some (OList xs) => mapM (deref h) xs
  | _ => None
  end.

(** One parameter of a run, and the objects of a list-valued parameter, as
    they are when [run_one] is entered. *)
Definition run_param (r : request) (key : string) : option val :=
  match deref (rq_heap r) (rq_params r) with
  | Some (ODict pd) => dict_get key pd
  | _ => None
  end.

Definition run_levels (r : request) (key : string) : option (list obj) :=
  match run_param r key with
  | Some v => deep_list (rq_heap r) v
  | None => None
  end.

(** An MSA run: channel, method, title, concentration tag, the raw levels
    under ["_raw_levels"] and the level objects under ["levels"]. *)
Definition msa_view (r : request)
    : Z * string * string * val * option (list obj) * option (list obj) :=
  (rq_ch r, rq_method r, rq_title r, rq_conc r,
   run_levels r "_raw_levels", run_levels r "levels").

(** The channels disconnected in a trace, and the session contents saved. *)
Definition disconnects (t : list event) : list Z :=
  omap (fun e => match e with EvDisconnect ch => Some ch | _ => None end) t.

Definition saves (t : list event) : list (list measurement) :=
  omap (fun e => match e with EvSave ms => Some ms | _ => None end) t.

Definition connects (t : list event) : list Z :=
  omap (fun e => match e with EvConnect ch => Some ch | _ => None end) t.

Definition warnings (t : list event) : list (Z * string) :=
  omap (fun e => match e with EvWarn ch typ => Some (ch, typ) | _ => None end) t.

(** The keys of [managers] after [connect_channels]. *)
Fixpoint managers_after (channels managers : list Z) : list Z :=
  match channels with
  | [] => managers
  | ch :: rest =>
      managers_after rest
        (if existsb (Z.eqb ch) managers then managers else managers ++ [ch])
  end.

(* ================================================================= *)
(** * Example worlds and plans *)

(** A world in which every run succeeds; two tasks are resumed in turn. *)
Definition quiet_env : env :=
  {| container_str := fun _ _ => "[...]";
     float_add1 := fun r => r +:+ "+1";
     run_fate := fun _ => works;
     schedule := [0; 1; 0; 1; 0; 1; 0; 1]%nat |}.

(** A world in which the instrument fails on the first measurement.  The
    first task starts its run, the second task starts its own, the first
    one is resumed with the failure, and the second one goes on. *)
Definition failing_env : env :=
  {| container_str := fun _ _ => "[...]";
     float_add1 := fun r => r +:+ "+1";
     run_fate := fun k =>
       if Nat.eqb k 0
       then {| files_fail := false; method_fails := false;
               measure_fails := true; close_fails := false;
               log_fails := false |}
       else works;
     schedule := [0; 1; 0; 1; 1; 1]%nat |}.

Definition cv_params : json :=
  JObj [("begin_potential", JFloat "0.0"); ("vtx1_potential", JFloat "0.5");
        ("vtx2_potential", JFloat "-0.5"); ("step_potential", JFloat "0.01");
        ("scanrate", JFloat "0.1"); ("n_scans", JInt 1)].

Definition cv_step (repeats : Z) : json :=
  JObj [("method", JStr "CV"); ("type", JStr "single");
        ("params", cv_params); ("repeats", JInt repeats)].

Definition plan_cv3 : json :=
  JObj [("name", JStr "cv3"); ("created", JStr "2025-01-01T00:00:00");
        ("sequence", JArr [cv_step 3])].

(** A plan document loaded into an empty store, without concentration
    tag: the plan object and the state. *)
Definition loaded (doc : json) : val * state :=
  match load_plan doc VNone init_state with
  | (Ok plan, s) => (plan, s)
  | (Raise _, s) => (VNone, s)
  end.

(** The store after [plan_cv3] is loaded: cell 0 holds the CV parameters,
    cell 1 the step, cell 2 the sequence, cell 3 the plan. *)
Definition state_cv3 : state := snd (load_plan plan_cv3 VNone init_state).

Definition cv_param_dict : dict :=
  [("begin_potential", VFloat "0.0"); ("vtx1_potential", VFloat "0.5");
   ("vtx2_potential", VFloat "-0.5"); ("step_potential", VFloat "0.01");
   ("scanrate", VFloat "0.1"); ("n_scans", VInt 1)].

Definition cv_step_dict (repeats : Z) : dict :=
  [("method", VStr "CV"); ("type", VStr "single"); ("params", VRef 0%nat);
   ("repeats", VInt repeats); ("concentration", VNone)].

(** A plan whose only step asks for zero repeats. *)
Definition plan_cv0 : json :=
  JObj [("name", JStr "cv0"); ("sequence", JArr [cv_step 0])].

Definition state_cv0 : state := snd (load_plan plan_cv0 VNone init_state).

(** A plan whose only step has no ["type"] field. *)
Definition plan_untyped : json :=
  JObj [("name", JStr "untyped");
        ("sequence", JArr [JObj [("method", JStr "CV"); ("params", cv_params);
                                 ("repeats", JInt 2)]])].

Definition state_untyped : state :=
  snd (load_plan plan_untyped VNone init_state).

Definition untyped_step_dict : dict :=
  [("method", VStr "CV"); ("params", VRef 0%nat); ("repeats", VInt 2);
   ("concentration", VNone)].

Definition msa_base : json :=
  JObj [("equilibration_time", JFloat "0.0"); ("interval_time", JFloat "0.1");
        ("n_cycles", JInt 1);
        ("levels", JArr [JObj [("level", JFloat "0.1"); ("duration", JFloat "1.0")];
                         JObj [("level", JFloat "0.2"); ("duration", JFloat "2.0")]])].

(** An MSA level sweep as [plan_builder.py] writes it. *)
Definition msa_sweep_step (level_index : Z) (sp sd : bool) (values : list json)
    (repeats : Z) : json :=
  JObj [("method", JStr "MSA"); ("type", JStr "sweep");
        ("base_params", msa_base);
        ("modify_levels", JBool true); ("level_index", JInt level_index);
        ("sweep_potential", JBool sp); ("sweep_duration", JBool sd);
        ("sweep_values", JArr values); ("repeats", JInt repeats)].

(** A plan whose first step sweeps level 6 of 2, followed by a CV step. *)
Definition plan_bad_index : json :=
  JObj [("name", JStr "bad_index");
        ("sequence", JArr [msa_sweep_step 5 true false [JFloat "0.5"] 1;
                           cv_step 1])].

(** A plan whose first step has an unknown type, followed by a CV step. *)
Definition plan_unknown_type : json :=
  JObj [("name", JStr "unknown_type");
        ("sequence", JArr [JObj [("method", JStr "CV"); ("type", JStr "loop");
                                 ("params", cv_params); ("repeats", JInt 1)];
                           cv_step 1])].

(** A plan whose only step names no known method and no known type. *)
Definition plan_unvalidated : json :=
  JObj [("name", JStr "unvalidated");
        ("sequence", JArr [JObj [("method", JStr "XYZ"); ("type", JStr "loop");
                                 ("repeats", JInt 1)]])].

(** Scenario 2 of the spec: an LSV sweep over the scan rate. *)
Definition lsv_base : json :=
  JObj [("begin_potential", JFloat "-0.5"); ("end_potential", JFloat "0.5");
        ("step_potential", JFloat "0.01"); ("scanrate", JFloat "0.01")].

Definition plan_lsv_sweep : json :=
  JObj [("name", JStr "lsv_sweep");
        ("sequence", JArr [JObj [("method", JStr "LSV"); ("type", JStr "sweep");
                                 ("sweep_param", JStr "scanrate");
                                 ("base_params", lsv_base);
                                 ("sweep_values", JArr [JFloat "0.05"; JFloat "0.1"]);
                                 ("repeats", JInt 1)]])].

Definition lsv_base_dict : dict :=
  [("begin_potential", VFloat "-0.5"); ("end_potential", VFloat "0.5");
   ("step_potential", VFloat "0.01"); ("scanrate", VFloat "0.01")].

Definition lsv_step_dict : dict :=
  [("method", VStr "LSV"); ("type", VStr "sweep");
   ("sweep_param", VStr "scanrate"); ("base_params", VRef 0%nat);
   ("sweep_values", VRef 1%nat); ("repeats", VInt 1);
   ("concentration", VNone)].

(** An MSA sweep of the potential of the second of two levels. *)
Definition plan_msa_sweep : json :=
  JObj [("name", JStr "msa_sweep");
        ("sequence",
         JArr [msa_sweep_step 1 true false [JFloat "0.5"; JFloat "0.6"] 2])].

Definition msa_level_dicts : list dict :=
  [[("level", VFloat "0.1"); ("duration", VFloat "1.0")];
   [("level", VFloat "0.2"); ("duration", VFloat "2.0")]].

Definition msa_base_dict : dict :=
  [("equilibration_time", VFloat "0.0"); ("interval_time", VFloat "0.1");
   ("n_cycles", VInt 1); ("levels", VRef 2%nat)].

Definition msa_step_dict (level_index : Z) (sp sd : bool) (repeats : Z) : dict :=
  [("method", VStr "MSA"); ("type", VStr "sweep"); ("base_params", VRef 3%nat);
   ("modify_levels", VBool true); ("level_index", VInt level_index);
   ("sweep_potential", VBool sp); ("sweep_duration", VBool sd);
   ("sweep_values", VRef 4%nat); ("repeats", VInt repeats);
   ("concentration", VNone)].

(** An MSA sweep whose [level_index] is -1 (the level asked for as "0" in
    [plan_builder.py], which subtracts one). *)
Definition plan_msa_negative : json :=
  JObj [("name", JStr "msa_negative");
        ("sequence", JArr [msa_sweep_step (-1) true false [JFloat "0.5"] 1])].

(** An MSA sweep whose [level_index] is 5, with two levels. *)
Definition plan_msa_beyond : json :=
  JObj [("name", JStr "msa_beyond");
        ("sequence", JArr [msa_sweep_step 5 true false [JFloat "0.5"] 1])].

(* ================================================================= *)
(** * Reasoning principles *)

Local Open Scope nat_scope.

Lemma bind_ok {A B} (c : M A) (k : A -> M B) s a s1 :
  c s = (Ok a, s1) -> bind c k s = k a s1.
Proof. intros H. unfold bind. now rewrite H. Qed.

Lemma bind_raise {A B} (c : M A) (k : A -> M B) s e s1 :
  c s = (Raise e, s1) -> bind c k s = (Raise e, s1).
Proof. intros H. unfold bind. now rewrite H. Qed.

Lemma for_each_app {A} (xs ys : list A) (body : A -> M unit) s :
  for_each (xs ++ ys) body s =
  bind (for_each xs body) (fun _ => for_each ys body) s.
Proof.
  revert s. induction xs as [|x xs IH]; intros s; simpl.
  - reflexivity.
  - unfold bind. destruct (body x s) as [[[]|e] s1]; [|reflexivity].
    rewrite IH. reflexivity.
Qed.

(** A relation between the state before and the state after that every
    part of a computation respects is respected by the whole. *)
Definition pres {A} (R : relation state) (c : M A) : Prop :=
  forall s, R s (snd (c s)).

(** An operation that only reads the state. *)
Definition reader {A} (c : M A) : Prop := forall s, snd (c s) = s.

Section Pres.
Context (R : relation state) `{!PreOrder R}.

Lemma pres_ret {A} (a : A) : pres R (ret a).
Proof. intros s. reflexivity. Qed.

Lemma pres_raise {A} e : pres R (@raise A e).
Proof. intros s. reflexivity. Qed.

Lemma pres_bind {A B} (c : M A) (k : A -> M B) :
  pres R c -> (forall a, pres R (k a)) -> pres R (bind c k).
Proof.
  intros Hc Hk s. unfold bind. specialize (Hc s).
  destruct (c s) as [[a|e] s1]; simpl in *; [|exact Hc].
  etransitivity; [exact Hc|apply Hk].
Qed.

Lemma pres_for_each {A} (xs : list A) (body : A -> M unit) :
  (forall x, pres R (body x)) -> pres R (for_each xs body).
Proof.
  intros Hb. induction xs as [|x xs IH]; simpl.
  - apply pres_ret.
  - apply pres_bind; auto.
Qed.

Lemma pres_map_m {A B} (f : A -> M B) (xs : list A) :
  (forall x, pres R (f x)) -> pres R (map_m f xs).
Proof.
  intros Hf. induction xs as [|x xs IH]; simpl.
  - apply pres_ret.
  - apply pres_bind; [apply Hf|]. intros y.
    apply pres_bind; [apply IH|]. intros ys. apply pres_ret.
Qed.

Lemma pres_reader {A} (c : M A) : reader c -> pres R c.
Proof. intros H s. rewrite H. reflexivity. Qed.
End Pres.

Ltac reader_tac :=
  intros s; cbv [bind get_heap ret raise];
  repeat (simpl; match goal with
          | |- context [match ?x with _ => _ end] => destruct x
          end);
  reflexivity.

Lemma reader_subscript v k : reader (subscript v k).
Proof. unfold subscript. reader_tac. Qed.

Lemma reader_get_method v k d : reader (get_method v k d).
Proof. unfold get_method. reader_tac. Qed.

Lemma reader_dict_items v : reader (dict_items v).
Proof. unfold dict_items. reader_tac. Qed.

Lemma reader_py_truthy v : reader (py_truthy v).
Proof. unfold py_truthy. reader_tac. Qed.

Lemma reader_py_iter v : reader (py_iter v).
Proof. unfold py_iter. reader_tac. Qed.

Lemma reader_py_range1 v : reader (py_range1 v).
Proof. unfold py_range1. reader_tac. Qed.

Lemma reader_list_getitem v i : reader (list_getitem v i).
Proof. unfold list_getitem. reader_tac. Qed.

Lemma reader_py_lower v : reader (py_lower v).
Proof. unfold py_lower. reader_tac. Qed.

Lemma reader_py_add1 E v : reader (py_add1 E v).
Proof. unfold py_add1. reader_tac. Qed.

Lemma reader_get_heap : reader get_heap.
Proof. reader_tac. Qed.

Lemma reader_get_meas : reader get_meas.
Proof. intros s. reflexivity. Qed.

Lemma reader_bind {A B} (c : M A) (k : A -> M B) :
  reader c -> (forall a, reader (k a)) -> reader (bind c k).
Proof.
  intros Hc Hk s. unfold bind. specialize (Hc s).
  destruct (c s) as [[a|e] s1]; simpl in *; subst; [apply Hk|reflexivity].
Qed.

Lemma reader_dict_add_pair acc item : reader (dict_add_pair acc item).
Proof.
  unfold dict_add_pair. apply reader_bind; [apply reader_py_iter|].
  intros [|key [|x [|y kv]]]; try (intros s; reflexivity).
  destruct key as [| | | |k|l]; intros s; reflexivity.
Qed.

Lemma reader_dict_of_pairs items acc : reader (dict_of_pairs acc items).
Proof.
  revert acc. induction items as [|item items IH]; intros acc; simpl.
  - intros s. reflexivity.
  - apply reader_bind; [apply reader_dict_add_pair|exact IH].
Qed.

Create HintDb readers.
#[local] Hint Resolve reader_subscript reader_get_method reader_dict_items
  reader_py_truthy reader_py_iter reader_py_range1 reader_list_getitem
  reader_py_lower reader_py_add1 reader_get_heap reader_get_meas
  reader_dict_of_pairs : readers.

(** One step of a proof that a computation respects a relation: follow the
    structure of the code. *)
Ltac pres_step :=
  match goal with
  | |- pres ?R (ret _) => apply (pres_ret R)
  | |- pres ?R (raise _) => apply (pres_raise R)
  | |- pres ?R (bind _ _) => apply (pres_bind R); [|intros ?]
  | |- pres ?R (for_each _ _) => apply (pres_for_each R); intros ?
  | |- pres ?R (map_m _ _) => apply (pres_map_m R); intros ?
  | |- pres ?R (match ?x with _ => _ end) => destruct x
  | |- pres ?R _ => apply (pres_reader R); solve [auto with readers]
  end.

(* ----------------------------------------------------------------- *)
(** ** Coroutines and the event loop *)

Lemma bind_ext {A B} (c : M A) (k k' : A -> M B) s :
  (forall a s', k a s' = k' a s') -> bind c k s = bind c k' s.
Proof. intros H. unfold bind. destruct (c s) as [[a|e] s']; auto. Qed.

Lemma bind_ret_r {A} (c : M A) s : bind c (fun x => ret x) s = c s.
Proof. unfold bind. now destruct (c s) as [[a|e] s']. Qed.

Lemma for_each_ext {A} (xs : list A) (f g : A -> M unit) s :
  (forall x s, f x s = g x s) -> for_each xs f s = for_each xs g s.
Proof.
  intros H. revert s. induction xs as [|x xs IH]; intros s; simpl.
  - reflexivity.
  - unfold bind. rewrite H. destruct (g x s) as [[[]|e] s1]; auto.
Qed.

Lemma alone_bind {A B} (t : co A) (f : A -> co B) s :
  alone (co_bind t f) s = bind (alone t) (fun a => alone (f a)) s.
Proof.
  revert s. induction t as [a|X c k IH|t IH]; intros s; simpl.
  - reflexivity.
  - unfold bind. destruct (c s) as [[x|e] s']; [apply IH|reflexivity].
  - apply IH.
Qed.

Lemma alone_for_each {A} (xs : list A) (body : A -> co unit) s :
  alone (co_for_each xs body) s = for_each xs (fun x => alone (body x)) s.
Proof.
  revert s. induction xs as [|x xs IH]; intros s; simpl; [reflexivity|].
  rewrite alone_bind. apply bind_ext. intros _ s'. apply IH.
Qed.

(** Leaving out the points of suspension gives [run_one] and the
    definitions of [run_channel] back. *)
Ltac alone_step :=
  cbn [alone co_bind lift await];
  repeat match goal with
         | |- bind _ _ _ = bind _ _ _ => apply bind_ext; intros ? ?
         end.

Lemma alone_run_one_task E ch m params title conc s :
  alone (run_one_task E ch m params title conc) s
  = run_one E ch m params title conc s.
Proof.
  unfold run_one_task, run_one. alone_step. apply bind_ret_r.
Qed.

Lemma alone_single_runs_task E ch i m params reps conc s :
  alone (single_runs_task E ch i m params reps conc) s
  = single_runs E ch i m params reps conc s.
Proof.
  unfold single_runs_task, single_runs. alone_step.
  rewrite alone_for_each. apply for_each_ext. intros j s2. alone_step.
  apply alone_run_one_task.
Qed.

Lemma alone_msa_sweep_value_task E ch step m base reps conc lvl_idx val s :
  alone (msa_sweep_value_task E ch step m base reps conc lvl_idx val) s
  = msa_sweep_value E ch step m base reps conc lvl_idx val s.
Proof.
  unfold msa_sweep_value_task, msa_sweep_value. alone_step.
  rewrite alone_for_each. apply for_each_ext. intros j s2. alone_step.
  apply alone_run_one_task.
Qed.

Lemma alone_param_sweep_value_task E ch m base reps conc sweep_param val s :
  alone (param_sweep_value_task E ch m base reps conc sweep_param val) s
  = param_sweep_value E ch m base reps conc sweep_param val s.
Proof.
  unfold param_sweep_value_task, param_sweep_value. alone_step.
  rewrite alone_for_each. apply for_each_ext. intros j s2. alone_step.
  apply alone_run_one_task.
Qed.

Lemma alone_expand_step_task E ch i step m typ reps conc s :
  alone (expand_step_task E ch i step m typ reps conc) s
  = expand_step E ch i step m typ reps conc s.
Proof.
  unfold expand_step_task, expand_step.
  destruct (py_eq_str typ "single").
  { alone_step. apply alone_single_runs_task. }
  destruct (py_eq_str typ "sweep").
  2:{ alone_step. apply bind_ret_r. }
  alone_step.
  match goal with |- alone (if ?b then _ else _) _ = _ => destruct b end.
  - unfold msa_level_sweep_task, msa_level_sweep. alone_step.
    rewrite alone_for_each. apply for_each_ext. intros v s3.
    apply alone_msa_sweep_value_task.
  - unfold param_sweep_task, param_sweep. alone_step.
    rewrite alone_for_each. apply for_each_ext. intros v s3.
    apply alone_param_sweep_value_task.
Qed.

Lemma alone_run_step_task E ch i step s :
  alone (run_step_task E ch i step) s = run_step E ch i step s.
Proof.
  unfold run_step_task, run_step. alone_step. apply alone_expand_step_task.
Qed.

Lemma alone_run_channel_task E ch plan managers s :
  alone (run_channel_task E ch plan managers) s
  = run_channel E ch plan managers s.
Proof.
  unfold run_channel_task, run_channel, run_steps_task, run_steps. alone_step.
  rewrite alone_for_each. apply for_each_ext. intros [j step] s2.
  apply alone_run_step_task.
Qed.

(** What the state of a task stands for: the rest of its run. *)
Definition settle (st : status) : M unit :=
  match st with
  | Waiting t => alone t
  | Returned => ret tt
  | Raised e => raise e
  end.

Lemma resume_settle t s :
  settle (fst (resume t s)) (snd (resume t s)) = alone t s.
Proof.
  revert s. induction t as [[]|X c k IH|t IH]; intros s; simpl.
  - reflexivity.
  - unfold bind. destruct (c s) as [[x|e] s']; [apply IH|reflexivity].
  - reflexivity.
Qed.

(** A relation that every operation of a coroutine respects. *)
Fixpoint copres (R : relation state) {A} (t : co A) : Prop :=
  match t with
  | Fin _ => True
  | Act c k => pres R c /\ forall x, copres R (k x)
  | Await t' => copres R t'
  end.

Definition pool_pres (R : relation state) (pool : list status) : Prop :=
  Forall (fun st => match st with Waiting t => copres R t | _ => True end) pool.

Section CoPres.
Context (R : relation state) `{!PreOrder R}.

Lemma copres_bind {A B} (t : co A) (f : A -> co B) :
  copres R t -> (forall a, copres R (f a)) -> copres R (co_bind t f).
Proof.
  intros Ht Hf. induction t as [a|X c k IH|t IH]; simpl in *.
  - apply Hf.
  - destruct Ht as [Hc Hk]. split; [exact Hc|]. intros x. apply IH, Hk.
  - apply IH, Ht.
Qed.

Lemma copres_lift {A} (c : M A) : pres R c -> copres R (lift c).
Proof. intros H. split; [exact H|]. intros x. exact I. Qed.

Lemma copres_for_each {A} (xs : list A) (body : A -> co unit) :
  (forall x, copres R (body x)) -> copres R (co_for_each xs body).
Proof.
  intros Hb. induction xs as [|x xs IH]; simpl; [exact I|].
  apply copres_bind; auto.
Qed.

Lemma copres_alone {A} (t : co A) : copres R t -> pres R (alone t).
Proof.
  induction t as [a|X c k IH|t IH]; simpl; intros Ht.
  - apply pres_ret; assumption.
  - destruct Ht as [Hc Hk]. apply pres_bind; auto.
  - auto.
Qed.

Lemma copres_resume t s :
  copres R t ->
  R s (snd (resume t s)) /\
  match fst (resume t s) with Waiting t' => copres R t' | _ => True end.
Proof.
  revert s. induction t as [[]|X c k IH|t IH]; intros s Ht; simpl in *.
  - split; [reflexivity|exact I].
  - destruct Ht as [Hc Hk]. specialize (Hc s).
    destruct (c s) as [[x|e] s']; simpl in *.
    + destruct (IH x s' (Hk x)) as [H1 H2].
      split; [etransitivity; eassumption|exact H2].
    + split; [exact Hc|exact I].
  - split; [reflexivity|exact Ht].
Qed.

Lemma copres_resume_task i pool s :
  pool_pres R pool ->
  R s (snd (resume_task i pool s)) /\
  pool_pres R (fst (resume_task i pool s)).
Proof.
  intros Hp. unfold resume_task.
  destruct (pool !! i) as [[t| |]|] eqn:Hi;
    try (split; [reflexivity|exact Hp]).
  assert (Ht : copres R t).
  { unfold pool_pres in Hp. rewrite Forall_lookup in Hp.
    exact (Hp i _ Hi). }
  destruct (copres_resume t s Ht) as [H1 H2].
  destruct (resume t s) as [st s']. simpl in *. split; [exact H1|].
  apply Forall_insert; assumption.
Qed.

Lemma copres_event_loop sched pool failed s :
  pool_pres R pool ->
  R s (snd (event_loop sched pool failed s)) /\
  pool_pres R (fst (fst (event_loop sched pool failed s))).
Proof.
  revert pool failed s.
  induction sched as [|i rest IH]; intros pool failed s Hp; simpl.
  - split; [reflexivity|exact Hp].
  - destruct (copres_resume_task i pool s Hp) as [H1 H2].
    destruct (resume_task i pool s) as [pool' s']. simpl in *.
    destruct (IH pool' (first_raised failed (pool' !! i)) s' H2) as [H3 H4].
    split; [etransitivity; eassumption|exact H4].
Qed.

Lemma copres_run_to_end pool s :
  pool_pres R pool -> R s (snd (run_to_end pool s)).
Proof.
  revert s. induction pool as [|st pool IH]; intros s Hp; simpl.
  - reflexivity.
  - apply Forall_cons in Hp as [Ht Hp]. destruct st as [t| |].
    + pose proof (copres_alone t Ht s) as H1.
      destruct (alone t s) as [[[]|e] s']; simpl in *; [|exact H1].
      specialize (IH s' Hp).
      destruct (run_to_end pool s') as [[rest' failed] s'']. simpl in *.
      etransitivity; eassumption.
    + specialize (IH s Hp).
      now destruct (run_to_end pool s) as [[rest' failed] s''].
    + specialize (IH s Hp).
      now destruct (run_to_end pool s) as [[rest' failed] s''].
Qed.

Lemma copres_run_tasks E tasks s :
  Forall (copres R) tasks -> R s (snd (run_tasks E tasks s)).
Proof.
  intros Ht. unfold run_tasks.
  assert (Hp : pool_pres R (map Waiting tasks)).
  { unfold pool_pres. rewrite Forall_map. exact Ht. }
  destruct (copres_event_loop (schedule E) _ None s Hp) as [H1 H2].
  destruct (event_loop (schedule E) (map Waiting tasks) None s)
    as [[pool failed] s']. simpl in *.
  destruct failed as [e|]; [exact H1|].
  etransitivity; [exact H1|]. now apply copres_run_to_end.
Qed.

Lemma pres_gather E tasks : Forall (copres R) tasks -> pres R (gather E tasks).
Proof.
  intros Ht s. pose proof (copres_run_tasks E tasks s Ht) as H.
  unfold gather. destruct (run_tasks E tasks s) as [[pool failed] s'].
  now destruct failed.
Qed.

End CoPres.

(** One step of a proof that a coroutine respects a relation. *)
Ltac copres_step :=
  match goal with
  | |- copres ?R (co_bind _ _) => apply (copres_bind R); [|intros ?]
  | |- copres ?R (lift _) => apply (copres_lift R)
  | |- copres ?R await => exact I
  | |- copres ?R (co_for_each _ _) => apply (copres_for_each R); intros ?
  | |- copres ?R (match ?x with _ => _ end) => destruct x
  end.

(* ----------------------------------------------------------------- *)
(** ** What a computation may add to the trace *)

Definition emits_only (P : event -> Prop) : relation state :=
  fun s s' => exists t, st_trace s' = st_trace s ++ t /\ Forall P t.

#[local] Instance emits_only_preorder P : PreOrder (emits_only P).
Proof.
  split.
  - intros s. exists []. split; [now rewrite app_nil_r|constructor].
  - intros s1 s2 s3 [t1 [H1 F1]] [t2 [H2 F2]]. exists (t1 ++ t2). split.
    + rewrite H2, H1. now rewrite app_assoc.
    + apply Forall_app. split; assumption.
Qed.

Lemma emits_only_same_trace P s s' :
  st_trace s' = st_trace s -> emits_only P s s'.
Proof. intros H. exists []. split; [now rewrite app_nil_r|constructor]. Qed.

Lemma emits_put_heap P h : pres (emits_only P) (put_heap h).
Proof. intros s. now apply emits_only_same_trace. Qed.

Lemma emits_alloc P o : pres (emits_only P) (alloc o).
Proof. intros s. now apply emits_only_same_trace. Qed.

Lemma emits_next_call P : pres (emits_only P) next_call.
Proof. intros s. now apply emits_only_same_trace. Qed.

Lemma emits_append_meas P m : pres (emits_only P) (append_meas m).
Proof. intros s. now apply emits_only_same_trace. Qed.

Lemma emits_emit (P : event -> Prop) e : P e -> pres (emits_only P) (emit e).
Proof. intros H s. exists [e]. split; [reflexivity|]. now constructor. Qed.

Lemma emits_setitem P v k x : pres (emits_only P) (setitem v k x).
Proof. unfold setitem. repeat pres_step. apply emits_put_heap. Qed.

Lemma emits_py_pop P v k : pres (emits_only P) (py_pop v k).
Proof. unfold py_pop. repeat pres_step. apply emits_put_heap. Qed.

Lemma emits_setitem_val P v k x : pres (emits_only P) (setitem_val v k x).
Proof.
  unfold setitem_val.
  repeat pres_step; first [apply emits_setitem|apply emits_put_heap].
Qed.

Lemma emits_py_copy P v : pres (emits_only P) (py_copy v).
Proof. unfold py_copy. repeat pres_step; apply emits_alloc. Qed.

Lemma emits_py_dict P v : pres (emits_only P) (py_dict v).
Proof. unfold py_dict. repeat pres_step; apply emits_alloc. Qed.

Lemma emits_level_object P v : pres (emits_only P) (level_object v).
Proof. unfold level_object. repeat pres_step; apply emits_alloc. Qed.

Create HintDb emits.
#[local] Hint Resolve emits_put_heap emits_alloc emits_next_call
  emits_append_meas emits_setitem emits_setitem_val emits_py_copy
  emits_py_dict emits_level_object emits_py_pop : emits.

(** The events of a channel task: runs, their logs, and warnings. *)
Definition run_event (e : event) : Prop :=
  match e with
  | EvRun _ | EvLog _ | EvWarn _ _ => True
  | _ => False
  end.

Ltac emits_tac :=
  repeat (first [ pres_step
                | solve [auto with emits]
                | apply emits_emit; exact I ]).

Lemma emits_run_one_start E ch m params title conc :
  pres (emits_only run_event) (run_one_start E ch m params title conc).
Proof. unfold run_one_start, leave_with. emits_tac. Qed.

Lemma emits_run_one_finish E ch name params title conc k :
  pres (emits_only run_event) (run_one_finish E ch name params title conc k).
Proof. unfold run_one_finish, leave_with. emits_tac. Qed.

Lemma emits_run_one E ch m params title conc :
  pres (emits_only run_event) (run_one E ch m params title conc).
Proof.
  unfold run_one. pres_step;
    [apply emits_run_one_start|apply emits_run_one_finish].
Qed.

Lemma emits_run_step E ch i step :
  pres (emits_only run_event) (run_step E ch i step).
Proof.
  unfold run_step, expand_step, single_params, single_runs, msa_level_sweep,
    msa_sweep_value, param_sweep, param_sweep_value.
  emits_tac; apply emits_run_one.
Qed.

Lemma emits_run_channel E ch plan managers :
  pres (emits_only run_event) (run_channel E ch plan managers).
Proof. unfold run_channel, run_steps. emits_tac. apply emits_run_step. Qed.

Lemma for_each_raise_inv {A} (xs : list A) (body : A -> M unit) s e s' :
  for_each xs body s = (Raise e, s') ->
  exists pre x post s1,
    xs = pre ++ x :: post /\
    for_each pre body s = (Ok tt, s1) /\
    body x s1 = (Raise e, s').
Proof.
  revert s. induction xs as [|x xs IH]; intros s H; simpl in H.
  - discriminate.
  - unfold bind in H. destruct (body x s) as [[[]|e0] s1] eqn:Hx.
    + destruct (IH _ H) as (pre & y & post & s2 & -> & Hpre & Hy).
      exists (x :: pre), y, post, s2. split; [reflexivity|]. split; [|exact Hy].
      simpl. unfold bind. now rewrite Hx.
    + inversion H; subst. exists [], x, xs, s. auto.
Qed.

Lemma connect_channels_spec channels managers s :
  connect_channels channels managers s =
  (Ok (managers_after channels managers),
   {| st_heap := st_heap s; st_trace := st_trace s ++ map EvConnect channels;
      st_meas := st_meas s; st_calls := st_calls s |}).
Proof.
  revert managers s. induction channels as [|ch rest IH]; intros managers s; simpl.
  - unfold ret. rewrite app_nil_r. now destruct s.
  - unfold bind, emit. rewrite IH. simpl. now rewrite <- app_assoc.
Qed.

Lemma disconnect_all_spec managers s :
  for_each managers (fun ch => emit (EvDisconnect ch)) s =
  (Ok tt,
   {| st_heap := st_heap s; st_trace := st_trace s ++ map EvDisconnect managers;
      st_meas := st_meas s; st_calls := st_calls s |}).
Proof.
  revert s. induction managers as [|ch rest IH]; intros s; simpl.
  - unfold ret. rewrite app_nil_r. now destruct s.
  - unfold bind, emit. rewrite IH. simpl. now rewrite <- app_assoc.
Qed.

Lemma disconnects_app t1 t2 : disconnects (t1 ++ t2) = disconnects t1 ++ disconnects t2.
Proof. apply omap_app. Qed.

Lemma saves_app t1 t2 : saves (t1 ++ t2) = saves t1 ++ saves t2.
Proof. apply omap_app. Qed.

Lemma disconnects_run_events t : Forall run_event t -> disconnects t = [].
Proof.
  induction 1 as [|e t He _ IH]; [reflexivity|].
  destruct e; simpl in *; try contradiction; exact IH.
Qed.

Lemma saves_run_events t : Forall run_event t -> saves t = [].
Proof.
  induction 1 as [|e t He _ IH]; [reflexivity|].
  destruct e; simpl in *; try contradiction; exact IH.
Qed.

Lemma disconnects_connects chs : disconnects (map EvConnect chs) = [].
Proof. induction chs; simpl; auto. Qed.

Lemma saves_connects chs : saves (map EvConnect chs) = [].
Proof. induction chs; simpl; auto. Qed.

Lemma disconnects_disconnects chs : disconnects (map EvDisconnect chs) = chs.
Proof. induction chs; simpl; [|unfold disconnects in *]; congruence. Qed.

Lemma saves_disconnects chs : saves (map EvDisconnect chs) = [].
Proof. induction chs; simpl; auto. Qed.

Ltac coemits_tac :=
  repeat first
    [ copres_step
    | match goal with
      | |- pres _ (run_one_start _ _ _ _ _ _) => apply emits_run_one_start
      | |- pres _ (run_one_finish _ _ _ _ _ _ _) => apply emits_run_one_finish
      end
    | pres_step
    | solve [auto with emits]
    | apply emits_emit; exact I ].

Lemma emits_run_channel_task E ch plan managers :
  copres (emits_only run_event) (run_channel_task E ch plan managers).
Proof.
  unfold run_channel_task, run_steps_task, run_step_task, expand_step_task,
    single_params, single_runs_task, msa_level_sweep_task,
    msa_sweep_value_task, param_sweep_task, param_sweep_value_task,
    run_one_task.
  coemits_tac.
Qed.

Lemma copres_channel_tasks (R : relation state) E managers assignments :
  (forall ch plan, copres R (run_channel_task E ch plan managers)) ->
  Forall (copres R) (channel_tasks E managers assignments).
Proof.
  intros H. unfold channel_tasks. apply Forall_map, Forall_forall.
  intros [ch plan] _. apply H.
Qed.

(** Whatever the schedule, the channel tasks add only runs, logs and
    warnings to the trace. *)
Lemma emits_gather E managers assignments :
  pres (emits_only run_event) (gather E (channel_tasks E managers assignments)).
Proof.
  apply (pres_gather (emits_only run_event)), copres_channel_tasks.
  intros ch plan. apply emits_run_channel_task.
Qed.

(** The state in which the channels have been connected, and the state in
    which they have been disconnected and the session saved. *)
Definition connected (channels : list Z) (s : state) : state :=
  {| st_heap := st_heap s; st_trace := st_trace s ++ map EvConnect channels;
     st_meas := st_meas s; st_calls := st_calls s |}.

Definition cleaned_up (managers : list Z) (s : state) : state :=
  {| st_heap := st_heap s;
     st_trace := (st_trace s ++ map EvDisconnect managers)
                   ++ [EvSave (st_meas s)];
     st_meas := st_meas s; st_calls := st_calls s |}.

(** Steps 6 and 7 of [main], from the state the channels are connected in. *)
Lemma connect_run_save_eq E channels assignments s :
  let managers := managers_after channels [] in
  connect_run_save E channels assignments s =
  match gather E (channel_tasks E managers assignments) (connected channels s)
  with
  | (Ok _, s2) => (Ok tt, cleaned_up managers s2)
  | (Raise e, s2) => (Raise e, s2)
  end.
Proof.
  intros managers. unfold connect_run_save.
  rewrite (bind_ok _ _ _ _ _ (connect_channels_spec channels [] s)).
  fold managers (connected channels s). unfold bind at 1.
  destruct (gather E _ (connected channels s)) as [[[]|e] s2]; [|reflexivity].
  now rewrite (bind_ok _ _ _ _ _ (disconnect_all_spec managers s2)).
Qed.

(** The exception a task ended with. *)
Definition raised_of (st : status) : option exn :=
  match st with Raised e => Some e | _ => None end.

(** The exception recorded as the first one is that of a task that
    raised, and none is recorded only while no task has raised. *)
Definition agrees (pool : list status) (failed : option exn) : Prop :=
  match failed with
  | Some e => In (Raised e) pool
  | None => Forall (fun st => raised_of st = None) pool
  end.

Lemma agrees_resume_task i pool failed s :
  agrees pool failed ->
  let pool' := fst (resume_task i pool s) in
  agrees pool' (first_raised failed (pool' !! i)).
Proof.
  intros Ha. unfold resume_task.
  destruct (pool !! i) as [st|] eqn:Hi.
  2:{ simpl. rewrite Hi. now destruct failed. }
  destruct st as [t| |].
  - destruct (resume t s) as [st' s']. simpl.
    assert (Hlt : (i < length pool)%nat) by (eapply lookup_lt_Some; eassumption).
    rewrite list_lookup_insert_eq by exact Hlt.
    destruct failed as [e|]; simpl in *.
    + apply list_elem_of_In, list_elem_of_lookup_1 in Ha as [j Hj].
      apply list_elem_of_In, (list_elem_of_lookup_2 _ j).
      rewrite list_lookup_insert_ne; [exact Hj|]. intros ->. congruence.
    + destruct st' as [t'| |e'].
      * now apply Forall_insert.
      * now apply Forall_insert.
      * apply list_elem_of_In, (list_elem_of_lookup_2 _ i).
        now apply list_lookup_insert_eq.
  - simpl. rewrite Hi. now destruct failed.
  - simpl. rewrite Hi. destruct failed as [e0|]; simpl in *; [exact Ha|].
    rewrite Forall_lookup in Ha. now specialize (Ha i _ Hi).
Qed.

Lemma agrees_event_loop sched pool failed s :
  agrees pool failed ->
  agrees (fst (fst (event_loop sched pool failed s)))
         (snd (fst (event_loop sched pool failed s))).
Proof.
  revert pool failed s.
  induction sched as [|i rest IH]; intros pool failed s Ha; simpl.
  - exact Ha.
  - pose proof (agrees_resume_task i pool failed s Ha) as H.
    destruct (resume_task i pool s) as [pool' s']. simpl in *.
    now apply IH.
Qed.

(** When [main] is resumed, every task has returned, or a task has raised
    the exception that is raised in [main]. *)
Definition tasks_outcome (pool : list status) (failed : option exn) : Prop :=
  match failed with
  | Some e => In (Raised e) pool
  | None => Forall (eq Returned) pool
  end.

Lemma run_to_end_outcome pool s :
  Forall (fun st => raised_of st = None) pool ->
  tasks_outcome (fst (fst (run_to_end pool s))) (snd (fst (run_to_end pool s))).
Proof.
  revert s. induction pool as [|st pool IH]; intros s Hp; simpl.
  - constructor.
  - apply Forall_cons in Hp as [Hst Hp]. destruct st as [t| |e].
    + destruct (alone t s) as [[[]|e] s']; [|now left].
      specialize (IH s' Hp).
      destruct (run_to_end pool s') as [[rest' [e|]] s'']; simpl in *.
      * now right.
      * now constructor.
    + specialize (IH s Hp).
      destruct (run_to_end pool s) as [[rest' [e|]] s'']; simpl in *.
      * now right.
      * now constructor.
    + discriminate.
Qed.

Lemma run_tasks_outcome E tasks s :
  tasks_outcome (fst (fst (run_tasks E tasks s))) (snd (fst (run_tasks E tasks s))).
Proof.
  unfold run_tasks.
  assert (Ha : agrees (map Waiting tasks) None).
  { simpl. apply Forall_map, Forall_forall. now intros. }
  pose proof (agrees_event_loop (schedule E) _ None s Ha) as H.
  destruct (event_loop (schedule E) (map Waiting tasks) None s)
    as [[pool [e|]] s']; simpl in *.
  - exact H.
  - now apply run_to_end_outcome.
Qed.

(** One task alone: whatever the schedule, it runs from start to end. *)
Lemma event_loop_one sched st s :
  exists st' s',
    event_loop sched [st] (raised_of st) s = ([st'], raised_of st', s') /\
    settle st' s' = settle st s.
Proof.
  revert st s. induction sched as [|i rest IH]; intros st s; simpl.
  - now exists st, s.
  - unfold resume_task. destruct i as [|i]; simpl.
    + destruct st as [t| |e]; simpl.
      * pose proof (resume_settle t s) as Hs.
        destruct (resume t s) as [st1 s1]. simpl in *.
        destruct (IH st1 s1) as (st' & s' & H1 & H2).
        exists st', s'. split; [exact H1|congruence].
      * apply (IH Returned s).
      * apply (IH (Raised e) s).
    + destruct (IH st s) as (st' & s' & H1 & H2).
      exists st', s'. split; [|exact H2].
      rewrite <- H1. now destruct st.
Qed.

Lemma gather_one E t s : gather E [t] s = alone t s.
Proof.
  unfold gather, run_tasks. simpl map.
  destruct (event_loop_one (schedule E) (Waiting t) s)
    as (st' & s' & Hel & Hs).
  simpl in Hel, Hs. rewrite Hel, <- Hs.
  destruct st' as [t'| |e]; simpl; try reflexivity.
  now destruct (alone t' s') as [[[]|e] s''].
Qed.

(** C1 (amended): steps 6 and 7 of [main], whatever the order in which the
    event loop resumes the channel tasks.  When [main] is resumed after
    [gather], either every task has returned or a task has raised.  In the
    first case, and only then, [main] returns: every key of [managers] is
    disconnected, in order, and the session is saved once with all the
    measurements.  In the second case [main] raises an exception that a
    task raised, and nothing is disconnected and nothing saved.  With one
    channel task, [main] raises exactly when [run_channel] does, with the
    same exception and in the state it left. *)
Theorem connect_run_save_cleanup E channels assignments s :
  let r := connect_run_save E channels assignments s in
  let managers := managers_after channels [] in
  let pool := fst (fst (run_tasks E (channel_tasks E managers assignments)
                          (connected channels s))) in
  exists t,
    st_trace (snd r) = st_trace s ++ t /\
    (Forall (eq Returned) pool \/ exists e, In (Raised e) pool) /\
    (Forall (eq Returned) pool ->
     fst r = Ok tt /\ disconnects t = managers /\
     saves t = [st_meas (snd r)]) /\
    ((exists e, In (Raised e) pool) ->
     (exists e, fst r = Raise e /\ In (Raised e) pool) /\
     disconnects t = [] /\ saves t = []) /\
    (forall ch plan, assignments = [(ch, plan)] ->
     match run_channel E ch plan managers (connected channels s) with
     | (Ok _, s2) => r = (Ok tt, cleaned_up managers s2)
     | (Raise e, s2) => r = (Raise e, s2)
     end).
Proof.
  intros r managers pool.
  set (tasks := channel_tasks E managers assignments) in *.
  set (s0 := connected channels s) in *.
  assert (Hr : r = match gather E tasks s0 with
                   | (Ok _, s2) => (Ok tt, cleaned_up managers s2)
                   | (Raise e, s2) => (Raise e, s2)
                   end) by apply connect_run_save_eq.
  assert (Hone : forall ch plan, assignments = [(ch, plan)] ->
            match run_channel E ch plan managers s0 with
            | (Ok _, s2) => r = (Ok tt, cleaned_up managers s2)
            | (Raise e, s2) => r = (Raise e, s2)
            end).
  { intros ch plan Ha. rewrite Hr. subst tasks. rewrite Ha. simpl.
    rewrite gather_one, alone_run_channel_task.
    now destruct (run_channel E ch plan managers s0) as [[[]|e] s2]. }
  clearbody r. subst r.
  pose proof (pres_gather (emits_only run_event) E tasks
                (copres_channel_tasks _ E managers assignments
                   (fun ch plan => emits_run_channel_task E ch plan managers))
                s0) as [t [Ht Ft]].
  pose proof (run_tasks_outcome E tasks s0) as Hout. fold pool in Hout.
  unfold gather in *. subst pool.
  destruct (run_tasks E tasks s0) as [[pool [e|]] s1]; simpl in *.
  - exists (map EvConnect channels ++ t).
    split; [rewrite Ht; now rewrite <- app_assoc|].
    split; [right; now exists e|].
    rewrite disconnects_app, saves_app.
    rewrite disconnects_connects, saves_connects,
      (disconnects_run_events _ Ft), (saves_run_events _ Ft).
    split.
    { intros Hall. rewrite Forall_forall in Hall.
      apply list_elem_of_In, Hall in Hout. discriminate. }
    split; [|exact Hone].
    intros _. split; [now exists e|now split].
  - exists (map EvConnect channels ++ t ++ map EvDisconnect managers
              ++ [EvSave (st_meas s1)]).
    split; [rewrite Ht; now rewrite <- !app_assoc|].
    split; [now left|].
    rewrite !disconnects_app, !saves_app.
    rewrite disconnects_connects, saves_connects,
      (disconnects_run_events _ Ft), (saves_run_events _ Ft),
      disconnects_disconnects, saves_disconnects.
    simpl. split.
    { intros _. split; [reflexivity|]. split; [apply app_nil_r|reflexivity]. }
    split; [|exact Hone].
    intros [e He]. rewrite Forall_forall in Hout.
    apply list_elem_of_In, Hout in He. discriminate.
Qed.

(** C1 as stated fails: two channels run the same plan of three CV runs and
    the instrument fails on the first measurement, that of channel 0.
    Channel 1 goes on and makes its three runs; [main] raises the device
    error; both channels were connected, none is disconnected and the
    session is not saved. *)
Lemma cleanup_skipped_on_device_error :
  let r := main_same_exp failing_env "s1" "exp" [0; 1]%Z [plan_cv3; plan_cv3]
             VNone init_state in
  fst r = Raise DeviceError /\
  connects (st_trace (snd r)) = [0; 1]%Z /\
  map rq_ch (runs_of (st_trace (snd r))) = [0; 1; 1; 1]%Z /\
  disconnects (st_trace (snd r)) = [] /\
  saves (st_trace (snd r)) = [].
Proof. vm_compute. repeat split. Qed.

(* ----------------------------------------------------------------- *)
(** ** The store: cells only ever added *)

Lemma heap_lookup_last (h : heap) o : (h ++ [o]) !! length h = Some o.
Proof. now apply list_lookup_middle. Qed.

Lemma heap_insert_last (h : heap) o o' : <[length h := o']> (h ++ [o]) = h ++ [o'].
Proof.
  replace (length h) with (length h + 0) by lia.
  now rewrite insert_app_r.
Qed.

Lemma deref_app h ext v o : deref h v = Some o -> deref (h ++ ext) v = Some o.
Proof. destruct v; simpl; try discriminate. apply lookup_app_l_Some. Qed.

Lemma deref_prefix h h' v o :
  h `prefix_of` h' -> deref h v = Some o -> deref h' v = Some o.
Proof. intros [ext ->]. apply deref_app. Qed.

(* ----------------------------------------------------------------- *)
(** ** Evaluating the operations *)

Lemma subscript_ok v k s d x :
  deref (st_heap s) v = Some (ODict d) -> dict_get k d = Some x ->
  subscript v k s = (Ok x, s).
Proof. intros Hv Hk. cbv [subscript bind get_heap]. now rewrite Hv, Hk. Qed.

Lemma subscript_missing v k s d :
  deref (st_heap s) v = Some (ODict d) -> dict_get k d = None ->
  subscript v k s = (Raise (KeyError k), s).
Proof. intros Hv Hk. cbv [subscript bind get_heap]. now rewrite Hv, Hk. Qed.

Lemma get_method_ok v k dflt s d :
  deref (st_heap s) v = Some (ODict d) ->
  get_method v k dflt s = (Ok (or_default dflt (dict_get k d)), s).
Proof. intros Hv. cbv [get_method bind get_heap]. now rewrite Hv. Qed.

Lemma dict_items_ok v s d :
  deref (st_heap s) v = Some (ODict d) -> dict_items v s = (Ok d, s).
Proof. intros Hv. cbv [dict_items bind get_heap]. now rewrite Hv. Qed.

Lemma py_iter_list v s xs :
  deref (st_heap s) v = Some (OList xs) -> py_iter v s = (Ok xs, s).
Proof.
  intros Hv. destruct v; try discriminate. simpl in Hv.
  cbv [py_iter bind get_heap]. now rewrite Hv.
Qed.

Lemma setitem_ok l k x s d :
  st_heap s !! l = Some (ODict d) ->
  setitem (VRef l) k x s =
  put_heap (<[l := ODict (dict_set k x d)]> (st_heap s)) s.
Proof. intros Hl. cbv [setitem bind get_heap]. now rewrite Hl. Qed.

Lemma py_pop_ok l k s d x :
  st_heap s !! l = Some (ODict d) -> dict_get k d = Some x ->
  py_pop (VRef l) k s =
  (Ok x, with_heap (<[l := ODict (dict_without k d)]> (st_heap s)) s).
Proof. intros Hl Hk. cbv [py_pop bind get_heap]. now rewrite Hl, Hk. Qed.

Lemma py_copy_dict v s d :
  deref (st_heap s) v = Some (ODict d) -> py_copy v s = alloc (ODict d) s.
Proof. intros Hv. cbv [py_copy bind get_heap]. now rewrite Hv. Qed.

Lemma py_dict_ok v s d :
  deref (st_heap s) v = Some (ODict d) -> py_dict v s = alloc (ODict d) s.
Proof. intros Hv. cbv [py_dict bind get_heap]. now rewrite Hv. Qed.

Lemma level_object_ok v s d :
  deref (st_heap s) v = Some (ODict d) -> level_object v s = alloc (OLevel d) s.
Proof. intros Hv. cbv [level_object bind get_heap]. now rewrite Hv. Qed.

(** Running the first operation of a sequence. *)
Ltac run_with H := rewrite (bind_ok _ _ _ _ _ H); simpl.
Ltac run_refl := erewrite bind_ok by reflexivity; simpl.

(* ----------------------------------------------------------------- *)
(** ** One successful run *)

(** The parameters [run_one] writes to the log, and the store after the
    call: for MSA the raw levels are put back under ["levels"] in a copy. *)
Definition logged_params (m : string) (params : val) (pd : dict) (h : heap)
    : val * heap :=
  match (if String.eqb m "MSA" then dict_get "_raw_levels" pd else None) with
  | Some raw =>
      (VRef (length h),
       h ++ [ODict (dict_set "levels" raw (dict_without "_raw_levels" pd))])
  | None => (params, h)
  end.

Lemma logged_params_prefix m params pd h :
  h `prefix_of` snd (logged_params m params pd h).
Proof.
  unfold logged_params.
  destruct (if String.eqb m "MSA" then _ else _); simpl.
  - now apply prefix_app_r.
  - reflexivity.
Qed.

Lemma device_ok_works E k : device_ok E k = true -> run_fate E k = works.
Proof.
  unfold device_ok. destruct (run_fate E k) as [[] [] [] [] []];
    simpl; intros H; try discriminate; reflexivity.
Qed.

Lemma run_one_start_ok E ch m params pd title conc s :
  method_known m = true ->
  deref (st_heap s) params = Some (ODict pd) ->
  device_ok E (st_calls s) = true ->
  run_one_start E ch (VStr m) params title conc s =
  (Ok (m, st_calls s),
   {| st_heap := st_heap s;
      st_trace := st_trace s ++
        [EvRun {| rq_ch := ch; rq_method := m; rq_params := params;
                  rq_title := title; rq_conc := conc; rq_heap := st_heap s |}];
      st_meas := st_meas s;
      st_calls := S (st_calls s) |}).
Proof.
  intros Hm Hp Hd. apply device_ok_works in Hd.
  unfold run_one_start. do 4 run_refl. rewrite Hd. run_refl.
  rewrite Hm. run_refl. rewrite Hp. run_refl. reflexivity.
Qed.

Lemma run_one_ok E ch m params pd title conc s :
  method_known m = true ->
  deref (st_heap s) params = Some (ODict pd) ->
  device_ok E (st_calls s) = true ->
  run_one E ch (VStr m) params title conc s =
  (Ok tt,
   let lp := logged_params m params pd (st_heap s) in
   {| st_heap := snd lp;
      st_trace := st_trace s ++
        [EvRun {| rq_ch := ch; rq_method := m; rq_params := params;
                  rq_title := title; rq_conc := conc; rq_heap := st_heap s |};
         EvLog {| lg_channel := ch; lg_method := m; lg_title := title;
                  lg_parameters := fst lp; lg_concentration := conc;
                  lg_heap := snd lp |}];
      st_meas := st_meas s ++ [(ch, st_calls s)];
      st_calls := S (st_calls s) |}).
Proof.
  intros Hm Hp Hd. unfold run_one.
  rewrite (bind_ok _ _ _ _ _
             (run_one_start_ok E ch m params pd title conc s Hm Hp Hd)).
  apply device_ok_works in Hd.
  unfold run_one_finish, logged_params. simpl fst. simpl snd.
  rewrite Hd. do 3 run_refl.
  destruct (String.eqb m "MSA") eqn:Hmsa.
  - destruct (dict_get "_raw_levels" pd) as [raw|] eqn:Hraw.
    + erewrite (bind_ok (bind (dict_items params) _)).
      2:{ erewrite bind_ok by (apply dict_items_ok; exact Hp).
          unfold dict_has. rewrite Hraw.
          erewrite bind_ok
            by (erewrite py_copy_dict by exact Hp; reflexivity).
          erewrite bind_ok
            by (erewrite py_pop_ok by (apply heap_lookup_last || exact Hraw);
                reflexivity).
          simpl. rewrite heap_insert_last.
          erewrite bind_ok
            by (erewrite setitem_ok by apply heap_lookup_last; reflexivity).
          simpl. rewrite heap_insert_last. reflexivity. }
      simpl. do 2 run_refl. cbv [emit]. simpl. rewrite <- app_assoc. reflexivity.
    + erewrite (bind_ok (bind (dict_items params) _)).
      2:{ erewrite bind_ok by (apply dict_items_ok; exact Hp).
          unfold dict_has. rewrite Hraw. reflexivity. }
      simpl. do 2 run_refl. cbv [emit]. simpl. rewrite <- app_assoc. reflexivity.
  - do 3 run_refl. cbv [emit]. simpl. rewrite <- app_assoc. reflexivity.
Qed.

Lemma runs_of_app t1 t2 : runs_of (t1 ++ t2) = runs_of t1 ++ runs_of t2.
Proof. apply omap_app. Qed.

(** ** The repeat loop (lines 159-162, 181-184, 190-193) *)

Section Repeats.
Variable E : env.
Hypothesis device_always_ok : forall k, device_ok E k = true.

Lemma repeat_runs ch m params pd conc (title : Z -> string) rng s :
  method_known m = true ->
  deref (st_heap s) params = Some (ODict pd) ->
  exists s' new,
    for_each rng (fun i => run_one E ch (VStr m) params (title i) conc) s
      = (Ok tt, s') /\
    st_heap s `prefix_of` st_heap s' /\
    st_trace s' = st_trace s ++ new /\
    map run_view (runs_of new)
      = map (fun i => (ch, m, title i, conc, Some (ODict pd))) rng /\
    Forall (fun rq => rq_params rq = params /\
                      st_heap s `prefix_of` rq_heap rq) (runs_of new).
Proof.
  intros Hm. revert s. induction rng as [|i rng IH]; intros s Hp; simpl.
  - exists s, []. rewrite app_nil_r. repeat split; auto.
  - rewrite (bind_ok _ _ _ _ _
               (run_one_ok E ch m params pd (title i) conc s Hm Hp
                  (device_always_ok _))).
    set (lp := logged_params m params pd (st_heap s)).
    match goal with |- context [for_each rng _ ?x] => set (s1 := x) end.
    assert (Hpre : st_heap s `prefix_of` st_heap s1)
      by apply logged_params_prefix.
    destruct (IH s1 (deref_prefix _ _ _ _ Hpre Hp))
      as (s' & new & Hrun & Hpre' & Htr & Hview & Hsame).
    exists s'. eexists. split; [exact Hrun|].
    split; [etransitivity; eassumption|].
    split; [rewrite Htr; simpl; rewrite <- app_assoc; reflexivity|].
    rewrite runs_of_app. simpl. unfold run_view at 1. simpl.
    rewrite Hp, Hview. split; [reflexivity|]. constructor; [now split|].
    eapply Forall_impl; [exact Hsame|]. intros rq [Hq Hh].
    split; [exact Hq|]. etransitivity; eassumption.
Qed.

End Repeats.

(* ----------------------------------------------------------------- *)
(** ** Dictionaries *)

Lemma dict_get_set_eq k v d : dict_get k (dict_set k v d) = Some v.
Proof.
  induction d as [|[k' v'] d IH]; simpl.
  - now rewrite String.eqb_refl.
  - destruct (String.eqb k k') eqn:Hk; simpl.
    + now rewrite String.eqb_refl.
    + now rewrite Hk.
Qed.

Lemma dict_get_set_ne k k' v d :
  k' <> k -> dict_get k' (dict_set k v d) = dict_get k' d.
Proof.
  intros Hne. induction d as [|[k1 v1] d IH]; simpl.
  - destruct (String.eqb_spec k' k); [contradiction|reflexivity].
  - destruct (String.eqb_spec k k1) as [->|Hk]; simpl.
    + destruct (String.eqb_spec k' k1); [contradiction|reflexivity].
    + destruct (String.eqb k' k1); auto.
Qed.

Lemma dict_get_without_eq k d : dict_get k (dict_without k d) = None.
Proof.
  unfold dict_without. induction d as [|[k1 v1] d IH]; simpl; [reflexivity|].
  destruct (String.eqb_spec k1 k) as [->|Hk]; simpl; [exact IH|].
  destruct (String.eqb_spec k k1); [congruence|exact IH].
Qed.

Lemma dict_get_without_ne k k' d :
  k' <> k -> dict_get k' (dict_without k d) = dict_get k' d.
Proof.
  intros Hne. unfold dict_without.
  induction d as [|[k1 v1] d IH]; simpl; [reflexivity|].
  destruct (String.eqb_spec k1 k) as [->|Hk]; simpl.
  - destruct (String.eqb_spec k' k); [contradiction|exact IH].
  - destruct (String.eqb k' k1); auto.
Qed.

(* ----------------------------------------------------------------- *)
(** ** Comprehensions that build one new object per element *)

Lemma with_heap_heap h s : st_heap (with_heap h s) = h.
Proof. reflexivity. Qed.

Lemma with_heap_same s : with_heap (st_heap s) s = s.
Proof. now destruct s. Qed.

Lemma with_heap_twice h h' s : with_heap h (with_heap h' s) = with_heap h s.
Proof. reflexivity. Qed.

Lemma map_m_alloc (f : val -> M val) (mk : dict -> obj) :
  (forall v s d, deref (st_heap s) v = Some (ODict d) -> f v s = alloc (mk d) s) ->
  forall lvls ds s,
    Forall2 (fun v d => deref (st_heap s) v = Some (ODict d)) lvls ds ->
    map_m f lvls s =
    (Ok (map VRef (seq (length (st_heap s)) (length ds))),
     with_heap (st_heap s ++ map mk ds) s).
Proof.
  intros Hf lvls. induction lvls as [|v lvls IH]; intros ds s H.
  - apply Forall2_nil_inv_l in H as ->. simpl.
    now rewrite app_nil_r, with_heap_same.
  - apply Forall2_cons_inv_l in H as (d & ds' & Hv & Hrest & ->). simpl.
    rewrite (bind_ok _ _ _ _ _ (Hf _ _ _ Hv)).
    erewrite bind_ok.
    2:{ apply IH with (ds := ds'). simpl.
        eapply Forall2_impl; [exact Hrest|].
        intros x y Hx. now apply deref_app. }
    unfold ret. simpl. rewrite length_app. simpl.
    replace (length (st_heap s) + 1) with (S (length (st_heap s))) by lia.
    now rewrite <- app_assoc.
Qed.

Lemma length_seq_refs a n : length (map VRef (seq a n)) = n.
Proof. now rewrite length_map, length_seq. Qed.

Lemma heap_lookup_at (h : heap) o rest : (h ++ o :: rest) !! length h = Some o.
Proof. now apply list_lookup_middle. Qed.

Lemma heap_insert_at (h : heap) o o' rest :
  <[length h := o']> (h ++ o :: rest) = h ++ o' :: rest.
Proof.
  replace (length h) with (length h + 0) by lia.
  now rewrite insert_app_r.
Qed.

(* ----------------------------------------------------------------- *)
(** ** The parameters of a single step (lines 147-157) *)

(** The dictionary built at lines 149-152 and 174-177: the parameters
    without ["levels"], then the raw levels, then the level objects. *)
Definition msa_params (pd : dict) (raw mats : val) : dict :=
  dict_set "levels" mats (dict_set "_raw_levels" raw (dict_without "levels" pd)).

Lemma single_params_plain step m d0 p s :
  String.eqb m "MSA" = false ->
  deref (st_heap s) step = Some (ODict d0) ->
  dict_get "params" d0 = Some p ->
  single_params step (VStr m) s = (Ok p, s).
Proof.
  intros Hm Hs Hp. unfold single_params. simpl. rewrite Hm.
  now apply subscript_ok with (d := d0).
Qed.

Lemma single_params_msa step d0 p pd lv lvls lds s :
  deref (st_heap s) step = Some (ODict d0) ->
  dict_get "params" d0 = Some p ->
  deref (st_heap s) p = Some (ODict pd) ->
  dict_get "levels" pd = Some lv ->
  deref (st_heap s) lv = Some (OList lvls) ->
  Forall2 (fun v d => deref (st_heap s) v = Some (ODict d)) lvls lds ->
  let l0 := length (st_heap s) in
  let mats := map VRef (seq (S l0) (length lds)) in
  single_params step (VStr "MSA") s =
  (Ok (VRef l0),
   with_heap (st_heap s
                ++ ODict (msa_params pd lv (VRef (S l0 + length lds)))
                :: map OLevel lds ++ [OList mats]) s).
Proof.
  intros Hs Hp Hpd Hlv Hl Hlds l0 mats. subst l0 mats.
  unfold single_params. simpl.
  erewrite (bind_ok (bind (subscript step "params") _)).
  2:{ erewrite bind_ok by (eapply subscript_ok; eassumption).
      eapply subscript_ok; eassumption. }
  erewrite (bind_ok (bind (subscript step "params") _)).
  2:{ erewrite bind_ok by (eapply subscript_ok; eassumption).
      eapply dict_items_ok; eassumption. }
  run_refl.
  erewrite bind_ok
    by (erewrite setitem_ok by apply heap_lookup_last; reflexivity).
  simpl. rewrite heap_insert_last.
  erewrite (bind_ok (bind (py_iter lv) _)).
  2:{ erewrite bind_ok by (apply py_iter_list; simpl; apply deref_app, Hl).
      apply (map_m_alloc level_object OLevel level_object_ok lvls lds).
      simpl. eapply Forall2_impl; [exact Hlds|].
      intros x y Hx. now apply deref_app. }
  simpl. run_refl.
  rewrite !length_app, length_map. simpl.
  replace (length (st_heap s) + 1) with (S (length (st_heap s))) by lia.
  rewrite <- !app_assoc. simpl.
  erewrite bind_ok
    by (erewrite setitem_ok by apply heap_lookup_at; reflexivity).
  simpl. rewrite heap_insert_at. reflexivity.
Qed.

(* ----------------------------------------------------------------- *)
(** ** Single steps *)

(** The parameters a single step needs to run: a dictionary and, for MSA,
    a ["levels"] list of dictionaries. *)
Definition single_ready (h : heap) (m : string) (p : val) : Prop :=
  exists pd, deref h p = Some (ODict pd) /\
    (String.eqb m "MSA" = true ->
     exists lv lvls lds,
       dict_get "levels" pd = Some lv /\
       deref h lv = Some (OList lvls) /\
       Forall2 (fun v d => deref h v = Some (ODict d)) lvls lds).

Definition single_title (m : string) (idx_step i : Z) : string :=
  str_lower m +:+ "_step" +:+ str_of_Z idx_step +:+ "_run" +:+ str_of_Z i.

Section Single.
Variable E : env.
Hypothesis device_always_ok : forall k, device_ok E k = true.

(** The single path of [expand_step], once the step's fields are read. *)
Lemma expand_single ch i step d m p r conc s :
  deref (st_heap s) step = Some (ODict d) ->
  method_known m = true ->
  dict_get "params" d = Some p ->
  single_ready (st_heap s) m p ->
  exists s' new params pc,
    expand_step E ch i step (VStr m) (VStr "single") (VInt r) conc s
      = (Ok tt, s') /\
    st_heap s `prefix_of` st_heap s' /\
    st_trace s' = st_trace s ++ new /\
    map run_view (runs_of new)
      = map (fun j => (ch, m, single_title m i j, conc, Some pc))
            (map Z.of_nat (seq 1 (Z.to_nat r))) /\
    Forall (fun rq => rq_params rq = params) (runs_of new) /\
    (String.eqb m "MSA" = false -> params = p /\ deref (st_heap s) p = Some pc).
Proof.
  intros Hs Hm Hp (pd & Hpd & Hmsa).
  unfold expand_step. simpl.
  assert (Hloop : forall params pc0 s1,
    deref (st_heap s1) params = Some (ODict pc0) ->
    exists s' new,
      single_runs E ch i (VStr m) params (VInt r) conc s1 = (Ok tt, s') /\
      st_heap s1 `prefix_of` st_heap s' /\
      st_trace s' = st_trace s1 ++ new /\
      map run_view (runs_of new)
        = map (fun j => (ch, m, single_title m i j, conc, Some (ODict pc0)))
              (map Z.of_nat (seq 1 (Z.to_nat r))) /\
      Forall (fun rq => rq_params rq = params) (runs_of new)).
  { intros params pc0 s1 Hpc. unfold single_runs. run_refl.
    erewrite for_each_ext by (intros; reflexivity).
    destruct (repeat_runs E device_always_ok ch m params pc0 conc
                (single_title m i) (map Z.of_nat (seq 1 (Z.to_nat r))) s1 Hm Hpc)
      as (s' & new & H1 & H2 & H3 & H4 & H5).
    exists s', new. repeat split; try assumption.
    eapply Forall_impl; [exact H5|]. now intros rq [? _]. }
  destruct (String.eqb m "MSA") eqn:Em.
  - apply String.eqb_eq in Em. subst m.
    destruct (Hmsa eq_refl) as (lv & lvls & lds & Hlv & Hl & Hlds).
    rewrite (bind_ok _ _ _ _ _
               (single_params_msa step d p pd lv lvls lds s
                  Hs Hp Hpd Hlv Hl Hlds)).
    match goal with |- context [single_runs _ _ _ _ _ _ _ ?x] => set (s1 := x) end.
    destruct (Hloop (VRef (length (st_heap s)))
                (msa_params pd lv (VRef (S (length (st_heap s)) + length lds))) s1)
      as (s' & new & Hrun & Hpre & Htr & Hv & Hsame).
    { subst s1. simpl. apply heap_lookup_at. }
    exists s', new, (VRef (length (st_heap s))). eexists.
    split; [exact Hrun|]. split.
    { etransitivity; [|exact Hpre]. subst s1. simpl. now apply prefix_app_r. }
    split; [exact Htr|]. split; [exact Hv|]. split; [exact Hsame|].
    discriminate.
  - rewrite (bind_ok _ _ _ _ _ (single_params_plain step m d p s Em Hs Hp)).
    destruct (Hloop p pd s Hpd) as (s' & new & Hrun & Hpre & Htr & Hv & Hsame).
    exists s', new, p, (ODict pd). auto 10.
Qed.

End Single.

(** Lines 141-144: what [run_step] reads from the step. *)
Lemma run_step_reads E ch i step d m s :
  deref (st_heap s) step = Some (ODict d) ->
  dict_get "method" d = Some m ->
  run_step E ch i step s =
  expand_step E ch i step m
    (or_default (VStr "single") (dict_get "type" d))
    (or_default (VInt 1) (dict_get "repeats" d))
    (or_default VNone (dict_get "concentration" d)) s.
Proof.
  intros Hs Hm. unfold run_step.
  rewrite (bind_ok _ _ _ _ _ (subscript_ok _ _ _ _ _ Hs Hm)).
  rewrite (bind_ok _ _ _ _ _ (get_method_ok _ "type" _ _ _ Hs)).
  rewrite (bind_ok _ _ _ _ _ (get_method_ok _ "repeats" _ _ _ Hs)).
  rewrite (bind_ok _ _ _ _ _ (get_method_ok _ "concentration" _ _ _ Hs)).
  reflexivity.
Qed.

(** C7: a single step with [repeats = r] makes exactly [r] runs, numbered
    1 to [r] in order, titled [{method}_step{stepIndex}_run{i}], all on the
    same parameter object, whose content is the same at every run (for a
    method other than MSA it is the step's own [params]). *)
Theorem single_step_runs E ch i step d m p r s :
  (forall k, device_ok E k = true) ->
  deref (st_heap s) step = Some (ODict d) ->
  dict_get "method" d = Some (VStr m) ->
  method_known m = true ->
  dict_get "type" d = Some (VStr "single") ->
  dict_get "repeats" d = Some (VInt r) ->
  dict_get "params" d = Some p ->
  single_ready (st_heap s) m p ->
  let res := run_step E ch i step s in
  let conc := or_default VNone (dict_get "concentration" d) in
  exists new params pc,
    fst res = Ok tt /\
    st_trace (snd res) = st_trace s ++ new /\
    length (runs_of new) = Z.to_nat r /\
    map run_view (runs_of new)
      = map (fun j => (ch, m, single_title m i j, conc, Some pc))
            (map Z.of_nat (seq 1 (Z.to_nat r))) /\
    Forall (fun rq => rq_params rq = params) (runs_of new) /\
    (String.eqb m "MSA" = false -> params = p /\ deref (st_heap s) p = Some pc).
Proof.
  intros Hdev Hs Hm Hk Ht Hr Hp Hready res conc. subst res.
  rewrite (run_step_reads E ch i step d (VStr m) s Hs Hm), Ht, Hr. simpl.
  destruct (expand_single E Hdev ch i step d m p r conc s Hs Hk Hp Hready)
    as (s' & new & params & pc & Hrun & _ & Htr & Hv & Hsame & Hplain).
  fold conc. rewrite Hrun. simpl. exists new, params, pc.
  repeat split; try assumption; try (now apply Hplain).
  rewrite <- (length_map run_view), Hv, !length_map. apply length_seq.
Qed.

Lemma single_step_runs_witness :
  exists new params pc,
    fst (run_step quiet_env 0 1 (VRef 1) state_cv3) = Ok tt /\
    st_trace (snd (run_step quiet_env 0 1 (VRef 1) state_cv3))
      = st_trace state_cv3 ++ new /\
    length (runs_of new) = Z.to_nat 3 /\
    map run_view (runs_of new)
      = map (fun j => (0%Z, "CV", single_title "CV" 1 j, VNone, Some pc))
            (map Z.of_nat (seq 1 (Z.to_nat 3))) /\
    Forall (fun rq => rq_params rq = params) (runs_of new) /\
    (String.eqb "CV" "MSA" = false ->
     params = VRef 0 /\ deref (st_heap state_cv3) (VRef 0) = Some pc).
Proof.
  apply (single_step_runs quiet_env 0 1 (VRef 1) (cv_step_dict 3) "CV" (VRef 0) 3
           state_cv3);
    try reflexivity.
  exists cv_param_dict. split; [reflexivity|discriminate].
Defined.

(** C10: a step without a ["type"] field runs exactly as the single path:
    its parameters are [single_params] of the step and its runs are
    [single_runs], with the repeats and concentration read from the step. *)
Theorem untyped_step_is_single E ch i step d m s :
  deref (st_heap s) step = Some (ODict d) ->
  dict_get "method" d = Some m ->
  dict_get "type" d = None ->
  run_step E ch i step s =
  bind (single_params step m)
    (fun params =>
       single_runs E ch i m params
         (or_default (VInt 1) (dict_get "repeats" d))
         (or_default VNone (dict_get "concentration" d))) s.
Proof.
  intros Hs Hm Ht.
  rewrite (run_step_reads E ch i step d m s Hs Hm), Ht. reflexivity.
Qed.

Lemma untyped_step_is_single_witness :
  run_step quiet_env 0 1 (VRef 1) state_untyped =
  bind (single_params (VRef 1) (VStr "CV"))
    (fun params => single_runs quiet_env 0 1 (VStr "CV") params (VInt 2) VNone)
    state_untyped /\
  fst (run_step quiet_env 0 1 (VRef 1) state_untyped) = Ok tt /\
  map rq_title (runs_of (st_trace (snd (run_step quiet_env 0 1 (VRef 1)
                                          state_untyped))))
    = ["cv_step1_run1"; "cv_step1_run2"].
Proof.
  split; [|split; reflexivity].
  apply (untyped_step_is_single quiet_env 0 1 (VRef 1) untyped_step_dict
           (VStr "CV") state_untyped); reflexivity.
Defined.

(* ----------------------------------------------------------------- *)
(** ** Steps that fail and steps of unknown type *)

Lemma run_steps_cons E ch i step rest s :
  run_steps E ch i (step :: rest) s =
  bind (run_step E ch i step) (fun _ => run_steps E ch (i + 1) rest) s.
Proof. reflexivity. Qed.

(** C8 (amended).  A step that has a ["method"] and whose type is neither
    ["single"] nor ["sweep"] only adds a warning to the trace, and the steps
    after it run next.  A step without a ["method"] raises [KeyError]
    before its type is looked at: no warning, and the steps after it are
    not run.  No exception raised while a step is expanded or run is
    caught: [run_steps] raises it in the state the step left, and the steps
    after it are never started. *)
Theorem unknown_type_skipped_errors_abort E ch i step rest s :
  (forall d m,
     deref (st_heap s) step = Some (ODict d) ->
     dict_get "method" d = Some m ->
     let typ := or_default (VStr "single") (dict_get "type" d) in
     py_eq_str typ "single" = false ->
     py_eq_str typ "sweep" = false ->
     let s1 := {| st_heap := st_heap s;
                  st_trace := st_trace s ++ [EvWarn ch (py_str E (st_heap s) typ)];
                  st_meas := st_meas s; st_calls := st_calls s |} in
     run_step E ch i step s = (Ok tt, s1) /\
     run_steps E ch i (step :: rest) s = run_steps E ch (i + 1) rest s1) /\
  (forall d,
     deref (st_heap s) step = Some (ODict d) ->
     dict_get "method" d = None ->
     run_step E ch i step s = (Raise (KeyError "method"), s) /\
     run_steps E ch i (step :: rest) s = (Raise (KeyError "method"), s)) /\
  (forall e s',
     run_step E ch i step s = (Raise e, s') ->
     run_steps E ch i (step :: rest) s = (Raise e, s')).
Proof.
  assert (Habort : forall e s',
            run_step E ch i step s = (Raise e, s') ->
            run_steps E ch i (step :: rest) s = (Raise e, s')).
  { intros e s' Hstep. rewrite run_steps_cons.
    now rewrite (bind_raise _ _ _ _ _ Hstep). }
  split; [|split; [|exact Habort]].
  - intros d m Hs Hm typ H1 H2 s1.
    assert (Hstep : run_step E ch i step s = (Ok tt, s1)).
    { rewrite (run_step_reads E ch i step d m s Hs Hm). fold typ.
      unfold expand_step. rewrite H1, H2. reflexivity. }
    split; [exact Hstep|].
    rewrite run_steps_cons. now rewrite (bind_ok _ _ _ _ _ Hstep).
  - intros d Hs Hm.
    assert (Hstep : run_step E ch i step s = (Raise (KeyError "method"), s)).
    { unfold run_step.
      now rewrite (bind_raise _ _ _ _ _ (subscript_missing _ _ _ _ Hs Hm)). }
    split; [exact Hstep|now apply Habort].
Qed.

(** C8 as stated fails: the first step sweeps level 6 of an MSA program
    with two levels.  The channel task raises [IndexError]; no warning is
    logged and the CV step that follows is never run. *)
Lemma bad_level_index_aborts_the_channel :
  let '(plan, s0) := loaded plan_bad_index in
  let r := run_channel quiet_env 0 plan [0%Z] s0 in
  fst r = Raise IndexError /\
  warnings (st_trace (snd r)) = [] /\
  runs_of (st_trace (snd r)) = [].
Proof. vm_compute. repeat split. Qed.

Lemma unknown_type_skipped_errors_abort_witness :
  let '(plan, s0) := loaded plan_unknown_type in
  let s1 := {| st_heap := st_heap s0;
               st_trace := st_trace s0 ++ [EvWarn 0 "loop"];
               st_meas := st_meas s0; st_calls := st_calls s0 |} in
  (run_step quiet_env 0 1 (VRef 1) s0 = (Ok tt, s1) /\
   run_steps quiet_env 0 1 [VRef 1; VRef 3] s0
     = run_steps quiet_env 0 (1 + 1) [VRef 3] s1) /\
  map rq_title (runs_of (st_trace (snd (run_channel quiet_env 0 plan [0%Z] s0))))
    = ["cv_step2_run1"].
Proof.
  simpl. split; [|reflexivity].
  apply (proj1 (unknown_type_skipped_errors_abort quiet_env 0 1 (VRef 1)
                  [VRef 3] (snd (loaded plan_unknown_type)))
           [("method", VStr "CV"); ("type", VStr "loop"); ("params", VRef 0);
            ("repeats", VInt 1); ("concentration", VNone)]
           (VStr "CV"));
    reflexivity.
Defined.

(* ----------------------------------------------------------------- *)
(** ** Loading a plan *)

(** What tagging the steps with a concentration leaves alone: every cell
    keeps its kind, and a dictionary keeps every entry but that one. *)
Definition tagged (s s' : state) : Prop :=
  st_trace s' = st_trace s /\
  forall l o, st_heap s !! l = Some o ->
    match o with
    | ODict d =>
        exists d', st_heap s' !! l = Some (ODict d') /\
          forall k, k <> "concentration" -> dict_get k d' = dict_get k d
    | _ => st_heap s' !! l = Some o
    end.

#[local] Instance tagged_preorder : PreOrder tagged.
Proof.
  split.
  - intros s. split; [reflexivity|]. intros l [d| | |] H; eauto.
  - intros s1 s2 s3 [T12 H12] [T23 H23]. split; [congruence|].
    intros l o H. specialize (H12 l o H).
    destruct o as [d| | |]; [|exact (H23 l _ H12)..].
    destruct H12 as (d2 & H2 & K2). destruct (H23 l _ H2) as (d3 & H3 & K3).
    exists d3. split; [exact H3|]. intros k Hk. rewrite K3, K2; auto.
Qed.

Lemma tagged_setitem v x : pres tagged (setitem v "concentration" x).
Proof.
  intros s. unfold setitem, bind, get_heap.
  destruct v as [| | | | |l]; try reflexivity.
  destruct (st_heap s !! l) as [[d| | |]|] eqn:Hl; try reflexivity.
  simpl. split; [reflexivity|]. intros l' o Ho. simpl.
  destruct (decide (l = l')) as [<-|Hne].
  - assert (o = ODict d) by congruence. subst o.
    exists (dict_set "concentration" x d). split.
    + apply list_lookup_insert_eq. now apply lookup_lt_Some in Hl.
    + intros k Hk. now apply dict_get_set_ne.
  - destruct o as [d'| | |]; [exists d'; split; [|reflexivity]|..];
      now rewrite list_lookup_insert_ne by exact Hne.
Qed.

Lemma tag_steps_ok conc steps s :
  Forall (fun v => exists d, deref (st_heap s) v = Some (ODict d)) steps ->
  fst (for_each steps (fun step => setitem step "concentration" conc) s)
    = Ok tt.
Proof.
  revert s. induction steps as [|v steps IH]; intros s H; [reflexivity|].
  apply Forall_cons in H as [[d Hv] Hrest]. simpl.
  destruct v as [| | | | |l]; try discriminate. simpl in Hv.
  rewrite (bind_ok _ _ _ _ _ (setitem_ok l "concentration" conc s d Hv)).
  apply IH. eapply Forall_impl; [exact Hrest|].
  intros [| | | | |l'] [d' Hd']; try discriminate. simpl in Hd' |- *.
  destruct (tagged_setitem (VRef l) conc s) as [_ Hkeep].
  rewrite (setitem_ok l "concentration" conc s d Hv) in Hkeep.
  destruct (Hkeep l' _ Hd') as (d2 & H2 & _). eauto.
Qed.

(** C4 (amended): loading looks only at the shape of the document.  When it
    is an object whose ["sequence"] is a list of objects, loading succeeds
    whatever each step holds under ["method"] and ["type"]: every entry of
    every step other than the concentration tag is kept as it was read. *)
Theorem load_plan_no_validation doc conc s plan h1 pd sq steps :
  json_load doc (st_heap s) = (plan, h1) ->
  deref h1 plan = Some (ODict pd) ->
  dict_get "sequence" pd = Some sq ->
  deref h1 sq = Some (OList steps) ->
  Forall (fun v => exists d, deref h1 v = Some (ODict d)) steps ->
  let res := load_plan doc conc s in
  fst res = Ok plan /\
  st_trace (snd res) = st_trace s /\
  forall l d, h1 !! l = Some (ODict d) ->
    exists d', st_heap (snd res) !! l = Some (ODict d') /\
      forall k, k <> "concentration" -> dict_get k d' = dict_get k d.
Proof.
  intros Hload Hplan Hsq Hl Hsteps res.
  set (s1 := with_heap h1 s).
  set (tag := for_each steps (fun step => setitem step "concentration" conc)).
  assert (Hres : res = match tag s1 with
                       | (Ok _, s2) => (Ok plan, s2)
                       | (Raise e, s2) => (Raise e, s2)
                       end).
  { subst res. unfold load_plan.
    erewrite (bind_ok (bind get_heap _)).
    2:{ run_refl. rewrite Hload. run_refl. reflexivity. }
    erewrite (bind_ok (bind (subscript plan "sequence") _)).
    2:{ erewrite bind_ok by (eapply subscript_ok; [exact Hplan|exact Hsq]).
        apply py_iter_list. exact Hl. }
    fold s1 tag. unfold bind. now destruct (tag s1) as [[[]|e] s2]. }
  clearbody res. subst res.
  pose proof (tag_steps_ok conc steps s1 Hsteps) as Hok.
  pose proof (pres_for_each tagged steps
                (fun step => setitem step "concentration" conc)
                (fun step => tagged_setitem step conc) s1) as [Htr Hkeep].
  fold tag in Hok, Htr, Hkeep.
  destruct (tag s1) as [[[]|e] s2]; simpl in *; try discriminate.
  split; [reflexivity|]. split; [exact Htr|].
  intros l d Hd. exact (Hkeep l _ Hd).
Qed.

Lemma load_plan_no_validation_witness :
  fst (load_plan plan_unvalidated VNone init_state) = Ok (VRef 2) /\
  st_trace (snd (load_plan plan_unvalidated VNone init_state)) = [] /\
  forall l d,
    [ODict [("method", VStr "XYZ"); ("type", VStr "loop"); ("repeats", VInt 1)];
     OList [VRef 0];
     ODict [("name", VStr "unvalidated"); ("sequence", VRef 1)]] !! l
      = Some (ODict d) ->
    exists d',
      st_heap (snd (load_plan plan_unvalidated VNone init_state)) !! l
        = Some (ODict d') /\
      forall k, k <> "concentration" -> dict_get k d' = dict_get k d.
Proof.
  apply (load_plan_no_validation plan_unvalidated VNone init_state (VRef 2)
           _ [("name", VStr "unvalidated"); ("sequence", VRef 1)] (VRef 1)
           [VRef 0]); try reflexivity.
  repeat constructor. eexists. reflexivity.
Defined.

(** C4 as stated fails: a plan whose step has method ["XYZ"] and type
    ["loop"] is loaded without any error; the step is stored as written,
    with the concentration tag added. *)
Lemma unknown_method_and_type_are_loaded :
  let r := load_plan plan_unvalidated VNone init_state in
  fst r = Ok (VRef 2) /\
  st_heap (snd r) !! 0 =
    Some (ODict [("method", VStr "XYZ"); ("type", VStr "loop");
                 ("repeats", VInt 1); ("concentration", VNone)]).
Proof. vm_compute. repeat split. Qed.

(* ----------------------------------------------------------------- *)
(** ** The sweep of one named parameter (lines 186-193) *)

(** A value that is not a list or a dictionary. *)
Definition scalar (v : val) : Prop :=
  match v with VRef _ => False | _ => True end.

Lemma py_str_scalar E h h' v : scalar v -> py_str E h v = py_str E h' v.
Proof. destruct v; simpl; intros H; [reflexivity..|contradiction]. Qed.

Definition sweep_title (E : env) (m sp : string) (v : val) (i : Z) : string :=
  str_lower m +:+ "_" +:+ sp +:+ py_str E [] v +:+ "_run" +:+ str_of_Z i.

(** A run on a parameter object created after the store had [n] cells. *)
Definition on_new_object (n : nat) (rq : request) : Prop :=
  exists l, rq_params rq = VRef l /\ n <= l.

Section ParamSweep.
Variable E : env.
Hypothesis device_always_ok : forall k, device_ok E k = true.

Lemma param_sweep_loop ch m sp base bd r conc vals :
  method_known m = true ->
  Forall scalar vals ->
  forall s,
    deref (st_heap s) base = Some (ODict bd) ->
    exists s' new,
      for_each vals
        (param_sweep_value E ch (VStr m) base (VInt r) conc (VStr sp)) s
        = (Ok tt, s') /\
      st_heap s `prefix_of` st_heap s' /\
      st_trace s' = st_trace s ++ new /\
      map run_view (runs_of new)
        = flat_map (fun v =>
            map (fun i => (ch, m, sweep_title E m sp v i, conc,
                           Some (ODict (dict_set sp v bd))))
                (map Z.of_nat (seq 1 (Z.to_nat r)))) vals /\
      Forall (on_new_object (length (st_heap s))) (runs_of new).
Proof.
  intros Hm Hsc. induction Hsc as [|v vals Hv _ IH]; intros s Hb.
  - exists s, []. simpl. rewrite app_nil_r. repeat split; auto.
  - cbn [for_each].
    set (s1 := with_heap (st_heap s ++ [ODict (dict_set sp v bd)]) s).
    set (rng := map Z.of_nat (seq 1 (Z.to_nat r))).
    match goal with
    | |- context [bind ?c (fun _ => for_each vals _) s] =>
        assert (Hbody : c s =
                  for_each rng (fun i =>
                    run_one E ch (VStr m) (VRef (length (st_heap s)))
                      (sweep_title E m sp v i) conc) s1)
    end.
    { unfold param_sweep_value.
      erewrite bind_ok by (erewrite py_dict_ok by exact Hb; reflexivity).
      simpl.
      erewrite bind_ok
        by (erewrite setitem_ok by apply heap_lookup_last; reflexivity).
      simpl. rewrite heap_insert_last. run_refl.
      apply for_each_ext. intros i s0. cbv [bind py_lower ret get_heap]. simpl.
      now rewrite (py_str_scalar E (st_heap s0) [] v Hv). }
    destruct (repeat_runs E device_always_ok ch m (VRef (length (st_heap s)))
                (dict_set sp v bd) conc (sweep_title E m sp v) rng s1 Hm)
      as (s2 & new1 & Hrun1 & Hpre1 & Htr1 & Hv1 & Hsame1).
    { subst s1. simpl. apply heap_lookup_last. }
    rewrite Hrun1 in Hbody.
    assert (Hpre : st_heap s `prefix_of` st_heap s2).
    { etransitivity; [|exact Hpre1]. subst s1. simpl. now apply prefix_app_r. }
    destruct (IH s2 (deref_prefix _ _ _ _ Hpre Hb))
      as (s' & new2 & Hrun2 & Hpre2 & Htr2 & Hv2 & Hnew2).
    exists s', (new1 ++ new2).
    split.
    { rewrite (bind_ok _ _ _ _ _ Hbody). exact Hrun2. }
    split; [etransitivity; eassumption|].
    split; [rewrite Htr2, Htr1; subst s1; simpl; now rewrite app_assoc|].
    rewrite runs_of_app, map_app, Hv1, Hv2. split; [reflexivity|].
    apply Forall_app. split.
    + eapply Forall_impl; [exact Hsame1|]. intros rq [Hrq _].
      exists (length (st_heap s)). split; [exact Hrq|lia].
    + eapply Forall_impl; [exact Hnew2|]. intros rq (l & Hl & Hle).
      exists l. split; [exact Hl|].
      apply prefix_length in Hpre. lia.
Qed.

End ParamSweep.

(** C5: a sweep step of a method other than MSA, with values [v1..vn] and
    [repeats = r], makes exactly [n * r] runs, in the order (v1,1) ... (v1,r),
    (v2,1) ... (vn,r).  The parameters of a run for value [v] are the entries
    of [base_params] with [sweep_param] set to [v], held by an object created
    for that value, and its title is [{method}_{sweep_param}{v}_run{i}]. *)
Theorem param_sweep_runs E ch i step d m sp base bd sv vals r s :
  (forall k, device_ok E k = true) ->
  deref (st_heap s) step = Some (ODict d) ->
  dict_get "method" d = Some (VStr m) ->
  method_known m = true ->
  String.eqb m "MSA" = false ->
  dict_get "type" d = Some (VStr "sweep") ->
  dict_get "repeats" d = Some (VInt r) ->
  dict_get "base_params" d = Some base ->
  deref (st_heap s) base = Some (ODict bd) ->
  dict_get "sweep_param" d = Some (VStr sp) ->
  dict_get "sweep_values" d = Some sv ->
  deref (st_heap s) sv = Some (OList vals) ->
  Forall scalar vals ->
  let res := run_step E ch i step s in
  let conc := or_default VNone (dict_get "concentration" d) in
  exists new,
    fst res = Ok tt /\
    st_trace (snd res) = st_trace s ++ new /\
    length (runs_of new) = length vals * Z.to_nat r /\
    map run_view (runs_of new)
      = flat_map (fun v =>
          map (fun j => (ch, m, sweep_title E m sp v j, conc,
                         Some (ODict (dict_set sp v bd))))
              (map Z.of_nat (seq 1 (Z.to_nat r)))) vals /\
    Forall (on_new_object (length (st_heap s))) (runs_of new).
Proof.
  intros Hdev Hs Hm Hk Hmsa Ht Hr Hbase Hbd Hsp Hsv Hvals Hsc res conc.
  subst res.
  rewrite (run_step_reads E ch i step d (VStr m) s Hs Hm), Ht, Hr. simpl.
  fold conc. unfold expand_step. simpl.
  rewrite (bind_ok _ _ _ _ _ (subscript_ok _ _ _ _ _ Hs Hbase)).
  simpl. rewrite Hmsa. run_refl. unfold param_sweep.
  rewrite (bind_ok _ _ _ _ _ (subscript_ok _ _ _ _ _ Hs Hsp)).
  erewrite (bind_ok (bind (subscript step "sweep_values") _)).
  2:{ rewrite (bind_ok _ _ _ _ _ (subscript_ok _ _ _ _ _ Hs Hsv)).
      apply py_iter_list, Hvals. }
  destruct (param_sweep_loop E Hdev ch m sp base bd r conc vals Hk Hsc s Hbd)
    as (s' & new & Hrun & _ & Htr & Hv & Hnew).
  match goal with
  | |- context [fst ?x] =>
      assert (Heq : x = (Ok tt, s')) by exact Hrun; rewrite Heq
  end.
  simpl. exists new.
  split; [reflexivity|]. split; [exact Htr|]. split; [|split; assumption].
  rewrite <- (length_map run_view), Hv.
  clear. induction vals as [|v vals IH]; [reflexivity|].
  simpl. rewrite length_app, IH, !length_map, length_seq. reflexivity.
Qed.

Lemma param_sweep_runs_witness :
  let s0 := snd (loaded plan_lsv_sweep) in
  exists new,
    fst (run_step quiet_env 0 1 (VRef 2) s0) = Ok tt /\
    st_trace (snd (run_step quiet_env 0 1 (VRef 2) s0)) = st_trace s0 ++ new /\
    length (runs_of new) = length [VFloat "0.05"; VFloat "0.1"] * Z.to_nat 1 /\
    map run_view (runs_of new)
      = flat_map (fun v =>
          map (fun j => (0%Z, "LSV", sweep_title quiet_env "LSV" "scanrate" v j,
                         VNone, Some (ODict (dict_set "scanrate" v lsv_base_dict))))
              (map Z.of_nat (seq 1 (Z.to_nat 1))))
          [VFloat "0.05"; VFloat "0.1"] /\
    Forall (on_new_object (length (st_heap s0))) (runs_of new).
Proof.
  apply (param_sweep_runs quiet_env 0 1 (VRef 2) lsv_step_dict "LSV" "scanrate"
           (VRef 0) lsv_base_dict (VRef 1) [VFloat "0.05"; VFloat "0.1"] 1
           (snd (loaded plan_lsv_sweep)));
    try reflexivity.
  repeat constructor.
Defined.

(* ----------------------------------------------------------------- *)
(** ** Lists of freshly created objects *)

Lemma lookup_seq_refs a n j :
  j < n -> map VRef (seq a n) !! j = Some (VRef (a + j)).
Proof.
  intros Hj. rewrite list_lookup_fmap.
  now rewrite (lookup_seq_lt a n j Hj).
Qed.

Lemma refs_deref (mk : dict -> obj) ds :
  forall h rest,
    Forall2 (fun v d => deref (h ++ map mk ds ++ rest) v = Some (mk d))
      (map VRef (seq (length h) (length ds))) ds.
Proof.
  induction ds as [|d ds IH]; intros h rest; simpl; constructor.
  - apply heap_lookup_at.
  - specialize (IH (h ++ [mk d]) rest).
    rewrite length_app in IH. simpl in IH.
    replace (length h + 1) with (S (length h)) in IH by lia.
    now rewrite <- app_assoc in IH.
Qed.

Lemma deep_list_refs (mk : dict -> obj) h ds rest v :
  deref (h ++ map mk ds ++ rest) v
    = Some (OList (map VRef (seq (length h) (length ds)))) ->
  deep_list (h ++ map mk ds ++ rest) v = Some (map mk ds).
Proof.
  intros Hv. unfold deep_list. rewrite Hv. apply mapM_Some.
  apply Forall2_fmap_r. apply refs_deref.
Qed.

Lemma deep_list_prefix h h' v os :
  h `prefix_of` h' -> deep_list h v = Some os -> deep_list h' v = Some os.
Proof.
  intros Hp. unfold deep_list.
  destruct (deref h v) as [[d|xs|kw|]|] eqn:Hv; try discriminate.
  rewrite (deref_prefix _ _ _ _ Hp Hv). rewrite !mapM_Some.
  intros H. eapply Forall2_impl; [exact H|].
  intros x y. now apply deref_prefix.
Qed.

Lemma map_alter_insert {A B} (g : A -> B) (f : A -> A) j (l : list A) x :
  l !! j = Some x -> <[j := g (f x)]> (map g l) = map g (alter f j l).
Proof.
  revert j. induction l as [|y l IH]; intros [|j] H; simpl in *;
    try discriminate.
  - now inversion H.
  - f_equal. now apply IH.
Qed.

Lemma norm_index_lt len k j : norm_index len k = Some j -> j < len.
Proof.
  unfold norm_index.
  set (n' := (if (k <? 0)%Z then (k + Z.of_nat len)%Z else k)).
  destruct ((0 <=? n')%Z && (n' <? Z.of_nat len)%Z) eqn:Hb; [|discriminate].
  apply andb_true_iff in Hb as [H1 H2].
  intros [= <-]. apply Z.leb_le in H1. apply Z.ltb_lt in H2. lia.
Qed.

Lemma list_getitem_ok v i n j x xs s :
  deref (st_heap s) v = Some (OList xs) ->
  as_int i = Some n ->
  norm_index (length xs) n = Some j ->
  xs !! j = Some x ->
  list_getitem v i s = (Ok x, s).
Proof.
  intros Hv Hi Hn Hx. cbv [list_getitem bind get_heap].
  now rewrite Hv, Hi, Hn, Hx.
Qed.

Lemma list_getitem_out_of_range v i n xs s :
  deref (st_heap s) v = Some (OList xs) ->
  as_int i = Some n ->
  norm_index (length xs) n = None ->
  list_getitem v i s = (Raise IndexError, s).
Proof.
  intros Hv Hi Hn. cbv [list_getitem bind get_heap].
  now rewrite Hv, Hi, Hn.
Qed.

(* ----------------------------------------------------------------- *)
(** ** The MSA level sweep (lines 167-184) *)

(** Lines 170-173, for one of the two flags: the targeted field of the
    chosen copy is overwritten, or nothing happens. *)
Lemma sweep_field_ok (flag : bool) field k j val h ldsX n s :
  st_heap s = h ++ map ODict ldsX ++ [OList (map VRef (seq (length h) n))] ->
  length ldsX = n ->
  (flag = true -> norm_index n k = Some j) ->
  (if flag then
     bind (list_getitem (VRef (length h + n)) (VInt k))
          (fun tgt => setitem tgt field val)
   else ret tt) s =
  (Ok tt,
   with_heap (h ++ map ODict (alter (if flag then dict_set field val else id)
                                j ldsX)
                ++ [OList (map VRef (seq (length h) n))]) s).
Proof.
  intros Hh Hn Hj. destruct flag.
  - specialize (Hj eq_refl). pose proof (norm_index_lt _ _ _ Hj) as Hlt.
    destruct (lookup_lt_is_Some_2 ldsX j) as [ld Hld]; [lia|].
    erewrite bind_ok.
    2:{ eapply list_getitem_ok with (xs := map VRef (seq (length h) n)).
        - rewrite Hh. simpl. rewrite app_assoc.
          replace (length h + n) with (length (h ++ map ODict ldsX))
            by (rewrite length_app, length_map; lia).
          apply heap_lookup_last.
        - reflexivity.
        - rewrite length_map, length_seq. exact Hj.
        - now apply lookup_seq_refs. }
    erewrite setitem_ok.
    2:{ rewrite Hh. rewrite lookup_app_r by lia.
        replace (length h + j - length h) with j by lia.
        rewrite lookup_app_l by (rewrite length_map; lia).
        rewrite list_lookup_fmap, Hld. reflexivity. }
    unfold put_heap. f_equal. f_equal. rewrite Hh.
    rewrite insert_app_r.
    rewrite insert_app_l by (rewrite length_map; lia).
    now rewrite (map_alter_insert ODict (dict_set field val) j ldsX ld Hld).
  - unfold ret. f_equal.
    rewrite list_alter_id by reflexivity. rewrite <- Hh.
    now rewrite with_heap_same.
Qed.

Lemma truthy_scalar h h' v : scalar v -> truthy h v = truthy h' v.
Proof. destruct v; simpl; intros H; [reflexivity..|contradiction]. Qed.

(** What lines 170-173 do to the chosen level for the swept value [v]. *)
Definition swept_level (sp sd : bool) (v : val) (ld : dict) : dict :=
  (if sd then dict_set "duration" v else id)
    ((if sp then dict_set "level" v else id) ld).

Definition msa_title (E : env) (k : Z) (v : val) (i : Z) : string :=
  "msa_lvl" +:+ str_of_Z (k + 1) +:+ "_" +:+ py_str E [] v
    +:+ "_run" +:+ str_of_Z i.

(** The cells an MSA level sweep reads: the step, its [base_params], the
    ["levels"] list and the level dictionaries. *)
Definition msa_ready (step base lv : val) (d bd : dict) (lvls : list val)
    (lds : list dict) (h : heap) : Prop :=
  deref h step = Some (ODict d) /\
  deref h base = Some (ODict bd) /\
  deref h lv = Some (OList lvls) /\
  Forall2 (fun v ld => deref h v = Some (ODict ld)) lvls lds.

Lemma msa_ready_prefix step base lv d bd lvls lds h h' :
  h `prefix_of` h' ->
  msa_ready step base lv d bd lvls lds h ->
  msa_ready step base lv d bd lvls lds h'.
Proof.
  intros Hp (H1 & H2 & H3 & H4).
  repeat split; try (eapply deref_prefix; eassumption).
  eapply Forall2_impl; [exact H4|]. intros x y. now apply deref_prefix.
Qed.

(** From the shallow view of the runs of one value to their MSA view. *)
Lemma msa_views rs : forall rng ch m (title : Z -> string) conc P raw ml X Y H1,
  map run_view rs = map (fun i => (ch, m, title i, conc, Some (ODict P))) rng ->
  Forall (fun rq => H1 `prefix_of` rq_heap rq) rs ->
  dict_get "_raw_levels" P = Some raw -> deep_list H1 raw = Some X ->
  dict_get "levels" P = Some ml -> deep_list H1 ml = Some Y ->
  map msa_view rs = map (fun i => (ch, m, title i, conc, Some X, Some Y)) rng /\
  Forall (fun rq => forall key, run_param rq key = dict_get key P) rs.
Proof.
  induction rs as [|rq rs IH]; intros [|i rng] ch m title conc P raw ml X Y H1
    Hview Hpre Hraw HX Hml HY; simpl in *; try discriminate.
  - split; constructor.
  - unfold run_view at 1 in Hview. injection Hview as Hch Hm Ht Hc Hd Hrest.
    apply Forall_cons in Hpre as [Hp Hpre].
    destruct (IH rng ch m title conc P raw ml X Y H1 Hrest Hpre Hraw HX Hml HY)
      as [IH1 IH2].
    assert (Hparam : forall key, run_param rq key = dict_get key P).
    { intros key. unfold run_param. now rewrite Hd. }
    split; [|constructor; assumption].
    f_equal; [|exact IH1].
    unfold msa_view, run_levels. rewrite !Hparam, Hraw, Hml.
    rewrite (deep_list_prefix _ _ _ _ Hp HX), (deep_list_prefix _ _ _ _ Hp HY).
    now rewrite Hch, Hm, Ht, Hc.
Qed.

Section MsaSweep.
Variable E : env.
Variables (ch : Z) (step base lv : val) (d bd : dict).
Variables (lvls : list val) (lds : list dict) (k r : Z) (conc : val).
Variables (sp sd : bool).
Hypothesis base_has_levels : dict_get "levels" bd = Some lv.
Hypothesis potential_flag :
  scalar (or_default VNone (dict_get "sweep_potential" d)) /\
  truthy [] (or_default VNone (dict_get "sweep_potential" d)) = sp.
Hypothesis duration_flag :
  scalar (or_default VNone (dict_get "sweep_duration" d)) /\
  truthy [] (or_default VNone (dict_get "sweep_duration" d)) = sd.

(** Lines 169-180: everything before the repeat loop, for one value. *)
Lemma msa_sweep_value_prefix val j s :
  msa_ready step base lv d bd lvls lds (st_heap s) ->
  scalar val ->
  (sp || sd = true -> norm_index (length lds) k = Some j) ->
  let h := st_heap s in
  let n := length lds in
  let lds' := alter (swept_level sp sd val) j lds in
  let A := h ++ map ODict lds' ++ [OList (map VRef (seq (length h) n))] in
  let P := msa_params bd (VRef (length h + n)) (VRef (S (length A) + n)) in
  msa_sweep_value E ch step (VStr "MSA") base (VInt r) conc (VInt k) val s =
  for_each (map Z.of_nat (seq 1 (Z.to_nat r)))
    (fun i => run_one E ch (VStr "MSA") (VRef (length A))
                (msa_title E k val i) conc)
    (with_heap (A ++ ODict P :: map OLevel lds'
                  ++ [OList (map VRef (seq (S (length A)) n))]) s).
Proof.
  intros (Hstep & Hbase & Hlv & Hlds) Hval Hj h n lds' A P.
  destruct potential_flag as [Hsp1 Hsp2]. destruct duration_flag as [Hsd1 Hsd2].
  set (copies := map VRef (seq (length h) n)) in *.
  unfold msa_sweep_value.
  (* the copies of the levels *)
  erewrite (bind_ok (bind (bind (subscript base "levels") _) _)).
  2:{ erewrite (bind_ok (bind (subscript base "levels") _)).
      2:{ erewrite bind_ok by (eapply subscript_ok; eassumption).
          apply py_iter_list, Hlv. }
      apply (map_m_alloc py_copy ODict py_copy_dict lvls lds), Hlds. }
  run_refl. fold h n copies.
  rewrite length_app, length_map. fold n.
  rewrite <- app_assoc, with_heap_twice.
  (* the two flags *)
  erewrite (bind_ok (bind (get_method step "sweep_potential" VNone) _)).
  2:{ erewrite bind_ok
        by (apply get_method_ok with (d := d); simpl; apply deref_app, Hstep).
      reflexivity. }
  rewrite (truthy_scalar _ [] _ Hsp1), Hsp2.
  rewrite (bind_ok _ _ _ _ _
             (sweep_field_ok sp "level" k j val h lds n
                (with_heap (h ++ map ODict lds ++ [OList copies]) s)
                eq_refl eq_refl
                (fun H => Hj (orb_true_intro _ _ (or_introl H))))).
  rewrite with_heap_twice.
  erewrite (bind_ok (bind (get_method step "sweep_duration" VNone) _)).
  2:{ erewrite bind_ok
        by (apply get_method_ok with (d := d); simpl; apply deref_app, Hstep).
      reflexivity. }
  rewrite (truthy_scalar _ [] _ Hsd1), Hsd2.
  rewrite (bind_ok _ _ _ _ _
             (sweep_field_ok sd "duration" k j val h
                (alter (if sp then dict_set "level" val else id) j lds) n
                (with_heap
                   (h ++ map ODict
                           (alter (if sp then dict_set "level" val else id) j lds)
                      ++ [OList copies]) s)
                eq_refl (length_alter _ _ _)
                (fun H => Hj (orb_true_intro _ _ (or_intror H))))).
  rewrite with_heap_twice, list_alter_alter_eq.
  change (alter _ j lds) with lds'.
  change (h ++ map ODict lds' ++ [OList (map VRef (seq (length h) n))]) with A.
  (* what the rest reads in the store *)
  assert (Hn : length lds' = n) by apply length_alter.
  assert (HA_base : forall rest, deref (A ++ rest) base = Some (ODict bd)).
  { intros rest. subst A. rewrite <- app_assoc. apply deref_app, Hbase. }
  assert (HA_raw : forall rest,
             deref (A ++ rest) (VRef (length h + n)) = Some (OList copies)).
  { intros rest. subst A. simpl. rewrite <- !app_assoc, app_assoc. simpl.
    replace (length h + n) with (length (h ++ map ODict lds'))
      by (rewrite length_app, length_map; lia).
    apply heap_lookup_at. }
  assert (HA_refs : forall rest,
             Forall2 (fun v ld => deref (A ++ rest) v = Some (ODict ld))
               copies lds').
  { intros rest. subst A copies. rewrite <- !app_assoc, <- Hn.
    apply refs_deref. }
  clearbody A.
  (* the parameters of the runs *)
  erewrite bind_ok
    by (apply dict_items_ok; simpl; rewrite <- (app_nil_r A); apply HA_base).
  run_refl.
  erewrite bind_ok
    by (erewrite setitem_ok by apply heap_lookup_last; reflexivity).
  simpl. rewrite heap_insert_last.
  erewrite (bind_ok (bind (py_iter _) _)).
  2:{ erewrite bind_ok by (apply py_iter_list; simpl; apply HA_raw).
      apply (map_m_alloc level_object OLevel level_object_ok copies lds').
      simpl. apply HA_refs. }
  simpl. run_refl.
  rewrite !length_app, length_map, Hn. simpl.
  replace (length A + 1) with (S (length A)) by lia.
  rewrite <- !app_assoc. simpl.
  erewrite bind_ok
    by (erewrite setitem_ok by apply heap_lookup_at; reflexivity).
  simpl. rewrite heap_insert_at.
  run_refl.
  apply for_each_ext. intros i s0. cbv [bind ret get_heap]. simpl.
  rewrite (py_str_scalar E (st_heap s0) [] val Hval). reflexivity.
Qed.

Hypothesis device_always_ok : forall k, device_ok E k = true.

Lemma msa_sweep_loop vals j :
  Forall scalar vals ->
  (sp || sd = true -> norm_index (length lds) k = Some j) ->
  forall s,
    msa_ready step base lv d bd lvls lds (st_heap s) ->
    exists s' new,
      for_each vals
        (msa_sweep_value E ch step (VStr "MSA") base (VInt r) conc (VInt k)) s
        = (Ok tt, s') /\
      st_heap s `prefix_of` st_heap s' /\
      st_trace s' = st_trace s ++ new /\
      map msa_view (runs_of new)
        = flat_map (fun v =>
            map (fun i =>
                   (ch, "MSA", msa_title E k v i, conc,
                    Some (map ODict (alter (swept_level sp sd v) j lds)),
                    Some (map OLevel (alter (swept_level sp sd v) j lds))))
                (map Z.of_nat (seq 1 (Z.to_nat r)))) vals /\
      Forall (fun rq =>
                on_new_object (length (st_heap s)) rq /\
                forall key, key <> "levels" -> key <> "_raw_levels" ->
                  run_param rq key = dict_get key bd) (runs_of new).
Proof.
  intros Hsc Hj. induction Hsc as [|v vals Hv _ IH]; intros s Hready.
  - exists s, []. simpl. rewrite app_nil_r. repeat split; auto.
  - cbn [for_each].
    pose proof (msa_sweep_value_prefix v j s Hready Hv Hj) as Hbody.
    cbv zeta in Hbody.
    set (h := st_heap s) in *. set (n := length lds) in *.
    set (lds' := alter (swept_level sp sd v) j lds) in *.
    set (A := h ++ map ODict lds' ++ [OList (map VRef (seq (length h) n))]) in *.
    set (raw := VRef (length h + n)) in *.
    set (ml := VRef (S (length A) + n)) in *.
    set (P := msa_params bd raw ml) in *.
    set (mats := map VRef (seq (S (length A)) n)) in *.
    set (H1 := A ++ ODict P :: map OLevel lds' ++ [OList mats]) in *.
    assert (Hn : length lds' = n) by apply length_alter.
    destruct (repeat_runs E device_always_ok ch "MSA" (VRef (length A)) P conc
                (msa_title E k v) (map Z.of_nat (seq 1 (Z.to_nat r)))
                (with_heap H1 s) eq_refl)
      as (s2 & new1 & Hrun1 & Hpre1 & Htr1 & Hv1 & Hsame1).
    { simpl. apply heap_lookup_at. }
    rewrite Hrun1 in Hbody. simpl in Hpre1, Htr1.
    assert (HhA : h `prefix_of` H1).
    { subst H1 A. rewrite <- app_assoc. now apply prefix_app_r. }
    assert (Hpre : h `prefix_of` st_heap s2) by (etransitivity; eassumption).
    (* what the runs of this value see *)
    assert (HX : deep_list H1 raw = Some (map ODict lds')).
    { subst H1 A. rewrite <- !app_assoc.
      apply deep_list_refs. rewrite Hn. subst raw. simpl.
      rewrite app_assoc.
      replace (length h + n) with (length (h ++ map ODict lds'))
        by (rewrite length_app, length_map; lia).
      apply heap_lookup_at. }
    assert (HY : deep_list H1 ml = Some (map OLevel lds')).
    { subst H1. change (A ++ ODict P :: map OLevel lds' ++ [OList mats])
        with (A ++ [ODict P] ++ map OLevel lds' ++ [OList mats]).
      rewrite (app_assoc A). apply deep_list_refs.
      rewrite Hn, length_app. simpl.
      replace (length A + 1) with (S (length A)) by lia. fold mats.
      subst ml. simpl. rewrite app_assoc.
      replace (S (length A + n))
        with (length ((A ++ [ODict P]) ++ map OLevel lds'))
        by (rewrite !length_app, length_map; simpl; lia).
      apply heap_lookup_last. }
    destruct (msa_views (runs_of new1) _ ch "MSA" (msa_title E k v) conc P raw ml
                (map ODict lds') (map OLevel lds') H1 Hv1) as [Hmv Hpar];
      try assumption.
    { eapply Forall_impl; [exact Hsame1|]. now intros rq [_ ?]. }
    { subst P. unfold msa_params.
      rewrite dict_get_set_ne by discriminate. apply dict_get_set_eq. }
    { subst P. apply dict_get_set_eq. }
    destruct (IH s2 (msa_ready_prefix _ _ _ _ _ _ _ _ _ Hpre Hready))
      as (s' & new2 & Hrun2 & Hpre2 & Htr2 & Hv2 & Hnew2).
    exists s', (new1 ++ new2).
    split; [rewrite (bind_ok _ _ _ _ _ Hbody); exact Hrun2|].
    split; [etransitivity; eassumption|].
    split; [rewrite Htr2, Htr1; now rewrite app_assoc|].
    rewrite runs_of_app, map_app, Hmv, Hv2. split; [reflexivity|].
    apply Forall_app. split.
    + apply Forall_forall. intros rq Hin.
      rewrite Forall_forall in Hsame1, Hpar.
      destruct (Hsame1 rq Hin) as [Hq _]. split.
      * exists (length A). split; [exact Hq|].
        subst A. rewrite length_app. fold h. lia.
      * intros key K1 K2. rewrite (Hpar rq Hin). subst P. unfold msa_params.
        rewrite !dict_get_set_ne by assumption.
        now apply dict_get_without_ne.
    + eapply Forall_impl; [exact Hnew2|]. intros rq [(l & Hl & Hle) Hkeys].
      split; [|exact Hkeys]. exists l. split; [exact Hl|].
      apply prefix_length in Hpre. fold h. lia.
Qed.

End MsaSweep.



(* ----------------------------------------------------------------- *)
(** ** Repeat counts below one *)

Definition not_run (e : event) : Prop :=
  match e with EvRun _ => False | _ => True end.

Lemma runs_of_not_run t : Forall not_run t -> runs_of t = [].
Proof.
  induction 1 as [|e t He _ IH]; [reflexivity|].
  destruct e; simpl in *; try contradiction; exact IH.
Qed.

Lemma pres_range_empty (R : relation state) `{!PreOrder R} {B} r
    (k : list Z -> M B) :
  (r < 1)%Z -> pres R (k []) -> pres R (bind (py_range1 (VInt r)) k).
Proof.
  intros Hr Hk s. unfold bind, py_range1. simpl.
  replace (Z.to_nat r) with 0 by lia. apply Hk.
Qed.

Lemma expand_step_no_runs E ch i step m typ r conc :
  (r < 1)%Z ->
  pres (emits_only not_run) (expand_step E ch i step m typ (VInt r) conc).
Proof.
  intros Hr.
  unfold expand_step, single_params, single_runs, msa_level_sweep,
    msa_sweep_value, param_sweep, param_sweep_value.
  repeat (first [ apply (pres_range_empty (emits_only not_run)); [exact Hr|simpl]
                | pres_step
                | solve [auto with emits]
                | apply emits_emit; exact I ]).
Qed.

(** A step whose fields are those the expansion path of its type reads
    (lines 146-193), whatever its repeat count: a single step with its
    ["params"] (for MSA a dictionary with a ["levels"] list of
    dictionaries); a sweep of one parameter with a [base_params]
    dictionary, a [sweep_param] name and a list of values; an MSA level
    sweep with levels, flags and a [level_index] as the runs of such a step
    need them. *)
Inductive expandable (h : heap) (d : dict) (m : val) : Prop :=
| expandable_single p :
    or_default (VStr "single") (dict_get "type" d) = VStr "single" ->
    py_eq_str m "MSA" = false ->
    dict_get "params" d = Some p ->
    expandable h d m
| expandable_single_msa p :
    or_default (VStr "single") (dict_get "type" d) = VStr "single" ->
    m = VStr "MSA" ->
    dict_get "params" d = Some p ->
    single_ready h "MSA" p ->
    expandable h d m
| expandable_param_sweep base bd sp sv vals :
    dict_get "type" d = Some (VStr "sweep") ->
    py_eq_str m "MSA" = false
      \/ truthy h (or_default VNone (dict_get "modify_levels" d)) = false ->
    dict_get "base_params" d = Some base ->
    deref h base = Some (ODict bd) ->
    dict_get "sweep_param" d = Some (VStr sp) ->
    dict_get "sweep_values" d = Some sv ->
    deref h sv = Some (OList vals) ->
    expandable h d m
| expandable_msa_sweep base bd lv lvls lds sv vals k j sp sd :
    dict_get "type" d = Some (VStr "sweep") ->
    m = VStr "MSA" ->
    truthy h (or_default VNone (dict_get "modify_levels" d)) = true ->
    dict_get "base_params" d = Some base ->
    deref h base = Some (ODict bd) ->
    dict_get "level_index" d = Some (VInt k) ->
    dict_get "sweep_values" d = Some sv ->
    deref h sv = Some (OList vals) ->
    Forall scalar vals ->
    scalar (or_default VNone (dict_get "sweep_potential" d)) /\
      truthy [] (or_default VNone (dict_get "sweep_potential" d)) = sp ->
    scalar (or_default VNone (dict_get "sweep_duration" d)) /\
      truthy [] (or_default VNone (dict_get "sweep_duration" d)) = sd ->
    dict_get "levels" bd = Some lv ->
    deref h lv = Some (OList lvls) ->
    Forall2 (fun v ld => deref h v = Some (ODict ld)) lvls lds ->
    (sp || sd = true -> norm_index (length lds) k = Some j) ->
    expandable h d m.

(** The sweep of one parameter when the repeat range is empty: a copy of
    [base_params] is made and written to for each value, and no more. *)
Lemma param_sweep_no_repeats E ch m base bd r conc sp vals :
  (r < 1)%Z ->
  forall s,
    deref (st_heap s) base = Some (ODict bd) ->
    exists s',
      for_each vals (param_sweep_value E ch m base (VInt r) conc (VStr sp)) s
        = (Ok tt, s') /\
      st_heap s `prefix_of` st_heap s' /\
      st_trace s' = st_trace s.
Proof.
  intros Hr. induction vals as [|v vals IH]; intros s Hb.
  - now exists s.
  - cbn [for_each].
    set (s1 := with_heap (st_heap s ++ [ODict (dict_set sp v bd)]) s).
    assert (Hbody : param_sweep_value E ch m base (VInt r) conc (VStr sp) v s
                    = (Ok tt, s1)).
    { unfold param_sweep_value.
      erewrite bind_ok by (erewrite py_dict_ok by exact Hb; reflexivity).
      simpl.
      erewrite bind_ok
        by (erewrite setitem_ok by apply heap_lookup_last; reflexivity).
      simpl. rewrite heap_insert_last. unfold py_range1. simpl.
      replace (Z.to_nat r) with 0 by lia. reflexivity. }
    assert (Hpre : st_heap s `prefix_of` st_heap s1)
      by (subst s1; simpl; now apply prefix_app_r).
    destruct (IH s1 (deref_prefix _ _ _ _ Hpre Hb)) as (s' & Hrun & Hpre' & Htr).
    exists s'. rewrite (bind_ok _ _ _ _ _ Hbody).
    split; [exact Hrun|]. split; [etransitivity; eassumption|exact Htr].
Qed.

(** The MSA level sweep when the repeat range is empty: the levels are
    copied and the level objects built for each value, and no more. *)
Lemma msa_sweep_no_repeats E ch step base lv d bd lvls lds k r conc sp sd vals j :
  dict_get "levels" bd = Some lv ->
  scalar (or_default VNone (dict_get "sweep_potential" d)) /\
    truthy [] (or_default VNone (dict_get "sweep_potential" d)) = sp ->
  scalar (or_default VNone (dict_get "sweep_duration" d)) /\
    truthy [] (or_default VNone (dict_get "sweep_duration" d)) = sd ->
  (r < 1)%Z ->
  Forall scalar vals ->
  (sp || sd = true -> norm_index (length lds) k = Some j) ->
  forall s,
    msa_ready step base lv d bd lvls lds (st_heap s) ->
    exists s',
      for_each vals
        (msa_sweep_value E ch step (VStr "MSA") base (VInt r) conc (VInt k)) s
        = (Ok tt, s') /\
      st_heap s `prefix_of` st_heap s' /\
      st_trace s' = st_trace s.
Proof.
  intros Hlv Hsp Hsd Hr Hsc Hj.
  induction Hsc as [|v vals Hv _ IH]; intros s Hready.
  - now exists s.
  - cbn [for_each].
    pose proof (msa_sweep_value_prefix E ch step base lv d bd lvls lds k r conc
                  sp sd Hlv Hsp Hsd v j s Hready Hv Hj) as Hbody.
    cbv zeta in Hbody.
    replace (Z.to_nat r) with 0 in Hbody by lia. simpl in Hbody.
    match type of Hbody with
    | _ = ret tt ?x => set (s1 := x) in *
    end.
    assert (Hpre : st_heap s `prefix_of` st_heap s1).
    { subst s1. simpl. rewrite <- app_assoc. now apply prefix_app_r. }
    destruct (IH s1 (msa_ready_prefix _ _ _ _ _ _ _ _ _ Hpre Hready))
      as (s' & Hrun & Hpre' & Htr).
    exists s'. rewrite (bind_ok _ _ _ _ _ Hbody).
    split; [exact Hrun|]. split; [etransitivity; eassumption|exact Htr].
Qed.

(** C3 (amended): the repeat count is never checked.  A step whose
    [repeats] is an integer below 1 makes no run at all, whatever its type
    and its other fields.  When the fields its expansion path reads are
    there, the step returns normally and writes nothing to the trace; a
    single step of a method other than MSA that has a ["params"] field
    leaves the whole state as it was. *)
Theorem repeats_below_one_no_runs E ch i step d m r s :
  deref (st_heap s) step = Some (ODict d) ->
  dict_get "method" d = Some m ->
  dict_get "repeats" d = Some (VInt r) ->
  (r < 1)%Z ->
  let res := run_step E ch i step s in
  (exists new, st_trace (snd res) = st_trace s ++ new /\ runs_of new = []) /\
  (expandable (st_heap s) d m ->
   fst res = Ok tt /\ st_trace (snd res) = st_trace s) /\
  (dict_get "type" d = Some (VStr "single") ->
   py_eq_str m "MSA" = false ->
   (exists p, dict_get "params" d = Some p) ->
   res = (Ok tt, s)).
Proof.
  intros Hs Hm Hr Hlt res. subst res.
  rewrite (run_step_reads E ch i step d m s Hs Hm), Hr. simpl.
  assert (Hplain : forall p,
            or_default (VStr "single") (dict_get "type" d) = VStr "single" ->
            py_eq_str m "MSA" = false ->
            dict_get "params" d = Some p ->
            expand_step E ch i step m
              (or_default (VStr "single") (dict_get "type" d)) (VInt r)
              (or_default VNone (dict_get "concentration" d)) s = (Ok tt, s)).
  { intros p Ht Hmsa Hp. rewrite Ht. unfold expand_step. simpl.
    unfold single_params. rewrite Hmsa.
    rewrite (bind_ok _ _ _ _ _ (subscript_ok _ _ _ _ _ Hs Hp)).
    unfold single_runs, py_range1. simpl.
    replace (Z.to_nat r) with 0 by lia. reflexivity. }
  split; [|split].
  - destruct (expand_step_no_runs E ch i step m
                (or_default (VStr "single") (dict_get "type" d)) r
                (or_default VNone (dict_get "concentration" d)) Hlt s)
      as (new & Htr & Hnew).
    exists new. split; [exact Htr|]. now apply runs_of_not_run.
  - intros [p Ht Hmsa Hp
           |p Ht -> Hp (pd & Hpd & Hlevels)
           |base bd sp sv vals Ht Hml Hbase Hbd Hsp Hsv Hvals
           |base bd lv lvls lds sv vals k j sp sd Ht -> Hmod Hbase Hbd Hk Hsv
              Hvals Hsc Hfp Hfd Hlv Hlvls Hlds Hj].
    + now rewrite (Hplain p Ht Hmsa Hp).
    + destruct (Hlevels eq_refl) as (lv & lvls & lds & Hlv & Hl & Hlds).
      rewrite Ht. unfold expand_step. simpl.
      rewrite (bind_ok _ _ _ _ _
                 (single_params_msa step d p pd lv lvls lds s
                    Hs Hp Hpd Hlv Hl Hlds)).
      unfold single_runs, py_range1. simpl.
      replace (Z.to_nat r) with 0 by lia. now split.
    + rewrite Ht. unfold expand_step. simpl.
      rewrite (bind_ok _ _ _ _ _ (subscript_ok _ _ _ _ _ Hs Hbase)).
      erewrite (bind_ok _ _ _ false).
      2:{ destruct (py_eq_str m "MSA"); [|reflexivity].
          destruct Hml as [Hml|Hml]; [discriminate|].
          erewrite bind_ok by (apply get_method_ok; exact Hs).
          unfold py_truthy, bind, get_heap, ret. now rewrite Hml. }
      unfold param_sweep.
      rewrite (bind_ok _ _ _ _ _ (subscript_ok _ _ _ _ _ Hs Hsp)).
      erewrite (bind_ok (bind (subscript step "sweep_values") _)).
      2:{ rewrite (bind_ok _ _ _ _ _ (subscript_ok _ _ _ _ _ Hs Hsv)).
          apply py_iter_list, Hvals. }
      destruct (param_sweep_no_repeats E ch m base bd r
                  (or_default VNone (dict_get "concentration" d)) sp vals
                  Hlt s Hbd) as (s' & Hrun & _ & Htr).
      rewrite Hrun. now split.
    + rewrite Ht. unfold expand_step. simpl.
      rewrite (bind_ok _ _ _ _ _ (subscript_ok _ _ _ _ _ Hs Hbase)).
      erewrite (bind_ok (bind (get_method step "modify_levels" VNone) _)).
      2:{ erewrite bind_ok by (apply get_method_ok; exact Hs). reflexivity. }
      rewrite Hmod. unfold msa_level_sweep.
      rewrite (bind_ok _ _ _ _ _ (subscript_ok _ _ _ _ _ Hs Hk)).
      erewrite (bind_ok (bind (subscript step "sweep_values") _)).
      2:{ rewrite (bind_ok _ _ _ _ _ (subscript_ok _ _ _ _ _ Hs Hsv)).
          apply py_iter_list, Hvals. }
      destruct (msa_sweep_no_repeats E ch step base lv d bd lvls lds k r
                  (or_default VNone (dict_get "concentration" d)) sp sd vals j
                  Hlv Hfp Hfd Hlt Hsc Hj s) as (s' & Hrun & _ & Htr).
      { repeat split; assumption. }
      rewrite Hrun. now split.
  - intros Ht Hmsa [p Hp]. apply (Hplain p); [now rewrite Ht|exact Hmsa|exact Hp].
Qed.

(** An MSA level sweep that asks for zero repeats. *)
Definition plan_msa_sweep0 : json :=
  JObj [("name", JStr "msa_sweep0");
        ("sequence",
         JArr [msa_sweep_step 1 true false [JFloat "0.5"; JFloat "0.6"] 0])].

Lemma repeats_below_one_no_runs_witness :
  let s0 := snd (loaded plan_msa_sweep0) in
  let d := msa_step_dict 1 true false 0 in
  let res := run_step quiet_env 0 1 (VRef 5) s0 in
  (exists new, st_trace (snd res) = st_trace s0 ++ new /\ runs_of new = []) /\
  fst res = Ok tt /\ st_trace (snd res) = st_trace s0.
Proof.
  intros s0 d res.
  pose proof (repeats_below_one_no_runs quiet_env 0 1 (VRef 5) d (VStr "MSA") 0
                s0 eq_refl eq_refl eq_refl eq_refl) as (H1 & H2 & _).
  split; [exact H1|]. apply H2.
  apply (expandable_msa_sweep _ _ _ (VRef 3) msa_base_dict (VRef 2)
           [VRef 0; VRef 1] msa_level_dicts (VRef 4)
           [VFloat "0.5"; VFloat "0.6"] 1 1%nat true false);
    try reflexivity.
  - repeat constructor.
  - now split.
  - now split.
  - repeat constructor.
Defined.

(** C3 as stated fails: the plan's only step has [repeats = 0]; the channel
    task returns normally, with no run and no error. *)
Lemma zero_repeats_is_not_an_error :
  let '(plan, s0) := loaded plan_cv0 in
  let r := run_channel quiet_env 0 plan [0%Z] s0 in
  fst r = Ok tt /\ runs_of (st_trace (snd r)) = [] /\
  st_trace (snd r) = st_trace s0.
Proof. vm_compute. repeat split. Qed.

(* ================================================================= *)
(** * What expansion leaves untouched *)

(** [undisturbed n s s']: the first [n] cells of the store are the same in
    [s'] as in [s], and no list cell of [s] has changed. *)
Definition undisturbed (n : nat) (s s' : state) : Prop :=
  n <= length (st_heap s') /\
  (forall l, l < n -> st_heap s' !! l = st_heap s !! l) /\
  (forall l xs, st_heap s !! l = Some (OList xs) ->
                st_heap s' !! l = Some (OList xs)).

Definition frame (n : nat) : relation state :=
  fun s s' => n <= length (st_heap s) -> undisturbed n s s'.

#[local] Instance frame_preorder n : PreOrder (frame n).
Proof.
  split.
  - intros s Hn. repeat split; auto.
  - intros s1 s2 s3 H12 H23 Hn.
    destruct (H12 Hn) as (L2 & K2 & O2). destruct (H23 L2) as (L3 & K3 & O3).
    repeat split; auto. intros l Hl. rewrite K3, K2; auto.
Qed.

Lemma frame_same_heap n s s' : st_heap s' = st_heap s -> frame n s s'.
Proof. intros H Hn. unfold undisturbed. rewrite H. repeat split; auto. Qed.

Lemma frame_append n s o : frame n s (with_heap (st_heap s ++ [o]) s).
Proof.
  intros Hn. unfold undisturbed. simpl. repeat split.
  - rewrite length_app. lia.
  - intros l Hl. apply lookup_app_l. lia.
  - intros l xs Hl. now apply lookup_app_l_Some.
Qed.

(** A write into a cell at or above [n] that is not a list. *)
Lemma frame_write n s l o o' :
  n <= l -> st_heap s !! l = Some o -> (forall xs, o <> OList xs) ->
  frame n s (with_heap (<[l := o']> (st_heap s)) s).
Proof.
  intros Hl Hd Ho Hn. unfold undisturbed. simpl. repeat split.
  - now rewrite length_insert.
  - intros l' Hl'. apply list_lookup_insert_ne. lia.
  - intros l' xs Hxs. rewrite list_lookup_insert_ne; [exact Hxs|].
    intros ->. rewrite Hd in Hxs. injection Hxs as ->. now apply (Ho xs).
Qed.

Lemma frame_alloc n o : pres (frame n) (alloc o).
Proof. intros s. apply frame_append. Qed.

Lemma frame_emit n e : pres (frame n) (emit e).
Proof. intros s. now apply frame_same_heap. Qed.

Lemma frame_next_call n : pres (frame n) next_call.
Proof. intros s. now apply frame_same_heap. Qed.

Lemma frame_append_meas n m : pres (frame n) (append_meas m).
Proof. intros s. now apply frame_same_heap. Qed.

Lemma frame_py_copy n v : pres (frame n) (py_copy v).
Proof. unfold py_copy. repeat pres_step; apply frame_alloc. Qed.

Lemma frame_py_dict n v : pres (frame n) (py_dict v).
Proof. unfold py_dict. repeat pres_step; apply frame_alloc. Qed.

Lemma frame_level_object n v : pres (frame n) (level_object v).
Proof. unfold level_object. repeat pres_step; apply frame_alloc. Qed.

(** A new object: a reference at or above [n]. *)
Definition fresh (n : nat) (v : val) : Prop :=
  exists l, v = VRef l /\ n <= l.

Lemma frame_setitem n v k x : fresh n v -> pres (frame n) (setitem v k x).
Proof.
  intros (l & -> & Hl) s. unfold setitem, bind, get_heap.
  destruct (st_heap s !! l) as [[d| | |]|] eqn:Hd; try reflexivity.
  simpl. now apply frame_write with (o := ODict d).
Qed.

Create HintDb frames.
#[local] Hint Resolve frame_alloc frame_emit frame_next_call
  frame_append_meas frame_py_copy frame_py_dict frame_level_object : frames.

Ltac frame_tac :=
  repeat (first [ pres_step | solve [auto with frames] ]).

(** A computation started with at least [n] cells, in a state where [P]
    holds, leaves the first [n] cells and every list alone, and its result
    satisfies [Q] in the state it ends in. *)
Definition triple (n : nat) {A} (P : state -> Prop) (c : M A)
    (Q : A -> state -> Prop) : Prop :=
  forall s, n <= length (st_heap s) -> P s ->
    undisturbed n s (snd (c s)) /\
    forall a, fst (c s) = Ok a -> Q a (snd (c s)).

(** An assertion that no later step of the expansion can break. *)
Definition stable (n : nat) (J : state -> Prop) : Prop :=
  forall s s', n <= length (st_heap s) -> undisturbed n s s' -> J s -> J s'.

Lemma undisturbed_trans n s1 s2 s3 :
  undisturbed n s1 s2 -> undisturbed n s2 s3 -> undisturbed n s1 s3.
Proof.
  intros (L2 & K2 & O2) (L3 & K3 & O3). repeat split; auto.
  intros l Hl. rewrite K3, K2; auto.
Qed.

Lemma triple_bind n {A B} P (c : M A) Q (k : A -> M B) R :
  triple n P c Q -> (forall a, triple n (Q a) (k a) R) ->
  triple n P (bind c k) R.
Proof.
  intros Hc Hk s Hn HP. destruct (Hc s Hn HP) as [Hu Hq]. unfold bind.
  destruct (c s) as [[a|e] s1]; simpl in *.
  - destruct (Hk a s1 (proj1 Hu) (Hq a eq_refl)) as [Hu' Hr].
    split; [eapply undisturbed_trans; eassumption|exact Hr].
  - split; [exact Hu|]. discriminate.
Qed.

Lemma triple_conseq n {A} (P P' : state -> Prop) (c : M A)
    (Q Q' : A -> state -> Prop) :
  triple n P c Q -> (forall s, P' s -> P s) ->
  (forall a s, Q a s -> Q' a s) -> triple n P' c Q'.
Proof.
  intros H HP HQ s Hn HP'. destruct (H s Hn (HP s HP')) as [Hu Hq].
  split; [exact Hu|]. intros a Ha. apply HQ, Hq, Ha.
Qed.

Lemma triple_pure n {A} (phi : Prop) P (c : M A) Q :
  (phi -> triple n P c Q) -> triple n (fun s => phi /\ P s) c Q.
Proof. intros H s Hn [Hphi HP]. now apply H. Qed.

(** A computation that respects the frame keeps every stable assertion. *)
Lemma triple_pres n {A} J (c : M A) :
  pres (frame n) c -> stable n J -> triple n J c (fun _ s' => J s').
Proof.
  intros Hc HJ s Hn Hs. specialize (Hc s Hn).
  split; [exact Hc|]. intros _ _. exact (HJ s _ Hn Hc Hs).
Qed.

Lemma pres_of_triple n {A} (c : M A) Q :
  triple n (fun _ => True) c Q -> pres (frame n) c.
Proof. intros H s Hn. exact (proj1 (H s Hn I)). Qed.

Lemma triple_ret n {A} (P : state -> Prop) (a : A) :
  triple n P (ret a) (fun b s => b = a /\ P s).
Proof.
  intros s Hn HP. split.
  - repeat split; auto.
  - intros b [= <-]. now split.
Qed.

Lemma frame_py_pop n v k : fresh n v -> pres (frame n) (py_pop v k).
Proof.
  intros (l & -> & Hl) s. unfold py_pop, bind, get_heap.
  destruct (st_heap s !! l) as [[d| | |]|] eqn:Hd; try reflexivity.
  destruct (dict_get k d); [|reflexivity].
  simpl. now apply frame_write with (o := ODict d).
Qed.

Lemma frame_setitem_val n v key x :
  fresh n v -> pres (frame n) (setitem_val v key x).
Proof.
  intros Hv. unfold setitem_val.
  destruct key; try apply (pres_raise (frame n)); try now apply frame_setitem.
  all: destruct Hv as (l & -> & Hl); intros s; unfold bind, get_heap;
    destruct (st_heap s !! l) as [[d| | |]|] eqn:Hd; try reflexivity;
    simpl; eapply frame_write; eauto; discriminate.
Qed.

(** What a computation started with at least [n] cells returns. *)
Definition yields (n : nat) {A} (c : M A) (Q : A -> Prop) : Prop :=
  forall s a, n <= length (st_heap s) -> fst (c s) = Ok a -> Q a.

Lemma pres_bind_yields n {A B} (c : M A) (Q : A -> Prop) (k : A -> M B) :
  yields n c Q -> pres (frame n) c ->
  (forall a, Q a -> pres (frame n) (k a)) ->
  pres (frame n) (bind c k).
Proof.
  intros Hy Hc Hk s Hn. specialize (Hy s). specialize (Hc s Hn). unfold bind.
  destruct (c s) as [[a|e] s1]; simpl in *; [|exact Hc].
  eapply undisturbed_trans; [exact Hc|].
  apply (Hk a (Hy a Hn eq_refl) s1), Hc.
Qed.

Lemma yields_alloc n o : yields n (alloc o) (fresh n).
Proof. intros s a Hn [= <-]. exists (length (st_heap s)). auto. Qed.

Lemma yields_py_copy n v : yields n (py_copy v) (fresh n).
Proof.
  intros s a Hn. unfold py_copy, bind, get_heap.
  destruct (deref (st_heap s) v) as [[d|xs|kw|]|]; try discriminate;
    apply yields_alloc; exact Hn.
Qed.

Lemma yields_py_dict n v : yields n (py_dict v) (fresh n).
Proof.
  intros s a Hn. unfold py_dict. unfold bind at 1, get_heap.
  assert (Hpairs : fst (bind (py_iter v) (fun items =>
                     bind (dict_of_pairs (Some []) items) (fun acc =>
                       alloc (match acc with
                              | Some d => ODict d
                              | None => OMixed
                              end))) s) = Ok a -> fresh n a).
  { unfold bind. pose proof (reader_py_iter v s) as H1.
    destruct (py_iter v s) as [[items|e] s1]; [|discriminate].
    simpl in H1. subst s1.
    pose proof (reader_dict_of_pairs items (Some []) s) as H2.
    destruct (dict_of_pairs (Some []) items s) as [[acc|e] s2]; [|discriminate].
    simpl in H2. subst s2. apply yields_alloc. exact Hn. }
  destruct (deref (st_heap s) v) as [[d|xs|kw|]|]; try exact Hpairs;
    apply yields_alloc; exact Hn.
Qed.

Lemma yields_map_m n {A B} (f : A -> M B) (Q : B -> Prop) xs :
  (forall x, yields n (f x) Q) -> (forall x, pres (frame n) (f x)) ->
  yields n (map_m f xs) (Forall Q).
Proof.
  intros Hy Hf. induction xs as [|x xs IH]; intros s ys Hn; simpl.
  - intros [= <-]. constructor.
  - unfold bind. specialize (Hy x s). specialize (Hf x s Hn).
    destruct (f x s) as [[y|e] s1]; simpl in *; [|discriminate].
    specialize (IH s1). destruct (map_m f xs s1) as [[ys'|e] s2]; simpl in *;
      [|discriminate].
    intros [= <-]. constructor; [now apply Hy|].
    apply IH; [apply Hf|reflexivity].
Qed.

Lemma yields_bind n {A B} (c : M A) (k : A -> M B) (Q : B -> Prop) :
  pres (frame n) c -> (forall a, yields n (k a) Q) -> yields n (bind c k) Q.
Proof.
  intros Hc Hk s b Hn. unfold bind. specialize (Hc s Hn).
  destruct (c s) as [[a|e] s1]; simpl in *; [|discriminate].
  apply (Hk a s1 b), Hc.
Qed.

(** [run_one] only adds cells: the copy it edits for the log is its own. *)
Lemma frame_run_one n E ch m params title conc :
  pres (frame n) (run_one E ch m params title conc).
Proof.
  unfold run_one, run_one_start, run_one_finish, leave_with.
  repeat (first
    [ match goal with
      | |- pres _ (bind (py_copy _) _) =>
          apply (pres_bind_yields n _ (fresh n));
            [apply yields_py_copy|apply frame_py_copy|intros sp Hsp]
      end
    | pres_step
    | solve [auto using frame_py_pop, frame_setitem with frames] ]).
Qed.

(** One step of a frame proof: objects the code creates are remembered as
    new, so that writing into them is allowed. *)
Ltac frame_step n :=
  first
    [ match goal with
      | |- pres _ (bind (alloc _) _) =>
          apply (pres_bind_yields n _ (fresh n));
            [apply yields_alloc|apply frame_alloc|intros ? ?]
      | |- pres _ (bind (py_dict _) _) =>
          apply (pres_bind_yields n _ (fresh n));
            [apply yields_py_dict|apply frame_py_dict|intros ? ?]
      | |- pres _ (bind (py_copy _) _) =>
          apply (pres_bind_yields n _ (fresh n));
            [apply yields_py_copy|apply frame_py_copy|intros ? ?]
      end
    | pres_step
    | solve [auto using frame_py_pop, frame_setitem, frame_setitem_val,
               frame_run_one with frames] ].

Lemma frame_single_params n step m : pres (frame n) (single_params step m).
Proof. unfold single_params. repeat frame_step n. Qed.

Lemma frame_single_runs n E ch i m params reps conc :
  pres (frame n) (single_runs E ch i m params reps conc).
Proof. unfold single_runs. repeat frame_step n. Qed.

(** Lines 188-189: the copy of [base_params] is the object written to. *)
Lemma frame_param_sweep_value n E ch m base reps conc sweep_param val :
  pres (frame n) (param_sweep_value E ch m base reps conc sweep_param val).
Proof. unfold param_sweep_value. repeat frame_step n. Qed.

(** The list cell [raw] holds exactly [xs]. *)
Definition holds_list (raw : val) (xs : list val) (s : state) : Prop :=
  deref (st_heap s) raw = Some (OList xs).

Lemma stable_holds_list n raw xs : stable n (holds_list raw xs).
Proof.
  intros s s' _ (_ & _ & Hlists). unfold holds_list.
  destruct raw; simpl; try discriminate. apply Hlists.
Qed.

Lemma stable_true n : stable n (fun _ => True).
Proof. intros s s' _ _ _. exact I. Qed.

Lemma triple_alloc_list n xs :
  triple n (fun _ => True) (alloc (OList xs))
    (fun raw s' => fresh n raw /\ holds_list raw xs s').
Proof.
  intros s Hn _. split; [now apply frame_alloc|].
  intros a [= <-]. split.
  - exists (length (st_heap s)). auto.
  - unfold holds_list. simpl. apply heap_lookup_last.
Qed.

(** [raw[lvl_idx]] is one of the elements of [raw]. *)
Lemma triple_list_getitem n raw xs i (Q : val -> Prop) :
  Forall Q xs ->
  triple n (holds_list raw xs) (list_getitem raw i)
    (fun tgt s' => Q tgt /\ holds_list raw xs s').
Proof.
  intros HQ s Hn HJ. unfold holds_list in HJ.
  unfold list_getitem, bind, get_heap. rewrite HJ.
  destruct (as_int i) as [z|]; [|split; [now apply frame_same_heap|discriminate]].
  destruct (norm_index (length xs) z) as [j|];
    [|split; [now apply frame_same_heap|discriminate]].
  destruct (xs !! j) as [x|] eqn:Hx;
    [|split; [now apply frame_same_heap|discriminate]].
  split; [now apply frame_same_heap|].
  intros a [= <-]. split; [|exact HJ].
  rewrite Forall_forall in HQ. apply HQ. eapply list_elem_of_lookup_2, Hx.
Qed.

(** Lines 170-173: the write goes into one of the copies. *)
Lemma triple_sweep_field n raw xs (b : bool) idx field val :
  Forall (fresh n) xs ->
  triple n (holds_list raw xs)
    (if b then bind (list_getitem raw idx) (fun tgt => setitem tgt field val)
     else ret tt)
    (fun _ s' => holds_list raw xs s').
Proof.
  intros Hxs. destruct b.
  - eapply triple_bind; [apply (triple_list_getitem n raw xs idx _ Hxs)|].
    intros tgt. apply triple_pure. intros Htgt.
    apply triple_pres; [now apply frame_setitem|apply stable_holds_list].
  - apply triple_pres; [apply (pres_ret (frame n))|apply stable_holds_list].
Qed.

Lemma frame_msa_sweep_value n E ch step m base reps conc lvl_idx val :
  pres (frame n) (msa_sweep_value E ch step m base reps conc lvl_idx val).
Proof.
  unfold msa_sweep_value.
  apply (pres_bind_yields n _ (Forall (fresh n))).
  { apply yields_bind; [repeat frame_step n|]. intros lvls.
    apply yields_map_m; intros x; [apply yields_py_copy|apply frame_py_copy]. }
  { repeat frame_step n. }
  intros copies Hcopies.
  apply (pres_of_triple n _ (fun _ _ => True)).
  eapply triple_bind; [apply triple_alloc_list|]. intros raw.
  apply triple_pure. intros Hraw.
  eapply triple_bind.
  { apply triple_pres; [repeat frame_step n|apply stable_holds_list]. }
  intros sp. cbv beta.
  eapply triple_bind; [apply triple_sweep_field, Hcopies|]. intros ?.
  eapply triple_bind.
  { apply triple_pres; [repeat frame_step n|apply stable_holds_list]. }
  intros sd. cbv beta.
  eapply triple_bind; [apply triple_sweep_field, Hcopies|]. intros ?.
  eapply triple_conseq;
    [apply (triple_pres n (fun _ => True)); [|apply stable_true]
    |intros; exact I|intros; exact I].
  repeat frame_step n.
Qed.

Lemma frame_expand_step n E ch i step m typ reps conc :
  pres (frame n) (expand_step E ch i step m typ reps conc).
Proof.
  unfold expand_step, msa_level_sweep, param_sweep.
  repeat (first [ apply frame_single_params | apply frame_single_runs
                | apply frame_msa_sweep_value | apply frame_param_sweep_value
                | frame_step n ]).
Qed.

Lemma frame_run_step n E ch i step : pres (frame n) (run_step E ch i step).
Proof. unfold run_step. repeat (first [apply frame_expand_step|frame_step n]). Qed.

Lemma undisturbed_prefix s s' :
  undisturbed (length (st_heap s)) s s' -> st_heap s `prefix_of` st_heap s'.
Proof.
  intros (Hlen & Hsame & _). exists (drop (length (st_heap s)) (st_heap s')).
  rewrite <- (take_drop (length (st_heap s)) (st_heap s')) at 1.
  f_equal. apply list_eq. intros l.
  destruct (decide (l < length (st_heap s))) as [Hl|Hl].
  - rewrite lookup_take_lt by exact Hl. now apply Hsame.
  - rewrite lookup_take_ge by lia. symmetry. apply lookup_ge_None. lia.
Qed.

Lemma frame_run_steps n E ch i steps : pres (frame n) (run_steps E ch i steps).
Proof.
  unfold run_steps. apply (pres_for_each (frame n)). intros [j step].
  apply frame_run_step.
Qed.

Lemma frame_run_channel n E ch plan managers :
  pres (frame n) (run_channel E ch plan managers).
Proof.
  unfold run_channel. repeat (first [apply frame_run_steps|frame_step n]).
Qed.

(** C9: expanding and running a step never changes an object that existed
    before: the store after the step is the store before it followed by the
    objects the step created (the copies of [base_params] and of the level
    dictionaries among them).  The same holds for a whole channel task. *)
Theorem expansion_never_mutates E ch i step plan managers s :
  st_heap s `prefix_of` st_heap (snd (run_step E ch i step s)) /\
  st_heap s `prefix_of` st_heap (snd (run_channel E ch plan managers s)).
Proof.
  split; apply undisturbed_prefix.
  - now apply (frame_run_step (length (st_heap s)) E ch i step s).
  - now apply (frame_run_channel (length (st_heap s)) E ch plan managers s).
Qed.

(* ================================================================= *)
(** * Which exceptions can be raised *)

Definition raises_only (ok : exn -> Prop) {A} (c : M A) : Prop :=
  forall s e, fst (c s) = Raise e -> ok e.

Lemma raises_only_bind ok {A B} (c : M A) (k : A -> M B) :
  raises_only ok c -> (forall a, raises_only ok (k a)) ->
  raises_only ok (bind c k).
Proof.
  intros Hc Hk s e. unfold bind. specialize (Hc s).
  destruct (c s) as [[a|e0] s1]; simpl in *.
  - apply Hk.
  - intros [= <-]. now apply Hc.
Qed.

Lemma raises_only_for_each ok {A} (xs : list A) (body : A -> M unit) :
  (forall x, raises_only ok (body x)) -> raises_only ok (for_each xs body).
Proof.
  intros Hb. induction xs as [|x xs IH]; simpl.
  - intros s e. discriminate.
  - apply raises_only_bind; auto.
Qed.

Definition not_index_error (e : exn) : Prop := e <> IndexError.

(** The operations of [run_one] never raise [IndexError]: none of them
    indexes a list. *)
Ltac no_index_leaf :=
  let st := fresh "st" in
  let ex := fresh "ex" in
  let H := fresh "H" in
  intros st ex;
  cbv [subscript get_method dict_items setitem py_pop py_copy get_heap
       put_heap alloc emit next_call append_meas bind ret raise];
  repeat (match goal with
          | |- context [match ?x with _ => _ end] => destruct x
          end; simpl);
  intros H; first [discriminate H | injection H as <-; discriminate].

Lemma run_one_no_index_error E ch m params title conc :
  raises_only not_index_error (run_one E ch m params title conc).
Proof.
  unfold run_one, run_one_start, run_one_finish, leave_with.
  repeat (first
    [ apply raises_only_bind; [|intros ?]
    | match goal with
      | |- raises_only _ (match ?x with _ => _ end) => destruct x
      end
    | no_index_leaf ]).
Qed.

Lemma norm_index_None len k :
  norm_index len k = None <-> (Z.of_nat len <= k \/ k < - Z.of_nat len)%Z.
Proof.
  unfold norm_index.
  set (n' := (if (k <? 0)%Z then (k + Z.of_nat len)%Z else k)).
  destruct ((0 <=? n')%Z && (n' <? Z.of_nat len)%Z) eqn:Hb.
  - split; [discriminate|]. intros H. exfalso.
    apply andb_true_iff in Hb as [H1 H2].
    apply Z.leb_le in H1. apply Z.ltb_lt in H2.
    subst n'. destruct (Z.ltb_spec k 0); lia.
  - split; [intros _|reflexivity].
    apply andb_false_iff in Hb as [H1|H2];
      [apply Z.leb_gt in H1|apply Z.ltb_ge in H2];
      subst n'; destruct (Z.ltb_spec k 0); lia.
Qed.

Section MsaIndex.
Variable E : env.
Variables (ch : Z) (step base lv : val) (d bd : dict).
Variables (lvls : list val) (lds : list dict) (k r : Z) (conc : val).
Variables (sp sd : bool).
Hypothesis base_has_levels : dict_get "levels" bd = Some lv.
Hypothesis potential_flag :
  scalar (or_default VNone (dict_get "sweep_potential" d)) /\
  truthy [] (or_default VNone (dict_get "sweep_potential" d)) = sp.
Hypothesis duration_flag :
  scalar (or_default VNone (dict_get "sweep_duration" d)) /\
  truthy [] (or_default VNone (dict_get "sweep_duration" d)) = sd.

(** Lines 171 and 173 with an index outside the list of levels. *)
Lemma msa_sweep_value_out_of_range val s :
  msa_ready step base lv d bd lvls lds (st_heap s) ->
  sp || sd = true ->
  norm_index (length lds) k = None ->
  fst (msa_sweep_value E ch step (VStr "MSA") base (VInt r) conc (VInt k) val s)
    = Raise IndexError.
Proof.
  intros (Hstep & Hbase & Hlv & Hlds) Hflag Hk.
  destruct potential_flag as [Hsp1 Hsp2]. destruct duration_flag as [Hsd1 Hsd2].
  set (h := st_heap s). set (n := length lds).
  set (copies := map VRef (seq (length h) n)).
  unfold msa_sweep_value.
  erewrite (bind_ok (bind (bind (subscript base "levels") _) _)).
  2:{ erewrite (bind_ok (bind (subscript base "levels") _)).
      2:{ erewrite bind_ok by (eapply subscript_ok; eassumption).
          apply py_iter_list, Hlv. }
      apply (map_m_alloc py_copy ODict py_copy_dict lvls lds), Hlds. }
  run_refl. fold h n copies. rewrite with_heap_twice.
  set (s1 := with_heap ((h ++ map ODict lds) ++ [OList copies]) s).
  assert (Hget : list_getitem (VRef (length (h ++ map ODict lds))) (VInt k) s1
                 = (Raise IndexError, s1)).
  { apply list_getitem_out_of_range with (n := k) (xs := copies).
    - subst s1. simpl. apply heap_lookup_last.
    - reflexivity.
    - subst copies. rewrite length_map, length_seq. exact Hk. }
  erewrite (bind_ok (bind (get_method step "sweep_potential" VNone) _)).
  2:{ erewrite bind_ok
        by (apply get_method_ok with (d := d); subst s1; simpl;
            rewrite <- app_assoc; apply deref_app, Hstep).
      reflexivity. }
  rewrite (truthy_scalar _ [] _ Hsp1), Hsp2.
  destruct sp.
  - rewrite (bind_raise _ _ _ _ _
               (bind_raise _ (fun tgt => setitem tgt "level" val) _ _ _ Hget)).
    reflexivity.
  - simpl in Hflag. subst sd. run_refl.
    erewrite (bind_ok (bind (get_method step "sweep_duration" VNone) _)).
    2:{ erewrite bind_ok
          by (apply get_method_ok with (d := d); subst s1; simpl;
              rewrite <- app_assoc; apply deref_app, Hstep).
        reflexivity. }
    rewrite (truthy_scalar _ [] _ Hsd1), Hsd2.
    rewrite (bind_raise _ _ _ _ _
               (bind_raise _ (fun tgt => setitem tgt "duration" val) _ _ _ Hget)).
    reflexivity.
Qed.

(** With the index inside the list, no iteration raises [IndexError],
    whatever the instrument does. *)
Lemma msa_sweep_no_index_error vals j :
  Forall scalar vals ->
  (sp || sd = true -> norm_index (length lds) k = Some j) ->
  forall s,
    msa_ready step base lv d bd lvls lds (st_heap s) ->
    fst (for_each vals
           (msa_sweep_value E ch step (VStr "MSA") base (VInt r) conc (VInt k)) s)
      <> Raise IndexError.
Proof.
  intros Hsc Hj. induction Hsc as [|v vals Hv _ IH]; intros s Hready.
  - discriminate.
  - cbn [for_each].
    pose proof (msa_sweep_value_prefix E ch step base lv d bd lvls lds k r conc
                  sp sd base_has_levels potential_flag duration_flag v j s
                  Hready Hv Hj) as Hbody.
    cbv zeta in Hbody. unfold bind. rewrite Hbody.
    match type of Hbody with _ = for_each ?rng ?body ?s1 =>
      pose proof (raises_only_for_each not_index_error rng body
                    (fun c => run_one_no_index_error E ch _ _ _ conc) s1) as Hno;
      pose proof (pres_for_each (frame (length (st_heap s1))) rng body
                    (fun c => frame_run_one _ E ch _ _ _ conc) s1 (le_n _)) as Hfr;
      destruct (for_each rng body s1) as [[[]|e] s2]
    end.
    + apply IH. apply undisturbed_prefix in Hfr.
      eapply msa_ready_prefix; [|exact Hready].
      etransitivity; [|exact Hfr]. simpl. rewrite <- app_assoc.
      now apply prefix_app_r.
    + simpl. intros [= ->]. now apply (Hno IndexError).
Qed.

End MsaIndex.

Lemma bind_raise_fst {A B} (c : M A) (k : A -> M B) s e :
  fst (c s) = Raise e -> fst (bind c k s) = Raise e.
Proof. unfold bind. destruct (c s) as [[a|e0] s1]; simpl; congruence. Qed.

(** C2 (amended): for an MSA level sweep with at least one swept value and
    at least one of the two flags set, over [n] levels, expansion raises
    [IndexError] exactly when [level_index >= n] or [level_index < -n].  An
    index from [-n] to [-1] raises nothing: it denotes a level counted from
    the end, as [norm_index] says. *)
Theorem level_index_error_iff E ch i step d base bd lv lvls lds sv v vals k r
    sp sd s :
  deref (st_heap s) step = Some (ODict d) ->
  dict_get "method" d = Some (VStr "MSA") ->
  dict_get "type" d = Some (VStr "sweep") ->
  dict_get "repeats" d = Some (VInt r) ->
  dict_get "base_params" d = Some base ->
  truthy (st_heap s) (or_default VNone (dict_get "modify_levels" d)) = true ->
  dict_get "level_index" d = Some (VInt k) ->
  dict_get "sweep_values" d = Some sv ->
  deref (st_heap s) sv = Some (OList (v :: vals)) ->
  Forall scalar (v :: vals) ->
  scalar (or_default VNone (dict_get "sweep_potential" d)) /\
    truthy [] (or_default VNone (dict_get "sweep_potential" d)) = sp ->
  scalar (or_default VNone (dict_get "sweep_duration" d)) /\
    truthy [] (or_default VNone (dict_get "sweep_duration" d)) = sd ->
  sp || sd = true ->
  deref (st_heap s) base = Some (ODict bd) ->
  dict_get "levels" bd = Some lv ->
  deref (st_heap s) lv = Some (OList lvls) ->
  Forall2 (fun x ld => deref (st_heap s) x = Some (ODict ld)) lvls lds ->
  fst (run_step E ch i step s) = Raise IndexError <->
  (Z.of_nat (length lds) <= k \/ k < - Z.of_nat (length lds))%Z.
Proof.
  intros Hs Hm Ht Hr Hbase Hmod Hk Hsv Hvals Hsc Hsp Hsd Hflag Hbd Hlv Hlvls Hlds.
  assert (Hready : msa_ready step base lv d bd lvls lds (st_heap s))
    by (repeat split; assumption).
  assert (Hrun : run_step E ch i step s =
                 for_each (v :: vals)
                   (msa_sweep_value E ch step (VStr "MSA") base (VInt r)
                      (or_default VNone (dict_get "concentration" d)) (VInt k)) s).
  { rewrite (run_step_reads E ch i step d (VStr "MSA") s Hs Hm), Ht, Hr. simpl.
    unfold expand_step. simpl.
    rewrite (bind_ok _ _ _ _ _ (subscript_ok _ _ _ _ _ Hs Hbase)).
    erewrite (bind_ok (bind (get_method step "modify_levels" VNone) _)).
    2:{ erewrite bind_ok by (apply get_method_ok; exact Hs). reflexivity. }
    rewrite Hmod. unfold msa_level_sweep.
    rewrite (bind_ok _ _ _ _ _ (subscript_ok _ _ _ _ _ Hs Hk)).
    erewrite (bind_ok (bind (subscript step "sweep_values") _)).
    2:{ rewrite (bind_ok _ _ _ _ _ (subscript_ok _ _ _ _ _ Hs Hsv)).
        apply py_iter_list, Hvals. }
    reflexivity. }
  rewrite Hrun, <- norm_index_None.
  destruct (norm_index (length lds) k) as [j|] eqn:Hj.
  - split; [|discriminate]. intros Hraise. exfalso.
    exact (msa_sweep_no_index_error E ch step base lv d bd lvls lds k r _ sp sd
             Hlv Hsp Hsd (v :: vals) j Hsc (fun _ => Hj) s Hready Hraise).
  - split; [reflexivity|]. intros _. cbn [for_each].
    apply bind_raise_fst.
    exact (msa_sweep_value_out_of_range E ch step base lv d bd lvls lds k r _
             sp sd Hlv Hsp Hsd v s Hready Hflag Hj).
Qed.

Lemma level_index_error_iff_witness :
  fst (run_step quiet_env 0 1 (VRef 5) (snd (loaded plan_msa_beyond)))
    = Raise IndexError <->
  (Z.of_nat (length msa_level_dicts) <= 5
   \/ 5 < - Z.of_nat (length msa_level_dicts))%Z.
Proof.
  apply (level_index_error_iff quiet_env 0 1 (VRef 5)
           (msa_step_dict 5 true false 1) (VRef 3) msa_base_dict (VRef 2)
           [VRef 0; VRef 1] msa_level_dicts (VRef 4) (VFloat "0.5") [] 5 1
           true false (snd (loaded plan_msa_beyond)));
    try reflexivity.
  - repeat constructor.
  - split; [exact I|reflexivity].
  - split; [exact I|reflexivity].
  - repeat constructor.
Defined.

(** C2 as stated fails: with [level_index = -1] and two levels the sweep
    raises nothing; the value is written into the last level, and the run
    is titled with level number 0. *)
Lemma negative_level_index_selects_last_level :
  let '(plan, s0) := loaded plan_msa_negative in
  let r := run_channel quiet_env 0 plan [0%Z] s0 in
  (-1 < 0)%Z /\
  fst r = Ok tt /\
  map msa_view (runs_of (st_trace (snd r))) =
    [(0%Z, "MSA", "msa_lvl0_0.5_run1", VNone,
      Some [ODict [("level", VFloat "0.1"); ("duration", VFloat "1.0")];
            ODict [("level", VFloat "0.5"); ("duration", VFloat "2.0")]],
      Some [OLevel [("level", VFloat "0.1"); ("duration", VFloat "1.0")];
            OLevel [("level", VFloat "0.5"); ("duration", VFloat "2.0")]])].
Proof. vm_compute. repeat split. Qed.

(* ================================================================= *)
(** * Selecting the channels (run.py, lines 41-42 and 215-218) *)

(** A character of a text is a code point below 256.  Python has two
    notions of white space: [str.strip] and [str.isspace] take TAB to CR,
    FS to US, the space, NEL and the no-break space; [int] skips the same
    characters but FS to US.  [str.isdigit] holds of 0 to 9 and of the
    superscripts 1, 2 and 3, which [int] does not read as digits. *)
Definition code_in (lo hi : nat) (c : ascii) : bool :=
  let n := nat_of_ascii c in Nat.leb lo n && Nat.leb n hi.

Definition int_space (c : ascii) : bool :=
  code_in 9 13 c || code_in 32 32 c || code_in 133 133 c || code_in 160 160 c.

Definition is_space (c : ascii) : bool := int_space c || code_in 28 31 c.

Definition is_decimal (c : ascii) : bool := code_in 48 57 c.

Definition is_digit (c : ascii) : bool :=
  is_decimal c || code_in 178 179 c || code_in 185 185 c.

Fixpoint lstrip (sp : ascii -> bool) (s : string) : string :=
  match s with
  | EmptyString => EmptyString
  | String c s' => if sp c then lstrip sp s' else s
  end.

Fixpoint rstrip (sp : ascii -> bool) (s : string) : string :=
  match s with
  | EmptyString => EmptyString
  | String c s' =>
      match rstrip sp s' with
      | EmptyString => if sp c then EmptyString else String c EmptyString
      | r => String c r
      end
  end.

Definition strip (sp : ascii -> bool) (s : string) : string :=
  rstrip sp (lstrip sp s).

(** [s.strip()] *)
Definition py_strip (s : string) : string := strip is_space s.

(** [s.split(sep)] for a separator of one character: never empty. *)
Fixpoint py_split (sep : ascii) (s : string) : list string :=
  match s with
  | EmptyString => [EmptyString]
  | String c s' =>
      if Ascii.eqb c sep then EmptyString :: py_split sep s'
      else match py_split sep s' with
           | w :: ws => String c w :: ws
           | [] => [String c EmptyString]
           end
  end.

Fixpoint str_all (p : ascii -> bool) (s : string) : bool :=
  match s with
  | EmptyString => true
  | String c s' => p c && str_all p s'
  end.

(** [s.isdigit()]: at least one character, and digits only. *)
Definition str_isdigit (s : string) : bool :=
  negb (String.eqb s "") && str_all is_digit s.

(** The digits of a decimal literal: single underscores may separate them. *)
Fixpoint valid_digits (after_digit : bool) (s : string) : bool :=
  match s with
  | EmptyString => after_digit
  | String c s' =>
      if is_decimal c then valid_digits true s'
      else if Ascii.eqb c "_" then after_digit && valid_digits false s'
      else false
  end.

Fixpoint drop_underscores (s : string) : string :=
  match s with
  | EmptyString => EmptyString
  | String c s' =>
      if Ascii.eqb c "_" then drop_underscores s'
      else String c (drop_underscores s')
  end.

(** The most digits [int] converts ([sys.get_int_max_str_digits()], 4300
    unless configured otherwise); a literal of more digits is a
    [ValueError]. *)
Definition max_str_digits : nat := 4300.

Definition decimal_digits (s : string) : option Z :=
  if valid_digits false s
     && Nat.leb (String.length (drop_underscores s)) max_str_digits
  then option_map Z.of_uint (NilEmpty.uint_of_string (drop_underscores s))
  else None.

(** [int(x)] on a string: the white space [int] knows is skipped on both
    sides, a sign may come first; [None] stands for [ValueError]. *)
Definition py_int (x : string) : option Z :=
  match strip int_space x with
  | String c r =>
      if Ascii.eqb c "+" then decimal_digits r
      else if Ascii.eqb c "-" then option_map Z.opp (decimal_digits r)
      else decimal_digits (String c r)
  | EmptyString => None
  end.

(** Lines 41-42: the items between commas that are digits only once
    stripped, each converted with [int] as it stands between the commas. *)
Definition parse_int_list (s : string) : option (list Z) :=
  mapM py_int
    (List.filter (fun x => str_isdigit (py_strip x)) (py_split "," s)).

(** Lines 215-218: the channels typed by the user that index [available]. *)
Definition select_channels (line : string) (available : nat)
    : option (list Z) :=
  option_map
    (List.filter (fun ch => (0 <=? ch)%Z && (ch <? Z.of_nat available)%Z))
    (parse_int_list (py_strip line)).

(** A character on which [strip] and [int], and [isdigit] and [int],
    agree: any but FS, GS, RS, US and the superscripts 1, 2 and 3. *)
Definition plain_char (c : ascii) : bool :=
  negb (code_in 28 31 c) && negb (code_in 178 179 c || code_in 185 185 c).

(** ** Characters *)

Lemma plain_space c : plain_char c = true -> int_space c = is_space c.
Proof. destruct c as [[] [] [] [] [] [] [] []]; cbv; congruence. Qed.

Lemma plain_digit c : plain_char c = true -> is_digit c = is_decimal c.
Proof. destruct c as [[] [] [] [] [] [] [] []]; cbv; congruence. Qed.

Lemma decimal_digit c : is_decimal c = true -> is_digit c = true.
Proof. unfold is_digit. now intros ->. Qed.

Lemma decimal_not_space c :
  is_decimal c = true -> is_space c = false /\ int_space c = false.
Proof. destruct c as [[] [] [] [] [] [] [] []]; cbv; auto; discriminate. Qed.

Lemma digit_char c :
  is_decimal c = true ->
  Ascii.eqb c "+" = false /\ Ascii.eqb c "-" = false /\
  Ascii.eqb c "_" = false /\ Ascii.eqb c "," = false /\
  forall u, exists u', uint_of_char c (Some u) = Some u'.
Proof.
  destruct c as [[] [] [] [] [] [] [] []]; cbv; try discriminate;
    intros _; repeat split; eauto.
Qed.

(** ** Stripping *)

Lemma str_all_impl (p q : ascii -> bool) s :
  (forall c, p c = true -> q c = true) ->
  str_all p s = true -> str_all q s = true.
Proof.
  intros H. induction s as [|c s IH]; simpl; [reflexivity|].
  intros Hs. apply andb_true_iff in Hs as [Hc Hs].
  now rewrite (H c Hc), IH.
Qed.

Lemma str_all_lstrip p sp s :
  str_all p s = true -> str_all p (lstrip sp s) = true.
Proof.
  induction s as [|c s IH]; simpl; [auto|]. intros H.
  destruct (sp c); [|exact H].
  apply andb_true_iff in H as [_ H]. auto.
Qed.

Lemma str_all_rstrip p sp s :
  str_all p s = true -> str_all p (rstrip sp s) = true.
Proof.
  induction s as [|c s IH]; simpl; [auto|]. intros H.
  apply andb_true_iff in H as [Hc Hs]. specialize (IH Hs).
  destruct (rstrip sp s); [destruct (sp c)|]; simpl in *;
    rewrite ?Hc; auto.
Qed.

Lemma str_all_strip p sp s :
  str_all p s = true -> str_all p (strip sp s) = true.
Proof. intros H. now apply str_all_rstrip, str_all_lstrip. Qed.

(** Two notions of white space that agree on the characters of a text
    strip it alike. *)
Lemma lstrip_agree sp sq s :
  str_all (fun c => Bool.eqb (sp c) (sq c)) s = true ->
  lstrip sp s = lstrip sq s.
Proof.
  induction s as [|c s IH]; simpl; [reflexivity|]. intros H.
  apply andb_true_iff in H as [Hc Hs]. apply Bool.eqb_prop in Hc.
  rewrite Hc. destruct (sq c); auto.
Qed.

Lemma rstrip_agree sp sq s :
  str_all (fun c => Bool.eqb (sp c) (sq c)) s = true ->
  rstrip sp s = rstrip sq s.
Proof.
  induction s as [|c s IH]; simpl; [reflexivity|]. intros H.
  apply andb_true_iff in H as [Hc Hs]. apply Bool.eqb_prop in Hc.
  now rewrite (IH Hs), Hc.
Qed.

Lemma strip_plain s :
  str_all plain_char s = true -> strip int_space s = py_strip s.
Proof.
  intros H.
  assert (Ha : forall t, str_all plain_char t = true ->
             str_all (fun c => Bool.eqb (int_space c) (is_space c)) t = true).
  { intros t. apply str_all_impl. intros c Hc.
    rewrite (plain_space c Hc). apply Bool.eqb_reflx. }
  unfold py_strip, strip. rewrite (lstrip_agree _ _ s (Ha s H)).
  apply rstrip_agree, Ha. now apply str_all_lstrip.
Qed.

Lemma lstrip_digits sp s :
  (forall c, is_decimal c = true -> sp c = false) ->
  str_all is_decimal s = true -> lstrip sp s = s.
Proof.
  intros Hsp. destruct s as [|c s]; simpl; [reflexivity|].
  intros H. apply andb_true_iff in H as [H _]. now rewrite (Hsp c H).
Qed.

Lemma rstrip_digits sp s :
  (forall c, is_decimal c = true -> sp c = false) ->
  str_all is_decimal s = true -> rstrip sp s = s.
Proof.
  intros Hsp. induction s as [|c s IH]; simpl; [reflexivity|].
  intros H. apply andb_true_iff in H as [Hc Hs].
  rewrite (IH Hs). destruct s; [|reflexivity]. now rewrite (Hsp c Hc).
Qed.

Lemma strip_digits_with sp s :
  (forall c, is_decimal c = true -> sp c = false) ->
  str_all is_decimal s = true -> strip sp s = s.
Proof.
  intros Hsp H. unfold strip. rewrite (lstrip_digits sp s Hsp H).
  exact (rstrip_digits sp s Hsp H).
Qed.

Lemma strip_digits s : str_all is_decimal s = true -> py_strip s = s.
Proof.
  apply strip_digits_with. intros c Hc. apply (decimal_not_space c Hc).
Qed.

Lemma int_strip_digits s :
  str_all is_decimal s = true -> strip int_space s = s.
Proof.
  apply strip_digits_with. intros c Hc. apply (decimal_not_space c Hc).
Qed.

(** ** Digit strings *)

Lemma valid_all_digits s :
  str_all is_decimal s = true -> valid_digits true s = true.
Proof.
  induction s as [|c s IH]; simpl; [reflexivity|].
  intros H. apply andb_true_iff in H as [Hc Hs]. rewrite Hc. auto.
Qed.

Lemma drop_underscores_digits s :
  str_all is_decimal s = true -> drop_underscores s = s.
Proof.
  induction s as [|c s IH]; simpl; [reflexivity|].
  intros H. apply andb_true_iff in H as [Hc Hs].
  destruct (digit_char c Hc) as (_ & _ & -> & _). now rewrite IH.
Qed.

Lemma uint_of_digits s :
  str_all is_decimal s = true -> exists u, NilEmpty.uint_of_string s = Some u.
Proof.
  induction s as [|c s IH]; simpl; [eauto|].
  intros H. apply andb_true_iff in H as [Hc Hs].
  destruct (IH Hs) as [u ->]. apply (digit_char c Hc).
Qed.

Lemma decimal_digits_all_digits t u :
  t <> "" ->
  str_all is_decimal t = true ->
  String.length t <= max_str_digits ->
  NilEmpty.uint_of_string t = Some u ->
  decimal_digits t = Some (Z.of_uint u).
Proof.
  intros Hne Hd Hlen Hu.
  unfold decimal_digits. rewrite (drop_underscores_digits t Hd), Hu.
  rewrite (proj2 (Nat.leb_le _ _) Hlen).
  destruct t as [|c r]; [contradiction|].
  cbn [str_all] in Hd. apply andb_true_iff in Hd as [Hc Hr].
  cbn [valid_digits]. now rewrite Hc, (valid_all_digits r Hr).
Qed.

(** [int] reads a text that, without the white space [int] skips, is made
    of at least one and at most [max_str_digits] digits 0 to 9. *)
Lemma py_int_digits x :
  strip int_space x <> "" ->
  str_all is_decimal (strip int_space x) = true ->
  String.length (strip int_space x) <= max_str_digits ->
  exists u, NilEmpty.uint_of_string (strip int_space x) = Some u /\
            py_int x = Some (Z.of_uint u).
Proof.
  intros Hne Hd Hlen.
  destruct (uint_of_digits _ Hd) as [u Hu]. exists u. split; [exact Hu|].
  pose proof (decimal_digits_all_digits _ u Hne Hd Hlen Hu) as Hdec.
  unfold py_int. destruct (strip int_space x) as [|c r]; [contradiction|].
  cbn [str_all] in Hd. apply andb_true_iff in Hd as [Hc _].
  now destruct (digit_char c Hc) as (-> & -> & _).
Qed.

(** ** Lengths *)

Lemma lstrip_length sp s : String.length (lstrip sp s) <= String.length s.
Proof.
  induction s as [|c s IH]; simpl; [lia|].
  destruct (sp c); simpl; lia.
Qed.

Lemma rstrip_length sp s : String.length (rstrip sp s) <= String.length s.
Proof.
  induction s as [|c s IH]; simpl; [lia|].
  destruct (rstrip sp s); [destruct (sp c)|]; simpl in *; lia.
Qed.

Lemma strip_length sp s : String.length (strip sp s) <= String.length s.
Proof.
  unfold strip. pose proof (rstrip_length sp (lstrip sp s)).
  pose proof (lstrip_length sp s). lia.
Qed.

Lemma py_strip_length s : String.length (py_strip s) <= String.length s.
Proof. apply strip_length. Qed.

(** The items of a text are not longer than the text, and are made of its
    characters. *)
Lemma py_split_items (p : ascii -> bool) sep s :
  str_all p s = true ->
  Forall (fun w => String.length w <= String.length s /\ str_all p w = true)
    (py_split sep s).
Proof.
  induction s as [|c s IH]; simpl; intros H.
  { constructor; [split; [simpl; lia|reflexivity]|constructor]. }
  apply andb_true_iff in H as [Hc Hs]. specialize (IH Hs).
  assert (IH' : Forall (fun w => String.length w <= S (String.length s)
                                 /\ str_all p w = true) (py_split sep s)).
  { eapply Forall_impl; [exact IH|]. intros w [Hw Hp]. split; [lia|exact Hp]. }
  destruct (Ascii.eqb c sep).
  { constructor; [split; [simpl; lia|reflexivity]|exact IH']. }
  destruct (py_split sep s) as [|w ws].
  { constructor; [|constructor]. split; [simpl; lia|]. simpl. now rewrite Hc. }
  apply Forall_cons in IH as [[Hw Hp] _]. apply Forall_cons in IH' as [_ Hws].
  constructor; [|exact Hws]. split; [simpl; lia|]. simpl. now rewrite Hc, Hp.
Qed.

(** ** Items and commas *)

Lemma py_split_nonempty sep s : py_split sep s <> [].
Proof.
  induction s as [|c s IH]; simpl; [discriminate|].
  destruct (Ascii.eqb c sep); [discriminate|].
  destruct (py_split sep s); discriminate.
Qed.

(** A separator ends the last item before it. *)
Lemma py_split_app sep s1 s2 :
  py_split sep (s1 +:+ String sep s2) = py_split sep s1 ++ py_split sep s2.
Proof.
  induction s1 as [|c s1 IH]; simpl.
  - now rewrite Ascii.eqb_refl.
  - rewrite IH. destruct (Ascii.eqb c sep); [reflexivity|].
    destruct (py_split sep s1) eqn:E; [|reflexivity].
    now apply py_split_nonempty in E.
Qed.

Lemma py_split_digits s :
  str_all is_decimal s = true -> py_split "," s = [s].
Proof.
  induction s as [|c s IH]; simpl; [reflexivity|].
  intros H. apply andb_true_iff in H as [Hc Hs].
  destruct (digit_char c Hc) as (_ & _ & _ & -> & _). now rewrite IH.
Qed.

Lemma mapM_app_option {A B} (f : A -> option B) l1 l2 :
  mapM f (l1 ++ l2) =
  match mapM f l1, mapM f l2 with
  | Some k1, Some k2 => Some (k1 ++ k2)
  | _, _ => None
  end.
Proof.
  induction l1 as [|x l1 IH]; simpl.
  - now destruct (mapM f l2).
  - destruct (f x); simpl; [|reflexivity]. rewrite IH.
    destruct (mapM f l1), (mapM f l2); reflexivity.
Qed.

(** An item of plain characters that passes the [isdigit] test once
    stripped is read by [int] as it stands. *)
Lemma py_int_item x :
  str_all plain_char x = true ->
  str_isdigit (py_strip x) = true ->
  String.length x <= max_str_digits ->
  exists u, py_int x = Some (Z.of_uint u).
Proof.
  intros Hplain Hdig Hlen.
  unfold str_isdigit in Hdig. apply andb_true_iff in Hdig as [Hne Hd].
  rewrite <- (strip_plain x Hplain) in Hne, Hd.
  assert (Hdec : str_all is_decimal (strip int_space x) = true).
  { pose proof (str_all_strip plain_char int_space x Hplain) as Hp.
    revert Hd Hp. generalize (strip int_space x). intros t.
    induction t as [|c t IH]; simpl; [reflexivity|]. intros Hd Hp.
    apply andb_true_iff in Hd as [Hc Hd]. apply andb_true_iff in Hp as [Pc Hp].
    rewrite <- (plain_digit c Pc), Hc. auto. }
  destruct (py_int_digits x) as (u & _ & Hu).
  - intros E. rewrite E in Hne. discriminate.
  - exact Hdec.
  - pose proof (strip_length int_space x). lia.
  - now exists u.
Qed.

Lemma digit_items_parse xs :
  Forall (fun x => String.length x <= max_str_digits
                   /\ str_all plain_char x = true) xs ->
  exists l,
    mapM py_int (List.filter (fun x => str_isdigit (py_strip x)) xs) = Some l /\
    Forall (fun n => (0 <= n)%Z) l.
Proof.
  induction 1 as [|x xs [Hlen Hplain] _ (l & Hl & Hpos)]; simpl.
  - exists []. split; [reflexivity|constructor].
  - destruct (str_isdigit (py_strip x)) eqn:Hx; [|eauto].
    destruct (py_int_item x Hplain Hx Hlen) as (u & Hint).
    exists (Z.of_uint u :: l). split.
    + simpl. rewrite Hint. simpl. now rewrite Hl.
    + constructor; [apply N2Z.is_nonneg|exact Hpos].
Qed.

Lemma string_of_uint_digits u :
  str_all is_decimal (NilEmpty.string_of_uint u) = true.
Proof. induction u; simpl; auto. Qed.

Lemma str_of_Z_decimal n :
  (0 <= n)%Z ->
  exists u, str_of_Z n = NilEmpty.string_of_uint u /\
    str_of_Z n <> "" /\ Z.of_uint u = n.
Proof.
  intros Hn. pose proof (DecimalZ.of_to n) as Hrt.
  unfold str_of_Z. destruct n as [|p|p]; [| |lia]; simpl in *.
  - exists (Decimal.D0 Decimal.Nil). repeat split. discriminate.
  - exists (Pos.to_uint p). repeat split; [|exact Hrt].
    destruct (Pos.to_uint p); simpl; discriminate.
Qed.

Lemma parse_one_number n :
  (0 <= n)%Z -> String.length (str_of_Z n) <= max_str_digits ->
  parse_int_list (str_of_Z n) = Some [n].
Proof.
  intros Hn Hlen. destruct (str_of_Z_decimal n Hn) as (u & Hs & Hne & Hu).
  pose proof (string_of_uint_digits u) as Hd. rewrite <- Hs in Hd.
  assert (Hdig : str_isdigit (py_strip (str_of_Z n)) = true).
  { rewrite (strip_digits _ Hd). unfold str_isdigit.
    rewrite (str_all_impl is_decimal is_digit _ decimal_digit Hd).
    destruct (String.eqb_spec (str_of_Z n) ""); [contradiction|reflexivity]. }
  unfold parse_int_list. rewrite (py_split_digits _ Hd).
  cbn [List.filter]. rewrite Hdig.
  destruct (py_int_digits (str_of_Z n)) as (u' & Hu' & Hint);
    rewrite ?(int_strip_digits _ Hd); try assumption.
  simpl. rewrite Hint. simpl.
  rewrite (int_strip_digits _ Hd), Hs, NilEmpty.usu in Hu'.
  injection Hu' as <-. now rewrite Hu.
Qed.



(** The characters left out do make it fail: [strip] takes GS away and the
    item passes the [isdigit] test, but [int] does not skip GS; a
    superscript 2 is a digit for [isdigit] and not for [int]. *)
Example channel_selection_can_fail :
  parse_int_list ("0," +:+ String (ascii_of_nat 29) "1") = None /\
  parse_int_list (String (ascii_of_nat 178) "") = None.
Proof. split; reflexivity. Qed.

(** X2: the text before and after a comma is parsed separately: the
    numbers of [s1 , s2] are those of [s1] followed by those of [s2]. *)
Theorem parse_int_list_comma s1 s2 :
  parse_int_list (s1 +:+ "," +:+ s2) =
  match parse_int_list s1, parse_int_list s2 with
  | Some l1, Some l2 => Some (l1 ++ l2)
  | _, _ => None
  end.
Proof.
  unfold parse_int_list.
  change ("," +:+ s2) with (String ","%char s2).
  rewrite py_split_app, List.filter_app. apply mapM_app_option.
Qed.

(** X3: channel numbers written in decimal (each with no more digits than
    [int] accepts) and separated by commas are read back as they are, in
    order and with their repetitions. *)
Theorem parse_int_list_round_trip ns :
  Forall (fun n => (0 <= n)%Z /\ String.length (str_of_Z n) <= max_str_digits)
    ns ->
  parse_int_list (String.concat "," (map str_of_Z ns)) = Some ns.
Proof.
  induction 1 as [|n ns [Hn Hlen] Hns IH]; [reflexivity|].
  destruct ns as [|n' ns']; [now apply parse_one_number|].
  change (String.concat "," (map str_of_Z (n :: n' :: ns')))
    with (str_of_Z n +:+ "," +:+ String.concat "," (map str_of_Z (n' :: ns'))).
  unfold parse_int_list in *.
  change ("," +:+ String.concat "," (map str_of_Z (n' :: ns')))
    with (String ","%char (String.concat "," (map str_of_Z (n' :: ns')))).
  rewrite py_split_app, List.filter_app, mapM_app_option.
  fold (parse_int_list (str_of_Z n)).
  now rewrite (parse_one_number n Hn Hlen), IH.
Qed.

Lemma parse_int_list_round_trip_witness :
  parse_int_list (String.concat "," (map str_of_Z [2; 0; 2]%Z))
    = Some [2; 0; 2]%Z.
Proof.
  apply (parse_int_list_round_trip [2; 0; 2]%Z).
  repeat (apply List.Forall_cons;
          [split; [lia|apply Nat.leb_le; reflexivity]|]).
  apply List.Forall_nil.
Defined.

(* ================================================================= *)
(** * How a run ends (run.py, lines 91-135) *)

(** The run logs written in a trace, in order. *)
Definition logs_of (t : list event) : list runlog :=
  omap (fun e => match e with EvLog l => Some l | _ => None end) t.

Lemma logs_of_app t1 t2 : logs_of (t1 ++ t2) = logs_of t1 ++ logs_of t2.
Proof. apply omap_app. Qed.

(** The state once [run_one] has been entered: the call is recorded and
    counted. *)
Definition entered (ch : Z) (name : string) (params : val) (title : string)
    (conc : val) (s : state) : state :=
  {| st_heap := st_heap s;
     st_trace := st_trace s ++
       [EvRun {| rq_ch := ch; rq_method := name; rq_params := params;
                 rq_title := title; rq_conc := conc; rq_heap := st_heap s |}];
     st_meas := st_meas s;
     st_calls := S (st_calls s) |}.

(** Lines 93-115: the first part of [run_one] on a method name, case by
    case. *)
Lemma run_one_start_cases E ch name params title conc s :
  let f := run_fate E (st_calls s) in
  let s1 := entered ch name params title conc s in
  let closing e := if close_fails f then FileError else e in
  run_one_start E ch (VStr name) params title conc s =
  if files_fail f then (Raise FileError, s1)
  else if method_known name then
    match deref (st_heap s) params with
    | Some (ODict _) =>
        if method_fails f then (Raise (closing DeviceError), s1)
        else (Ok (name, st_calls s), s1)
    | _ => (Raise (closing TypeError), s1)
    end
  else (Raise (closing (KeyError name)), s1).
Proof.
  unfold run_one_start, leave_with. do 4 run_refl.
  destruct (run_fate E (st_calls s)) as [[] [] [] [] []]; try reflexivity;
    run_refl;
    (destruct (method_known name); [|reflexivity]); run_refl;
    destruct (deref (st_heap s) params) as [[| | |]|]; reflexivity.
Qed.

(** Lines 115-135: the second part of [run_one], case by case. *)
Lemma run_one_finish_cases E ch name params pd title conc k s :
  deref (st_heap s) params = Some (ODict pd) ->
  let lp := logged_params name params pd (st_heap s) in
  let appended h :=
    {| st_heap := h; st_trace := st_trace s;
       st_meas := st_meas s ++ [(ch, k)]; st_calls := st_calls s |} in
  run_one_finish E ch name params title conc k s =
  let f := run_fate E k in
  if measure_fails f then
    (Raise (if close_fails f then FileError else DeviceError), s)
  else if close_fails f then (Raise FileError, appended (st_heap s))
  else if log_fails f then (Raise FileError, appended (snd lp))
  else
    (Ok tt,
     {| st_heap := snd lp;
        st_trace := st_trace s ++
          [EvLog {| lg_channel := ch; lg_method := name; lg_title := title;
                    lg_parameters := fst lp; lg_concentration := conc;
                    lg_heap := snd lp |}];
        st_meas := st_meas s ++ [(ch, k)];
        st_calls := st_calls s |}).
Proof.
  intros Hp lp appended. subst lp.
  unfold run_one_finish, logged_params, leave_with. cbv zeta.
  destruct (measure_fails (run_fate E k));
    [now destruct (close_fails (run_fate E k))|].
  do 2 run_refl.
  destruct (close_fails (run_fate E k)); [reflexivity|]. run_refl.
  all: destruct (String.eqb name "MSA") eqn:Hmsa;
    [destruct (dict_get "_raw_levels" pd) as [raw|] eqn:Hraw|].
  all: try (erewrite (bind_ok (bind (dict_items params) _));
            [|erewrite bind_ok by (apply dict_items_ok; exact Hp);
              unfold dict_has; rewrite Hraw;
              first [ reflexivity
                    | erewrite bind_ok
                        by (erewrite py_copy_dict by exact Hp; reflexivity);
                      erewrite bind_ok
                        by (erewrite py_pop_ok
                              by (apply heap_lookup_last || exact Hraw);
                            reflexivity);
                      simpl; rewrite heap_insert_last;
                      erewrite bind_ok
                        by (erewrite setitem_ok by apply heap_lookup_last;
                            reflexivity);
                      simpl; rewrite heap_insert_last; reflexivity ]]).
  all: simpl; repeat run_refl;
    destruct (log_fails (run_fate E k)); repeat run_refl; reflexivity.
Qed.

(** X4: how a call of [run_one] ends.  When it returns, the files and the
    instrument worked: the call added the run and its log to the trace, for
    the same channel, method, title and concentration tag, and one
    measurement to the session.  When it raises, no log is written.  The
    session is then as it was, except when the data file could not be
    closed or the log could not be written after a measurement that
    worked: the measurement has been appended before, and stays in the
    session without a log. *)
Theorem run_one_session_and_log E ch m params title conc s :
  let r := run_one E ch m params title conc s in
  let k := st_calls s in
  match fst r with
  | Ok _ =>
      device_ok E k = true /\
      exists rq l,
        st_trace (snd r) = st_trace s ++ [EvRun rq; EvLog l] /\
        m = VStr (rq_method rq) /\ rq_ch rq = ch /\ rq_conc rq = conc /\
        lg_channel l = ch /\ lg_method l = rq_method rq /\
        lg_title l = rq_title rq /\ lg_concentration l = conc /\
        st_meas (snd r) = st_meas s ++ [(ch, k)]
  | Raise e =>
      (st_trace (snd r) = st_trace s /\ st_meas (snd r) = st_meas s) \/
      exists rq,
        st_trace (snd r) = st_trace s ++ [EvRun rq] /\
        rq_ch rq = ch /\ rq_conc rq = conc /\
        (st_meas (snd r) = st_meas s \/
         st_meas (snd r) = st_meas s ++ [(ch, k)] /\ e = FileError /\
         measure_fails (run_fate E k) = false /\
         (close_fails (run_fate E k) = true
          \/ log_fails (run_fate E k) = true))
  end.
Proof.
  intros r k. subst r k. unfold run_one.
  destruct m as [| | | |name|]; try (left; split; reflexivity).
  pose proof (run_one_start_cases E ch name params title conc s) as Hstart.
  cbv zeta in Hstart. unfold bind. rewrite Hstart. clear Hstart.
  assert (Hraise : forall e,
            exists rq,
              st_trace (entered ch name params title conc s)
                = st_trace s ++ [EvRun rq] /\
              rq_ch rq = ch /\ rq_conc rq = conc /\
              (st_meas (entered ch name params title conc s) = st_meas s \/
               st_meas (entered ch name params title conc s)
                 = st_meas s ++ [(ch, st_calls s)] /\ e = FileError /\
               measure_fails (run_fate E (st_calls s)) = false /\
               (close_fails (run_fate E (st_calls s)) = true
                \/ log_fails (run_fate E (st_calls s)) = true))).
  { intros e. eexists. split; [reflexivity|]. repeat split. now left. }
  unfold device_ok. cbv zeta.
  destruct (files_fail (run_fate E (st_calls s))) eqn:F1;
    [right; apply Hraise|].
  destruct (method_known name); [|right; apply Hraise].
  destruct (deref (st_heap s) params) as [[pd| | |]|] eqn:Hp;
    try (right; apply Hraise).
  destruct (method_fails (run_fate E (st_calls s))) eqn:F2;
    [right; apply Hraise|].
  cbn [fst snd].
  rewrite (run_one_finish_cases E ch name params pd title conc (st_calls s)
             (entered ch name params title conc s) Hp).
  cbv zeta.
  destruct (measure_fails (run_fate E (st_calls s))) eqn:F3;
    [right; apply Hraise|].
  destruct (close_fails (run_fate E (st_calls s))) eqn:F4.
  { right. eexists. split; [reflexivity|]. repeat split. right. auto. }
  destruct (log_fails (run_fate E (st_calls s))) eqn:F5.
  { right. eexists. split; [reflexivity|]. repeat split. right. auto. }
  cbn [fst snd]. split; [reflexivity|]. do 2 eexists.
  split; [simpl; rewrite <- app_assoc; reflexivity|]. repeat split.
Qed.

(** X5: the log of an MSA run.  The parameters written to the log are a
    copy of the run's parameters in which the raw levels (the dictionaries)
    stand under ["levels"] and ["_raw_levels"] is gone; every other entry
    is the run's.  The copy is a new object: the parameters of the run
    are as they were. *)
Theorem msa_log_holds_raw_levels E ch params pd raw title conc s :
  deref (st_heap s) params = Some (ODict pd) ->
  dict_get "_raw_levels" pd = Some raw ->
  device_ok E (st_calls s) = true ->
  let r := run_one E ch (VStr "MSA") params title conc s in
  fst r = Ok tt /\
  exists l ld,
    logs_of (st_trace (snd r)) = logs_of (st_trace s) ++ [l] /\
    lg_heap l = st_heap (snd r) /\
    deref (lg_heap l) (lg_parameters l) = Some (ODict ld) /\
    dict_get "levels" ld = Some raw /\
    dict_get "_raw_levels" ld = None /\
    (forall k, k <> "levels" -> k <> "_raw_levels" ->
               dict_get k ld = dict_get k pd) /\
    lg_parameters l <> params /\
    deref (st_heap (snd r)) params = Some (ODict pd).
Proof.
  intros Hp Hraw Hd r. subst r.
  rewrite (run_one_ok E ch "MSA" params pd title conc s eq_refl Hp Hd).
  unfold logged_params. simpl. rewrite Hraw. simpl.
  split; [reflexivity|]. do 2 eexists.
  split; [rewrite logs_of_app; reflexivity|]. split; [reflexivity|].
  split; [apply heap_lookup_last|].
  split; [apply dict_get_set_eq|].
  split; [rewrite dict_get_set_ne by discriminate; apply dict_get_without_eq|].
  split.
  { intros k K1 K2. rewrite dict_get_set_ne by exact K1.
    now apply dict_get_without_ne. }
  split.
  - intros <-. simpl in Hp. apply lookup_lt_Some in Hp. lia.
  - now apply deref_app.
Qed.

Lemma msa_log_holds_raw_levels_witness :
  let s := snd (loaded plan_msa_sweep) in
  let pd := [("n_cycles", VInt 1); ("_raw_levels", VRef 2); ("levels", VRef 4)] in
  let s1 := with_heap (st_heap s ++ [ODict pd]) s in
  let r := run_one quiet_env 0 (VStr "MSA") (VRef 8) "msa" VNone s1 in
  fst r = Ok tt /\
  exists l ld,
    logs_of (st_trace (snd r)) = logs_of (st_trace s1) ++ [l] /\
    lg_heap l = st_heap (snd r) /\
    deref (lg_heap l) (lg_parameters l) = Some (ODict ld) /\
    dict_get "levels" ld = Some (VRef 2) /\
    dict_get "_raw_levels" ld = None /\
    (forall k, k <> "levels" -> k <> "_raw_levels" ->
               dict_get k ld = dict_get k pd) /\
    lg_parameters l <> VRef 8 /\
    deref (st_heap (snd r)) (VRef 8) = Some (ODict pd).
Proof.
  intros s pd s1.
  apply (msa_log_holds_raw_levels quiet_env 0 (VRef 8) pd (VRef 2) "msa" VNone s1);
    reflexivity.
Defined.

(** X6: a method that is not one of the five known ones is noticed only
    when the first run of the step is under way: a single step with such
    a method and at least one repeat enters [run_one], which creates the
    directories and the data file and then fails to find the method.  The
    step raises [KeyError] for the method's name, or the file error when
    the files cannot be created or the data file cannot be closed; no
    measurement is made. *)
Theorem unknown_method_raises_in_first_run E ch i step d m p r s :
  deref (st_heap s) step = Some (ODict d) ->
  dict_get "method" d = Some (VStr m) ->
  method_known m = false ->
  or_default (VStr "single") (dict_get "type" d) = VStr "single" ->
  dict_get "params" d = Some p ->
  dict_get "repeats" d = Some (VInt r) ->
  (1 <= r)%Z ->
  run_step E ch i step s =
  (Raise (if files_fail (run_fate E (st_calls s))
             || close_fails (run_fate E (st_calls s))
          then FileError else KeyError m),
   entered ch m p (single_title m i 1)
     (or_default VNone (dict_get "concentration" d)) s).
Proof.
  intros Hs Hm Hk Ht Hp Hr Hge.
  assert (Hmsa : String.eqb m "MSA" = false).
  { destruct (String.eqb_spec m "MSA") as [->|]; [discriminate|reflexivity]. }
  rewrite (run_step_reads E ch i step d (VStr m) s Hs Hm), Ht, Hr. simpl.
  unfold expand_step. simpl.
  rewrite (bind_ok _ _ _ _ _ (single_params_plain step m d p s Hmsa Hs Hp)).
  unfold single_runs, py_range1. simpl. run_refl.
  destruct (Z.to_nat r) as [|n] eqn:Hn; [lia|]. simpl.
  apply bind_raise. run_refl. unfold run_one. apply bind_raise.
  pose proof (run_one_start_cases E ch m p (single_title m i 1)
                (or_default VNone (dict_get "concentration" d)) s) as Hstart.
  cbv zeta in Hstart. rewrite Hk in Hstart.
  change (str_lower m +:+ "_step" +:+ str_of_Z i +:+ "_run"
            +:+ str_of_Z (Z.of_nat 1)) with (single_title m i 1).
  rewrite Hstart.
  destruct (files_fail (run_fate E (st_calls s))); [reflexivity|].
  now destruct (close_fails (run_fate E (st_calls s))).
Qed.

Lemma unknown_method_raises_in_first_run_witness :
  let s := snd (loaded plan_unvalidated) in
  let d := [("method", VStr "XYZ"); ("params", VRef 0); ("repeats", VInt 1)] in
  let s1 := with_heap (st_heap s ++ [ODict d]) s in
  run_step quiet_env 0 1 (VRef 3) s1 =
  (Raise (KeyError "XYZ"),
   entered 0 "XYZ" (VRef 0) (single_title "XYZ" 1 1)
     (or_default VNone (dict_get "concentration" d)) s1).
Proof.
  intros s d s1.
  apply (unknown_method_raises_in_first_run quiet_env 0 1 (VRef 3) d "XYZ"
           (VRef 0) 1 s1); reflexivity || discriminate.
Defined.

(* ================================================================= *)
(** * Steps that cannot be expanded (run.py, lines 140-193) *)

(** X7: the fields a step must have.  A step without ["method"] raises
    [KeyError] before its type is looked at (so a step of unknown type
    without a method is an error, not a warning); a single step needs
    ["params"]; a sweep needs ["base_params"], then ["level_index"] (MSA
    level sweep) or ["sweep_param"] (any other sweep), then
    ["sweep_values"].  In each case the error is raised before any run
    is started and before anything is created or written. *)
Theorem missing_field_raises_before_any_run E ch i step d s :
  deref (st_heap s) step = Some (ODict d) ->
  let typ := or_default (VStr "single") (dict_get "type" d) in
  let level_sweep m :=
    py_eq_str m "MSA"
    && truthy (st_heap s) (or_default VNone (dict_get "modify_levels" d)) in
  let fails key := run_step E ch i step s = (Raise (KeyError key), s) in
  (dict_get "method" d = None -> fails "method") /\
  (forall m, dict_get "method" d = Some m ->
     (py_eq_str typ "single" = true ->
      dict_get "params" d = None -> fails "params") /\
     (py_eq_str typ "sweep" = true ->
      (dict_get "base_params" d = None -> fails "base_params") /\
      (dict_has "base_params" d = true ->
       (level_sweep m = true ->
        dict_get "level_index" d = None -> fails "level_index") /\
       (level_sweep m = true -> dict_has "level_index" d = true ->
        dict_get "sweep_values" d = None -> fails "sweep_values") /\
       (level_sweep m = false ->
        dict_get "sweep_param" d = None -> fails "sweep_param") /\
       (level_sweep m = false -> dict_has "sweep_param" d = true ->
        dict_get "sweep_values" d = None -> fails "sweep_values")))).
Proof.
  intros Hs typ level_sweep fails. subst fails. cbv beta. split.
  { intros Hm. unfold run_step.
    now rewrite (bind_raise _ _ _ _ _ (subscript_missing _ _ _ _ Hs Hm)). }
  intros m Hm.
  rewrite (run_step_reads E ch i step d m s Hs Hm). fold typ.
  unfold expand_step. split.
  { intros Ht Hp. rewrite Ht. unfold single_params.
    destruct (py_eq_str m "MSA").
    - erewrite bind_raise; [reflexivity|].
      erewrite bind_raise; [reflexivity|].
      erewrite bind_raise; [reflexivity|].
      now apply subscript_missing with (d := d).
    - erewrite bind_raise; [reflexivity|].
      now apply subscript_missing with (d := d). }
  intros Ht.
  assert (Hns : py_eq_str typ "single" = false).
  { destruct typ as [| | | |t|]; try discriminate. simpl in *.
    apply String.eqb_eq in Ht. now subst t. }
  rewrite Hns, Ht. split.
  { intros Hb.
    now rewrite (bind_raise _ _ _ _ _ (subscript_missing _ _ _ _ Hs Hb)). }
  unfold dict_has. intros Hb.
  destruct (dict_get "base_params" d) as [base|] eqn:Hbase; [|discriminate].
  rewrite (bind_ok _ _ _ _ _ (subscript_ok _ _ _ _ _ Hs Hbase)).
  assert (Hml : forall (k : bool -> M unit),
             bind (if py_eq_str m "MSA"
                   then bind (get_method step "modify_levels" VNone)
                             (fun f => py_truthy f)
                   else ret false) k s = k (level_sweep m) s).
  { intros k. subst level_sweep. cbv beta. destruct (py_eq_str m "MSA").
    - erewrite (bind_ok (bind (get_method step "modify_levels" VNone) _)).
      2:{ erewrite bind_ok by (apply get_method_ok; exact Hs). reflexivity. }
      reflexivity.
    - reflexivity. }
  rewrite Hml. clear Hml.
  repeat split.
  - intros -> Hk. unfold msa_level_sweep.
    now rewrite (bind_raise _ _ _ _ _ (subscript_missing _ _ _ _ Hs Hk)).
  - intros -> Hk Hv. unfold msa_level_sweep.
    destruct (dict_get "level_index" d) as [k|] eqn:Hki; [|discriminate].
    rewrite (bind_ok _ _ _ _ _ (subscript_ok _ _ _ _ _ Hs Hki)).
    erewrite bind_raise; [reflexivity|].
    now rewrite (bind_raise _ _ _ _ _ (subscript_missing _ _ _ _ Hs Hv)).
  - intros -> Hk. unfold param_sweep.
    now rewrite (bind_raise _ _ _ _ _ (subscript_missing _ _ _ _ Hs Hk)).
  - intros -> Hk Hv. unfold param_sweep.
    destruct (dict_get "sweep_param" d) as [k|] eqn:Hki; [|discriminate].
    rewrite (bind_ok _ _ _ _ _ (subscript_ok _ _ _ _ _ Hs Hki)).
    erewrite bind_raise; [reflexivity|].
    now rewrite (bind_raise _ _ _ _ _ (subscript_missing _ _ _ _ Hs Hv)).
Qed.

(** A store that holds one step without a method and of unknown type. *)
Definition state_no_method : state :=
  with_heap [ODict [("type", VStr "loop"); ("repeats", VInt 1)]] init_state.

Lemma missing_field_raises_before_any_run_witness :
  run_step quiet_env 0 1 (VRef 0) state_no_method
    = (Raise (KeyError "method"), state_no_method) /\
  warnings (st_trace (snd (run_step quiet_env 0 1 (VRef 0) state_no_method)))
    = [].
Proof.
  split; [|reflexivity].
  apply (proj1 (missing_field_raises_before_any_run quiet_env 0 1 (VRef 0)
                  [("type", VStr "loop"); ("repeats", VInt 1)]
                  state_no_method eq_refl)).
  reflexivity.
Defined.

(* ================================================================= *)
(** * Sweeps without effect *)

(** X8: a sweep over an empty list of values makes no run and is not an
    error.  Nothing else of the step is looked at: the base parameters
    need not be a dictionary, the level index need not denote a level and
    the repeat count need not be a number. *)
Theorem empty_sweep_values_no_runs E ch i step d m sv s :
  deref (st_heap s) step = Some (ODict d) ->
  dict_get "method" d = Some m ->
  dict_get "type" d = Some (VStr "sweep") ->
  dict_has "base_params" d = true ->
  dict_get "sweep_values" d = Some sv ->
  deref (st_heap s) sv = Some (OList []) ->
  (if py_eq_str m "MSA"
      && truthy (st_heap s) (or_default VNone (dict_get "modify_levels" d))
   then dict_has "level_index" d
   else dict_has "sweep_param" d) = true ->
  run_step E ch i step s = (Ok tt, s).
Proof.
  intros Hs Hm Ht Hb Hsv Hvals Hkey.
  rewrite (run_step_reads E ch i step d m s Hs Hm), Ht. simpl.
  unfold expand_step. simpl. unfold dict_has in *.
  destruct (dict_get "base_params" d) as [base|] eqn:Hbase; [|discriminate].
  rewrite (bind_ok _ _ _ _ _ (subscript_ok _ _ _ _ _ Hs Hbase)).
  assert (Hiter : bind (subscript step "sweep_values") (fun sv => py_iter sv) s
                  = (Ok [], s)).
  { rewrite (bind_ok _ _ _ _ _ (subscript_ok _ _ _ _ _ Hs Hsv)).
    now apply py_iter_list. }
  destruct (py_eq_str m "MSA").
  - erewrite (bind_ok (bind (get_method step "modify_levels" VNone) _)).
    2:{ erewrite bind_ok by (apply get_method_ok; exact Hs). reflexivity. }
    simpl in Hkey.
    destruct (truthy (st_heap s) (or_default VNone (dict_get "modify_levels" d))).
    + unfold msa_level_sweep.
      destruct (dict_get "level_index" d) as [k|] eqn:Hk; [|discriminate].
      rewrite (bind_ok _ _ _ _ _ (subscript_ok _ _ _ _ _ Hs Hk)).
      now rewrite (bind_ok _ _ _ _ _ Hiter).
    + unfold param_sweep.
      destruct (dict_get "sweep_param" d) as [k|] eqn:Hk; [|discriminate].
      rewrite (bind_ok _ _ _ _ _ (subscript_ok _ _ _ _ _ Hs Hk)).
      now rewrite (bind_ok _ _ _ _ _ Hiter).
  - run_refl. simpl in Hkey. unfold param_sweep.
    destruct (dict_get "sweep_param" d) as [k|] eqn:Hk; [|discriminate].
    rewrite (bind_ok _ _ _ _ _ (subscript_ok _ _ _ _ _ Hs Hk)).
    now rewrite (bind_ok _ _ _ _ _ Hiter).
Qed.

(** An MSA level sweep of level 6 of 2 over no value at all. *)
Definition plan_msa_no_values : json :=
  JObj [("name", JStr "msa_no_values");
        ("sequence", JArr [msa_sweep_step 5 true true [] 1])].

Lemma empty_sweep_values_no_runs_witness :
  let s0 := snd (loaded plan_msa_no_values) in
  run_step quiet_env 0 1 (VRef 5) s0 = (Ok tt, s0).
Proof.
  apply (empty_sweep_values_no_runs quiet_env 0 1 (VRef 5)
           (msa_step_dict 5 true true 1) (VStr "MSA") (VRef 4)
           (snd (loaded plan_msa_no_values)));
    reflexivity.
Defined.

(** X9: an MSA level sweep with neither [sweep_potential] nor
    [sweep_duration] set never uses [level_index]: whatever integer it is,
    nothing is raised, and every run of every value has the levels of
    [base_params] unchanged (the value only shows in the title). *)
Theorem msa_sweep_without_flags_keeps_levels E ch i step d base bd lv lvls lds
    sv vals k r s :
  (forall c, device_ok E c = true) ->
  deref (st_heap s) step = Some (ODict d) ->
  dict_get "method" d = Some (VStr "MSA") ->
  dict_get "type" d = Some (VStr "sweep") ->
  dict_get "repeats" d = Some (VInt r) ->
  dict_get "base_params" d = Some base ->
  truthy (st_heap s) (or_default VNone (dict_get "modify_levels" d)) = true ->
  dict_get "level_index" d = Some (VInt k) ->
  dict_get "sweep_values" d = Some sv ->
  deref (st_heap s) sv = Some (OList vals) ->
  Forall scalar vals ->
  scalar (or_default VNone (dict_get "sweep_potential" d)) /\
    truthy [] (or_default VNone (dict_get "sweep_potential" d)) = false ->
  scalar (or_default VNone (dict_get "sweep_duration" d)) /\
    truthy [] (or_default VNone (dict_get "sweep_duration" d)) = false ->
  deref (st_heap s) base = Some (ODict bd) ->
  dict_get "levels" bd = Some lv ->
  deref (st_heap s) lv = Some (OList lvls) ->
  Forall2 (fun v ld => deref (st_heap s) v = Some (ODict ld)) lvls lds ->
  let res := run_step E ch i step s in
  let conc := or_default VNone (dict_get "concentration" d) in
  exists new,
    fst res = Ok tt /\
    st_trace (snd res) = st_trace s ++ new /\
    map msa_view (runs_of new)
      = flat_map (fun v =>
          map (fun c =>
                 (ch, "MSA", msa_title E k v c, conc,
                  Some (map ODict lds), Some (map OLevel lds)))
              (map Z.of_nat (seq 1 (Z.to_nat r)))) vals.
Proof.
  intros Hdev Hs Hm Ht Hr Hbase Hmod Hk Hsv Hvals Hsc Hsp Hsd Hbd Hlv Hlvls Hlds
    res conc.
  subst res.
  rewrite (run_step_reads E ch i step d (VStr "MSA") s Hs Hm), Ht, Hr. simpl.
  fold conc. unfold expand_step. simpl.
  rewrite (bind_ok _ _ _ _ _ (subscript_ok _ _ _ _ _ Hs Hbase)).
  erewrite (bind_ok (bind (get_method step "modify_levels" VNone) _)).
  2:{ erewrite bind_ok by (apply get_method_ok; exact Hs). reflexivity. }
  rewrite Hmod. unfold msa_level_sweep.
  rewrite (bind_ok _ _ _ _ _ (subscript_ok _ _ _ _ _ Hs Hk)).
  erewrite (bind_ok (bind (subscript step "sweep_values") _)).
  2:{ rewrite (bind_ok _ _ _ _ _ (subscript_ok _ _ _ _ _ Hs Hsv)).
      apply py_iter_list, Hvals. }
  destruct (msa_sweep_loop E ch step base lv d bd lvls lds k r conc false false
              Hlv Hsp Hsd Hdev vals 0 Hsc (fun H => False_ind _ (diff_false_true H)) s)
    as (s' & new & Hrun & _ & Htr & Hv & _).
  { repeat split; assumption. }
  match goal with
  | |- context [fst ?x] =>
      assert (Heq : x = (Ok tt, s')) by exact Hrun; rewrite Heq
  end.
  simpl. exists new. split; [reflexivity|]. split; [exact Htr|].
  rewrite Hv. apply flat_map_ext. intros v.
  now rewrite list_alter_id by reflexivity.
Qed.

(** An MSA sweep of level 6 of 2 with neither flag set. *)
Definition plan_msa_no_flags : json :=
  JObj [("name", JStr "msa_no_flags");
        ("sequence", JArr [msa_sweep_step 5 false false [JFloat "0.5"] 1])].

Lemma msa_sweep_without_flags_keeps_levels_witness :
  let s0 := snd (loaded plan_msa_no_flags) in
  exists new,
    fst (run_step quiet_env 0 1 (VRef 5) s0) = Ok tt /\
    st_trace (snd (run_step quiet_env 0 1 (VRef 5) s0)) = st_trace s0 ++ new /\
    map msa_view (runs_of new)
      = flat_map (fun v =>
          map (fun c =>
                 (0%Z, "MSA", msa_title quiet_env 5 v c, VNone,
                  Some (map ODict msa_level_dicts),
                  Some (map OLevel msa_level_dicts)))
              (map Z.of_nat (seq 1 (Z.to_nat 1)))) [VFloat "0.5"].
Proof.
  apply (msa_sweep_without_flags_keeps_levels quiet_env 0 1 (VRef 5)
           (msa_step_dict 5 false false 1) (VRef 3) msa_base_dict (VRef 2)
           [VRef 0; VRef 1] msa_level_dicts (VRef 4) [VFloat "0.5"] 5 1
           (snd (loaded plan_msa_no_flags)));
    try reflexivity.
  - repeat constructor.
  - split; [exact I|reflexivity].
  - split; [exact I|reflexivity].
  - repeat constructor.
Defined.

(* ================================================================= *)
(** * The order of the steps (run.py, line 140) *)

Lemma enumerate_app {A} n (xs ys : list A) :
  enumerate n (xs ++ ys)
  = enumerate n xs ++ enumerate (n + Z.of_nat (length xs)) ys.
Proof.
  revert n. induction xs as [|x xs IH]; intros n; simpl.
  - now rewrite Z.add_0_r.
  - rewrite IH. do 3 f_equal. lia.
Qed.

(** X10: a sequence runs as its first steps followed by the steps after
    them.  The later steps keep the numbers of their positions in the whole
    sequence, however many runs the earlier steps made (a skipped step
    counts), and they are started only if no earlier step raised. *)
Theorem run_steps_app E ch i xs ys s :
  run_steps E ch i (xs ++ ys) s =
  bind (run_steps E ch i xs)
       (fun _ => run_steps E ch (i + Z.of_nat (length xs)) ys) s.
Proof.
  unfold run_steps. rewrite enumerate_app. apply for_each_app.
Qed.

(* ================================================================= *)
(** * The session (run.py, lines 117, 360 and 376) *)

(** Operations that neither write to the trace nor touch the session. *)
Definition same_io : relation state :=
  fun s s' => st_trace s' = st_trace s /\ st_meas s' = st_meas s.

#[local] Instance same_io_preorder : PreOrder same_io.
Proof.
  split.
  - intros s. now split.
  - intros s1 s2 s3 [T1 M1] [T2 M2]. split; congruence.
Qed.

Lemma same_io_put_heap h : pres same_io (put_heap h).
Proof. intros s. now split. Qed.

Lemma same_io_alloc o : pres same_io (alloc o).
Proof. intros s. now split. Qed.

Lemma same_io_next_call : pres same_io next_call.
Proof. intros s. now split. Qed.

Lemma same_io_setitem v k x : pres same_io (setitem v k x).
Proof. unfold setitem. repeat pres_step. apply same_io_put_heap. Qed.

Lemma same_io_setitem_val v k x : pres same_io (setitem_val v k x).
Proof.
  unfold setitem_val.
  repeat pres_step; first [apply same_io_setitem|apply same_io_put_heap].
Qed.

Lemma same_io_py_copy v : pres same_io (py_copy v).
Proof. unfold py_copy. repeat pres_step; apply same_io_alloc. Qed.

Lemma same_io_py_pop v k : pres same_io (py_pop v k).
Proof. unfold py_pop. repeat pres_step. apply same_io_put_heap. Qed.

Lemma same_io_py_dict v : pres same_io (py_dict v).
Proof. unfold py_dict. repeat pres_step; apply same_io_alloc. Qed.

Lemma same_io_level_object v : pres same_io (level_object v).
Proof. unfold level_object. repeat pres_step; apply same_io_alloc. Qed.

Create HintDb same_io.
#[local] Hint Resolve same_io_put_heap same_io_alloc same_io_next_call
  same_io_setitem same_io_setitem_val same_io_py_copy same_io_py_pop
  same_io_py_dict same_io_level_object : same_io.

(** What a part of the program adds: events that satisfy [P] to the
    trace, measurements that satisfy [Q] to the session, and nothing is
    taken away. *)
Definition adds (P : event -> Prop) (Q : measurement -> Prop)
    : relation state :=
  fun s s' =>
    exists t ms,
      st_trace s' = st_trace s ++ t /\ st_meas s' = st_meas s ++ ms /\
      Forall P t /\ Forall Q ms.

#[local] Instance adds_preorder P Q : PreOrder (adds P Q).
Proof.
  split.
  - intros s. exists [], []. rewrite !app_nil_r. repeat split; constructor.
  - intros s1 s2 s3 (t1 & m1 & T1 & M1 & F1 & G1) (t2 & m2 & T2 & M2 & F2 & G2).
    exists (t1 ++ t2), (m1 ++ m2).
    split; [rewrite T2, T1; now rewrite app_assoc|].
    split; [rewrite M2, M1; now rewrite app_assoc|].
    split; apply Forall_app; now split.
Qed.

Lemma adds_same_io P Q {A} (c : M A) : pres same_io c -> pres (adds P Q) c.
Proof.
  intros H s. destruct (H s) as [T Ms]. exists [], [].
  rewrite !app_nil_r. repeat split; auto; constructor.
Qed.

Lemma adds_emit (P : event -> Prop) Q e : P e -> pres (adds P Q) (emit e).
Proof.
  intros He s. exists [e], []. simpl. rewrite app_nil_r.
  repeat split; repeat constructor. exact He.
Qed.

Lemma adds_append_meas P (Q : measurement -> Prop) m :
  Q m -> pres (adds P Q) (append_meas m).
Proof.
  intros Hm s. exists [], [m]. simpl. rewrite app_nil_r.
  repeat split; repeat constructor. exact Hm.
Qed.

(** The events of the task of channel [ch]. *)
Definition on_channel (ch : Z) (e : event) : Prop :=
  match e with
  | EvRun r => rq_ch r = ch
  | EvLog l => lg_channel l = ch
  | EvWarn c _ => c = ch
  | _ => False
  end.

Ltac adds_tac :=
  repeat first
    [ copres_step
    | pres_step
    | apply adds_same_io; solve [auto with same_io]
    | apply adds_emit; reflexivity
    | apply adds_append_meas; reflexivity ].

(** Whenever it is resumed, the task of channel [ch] adds only events and
    measurements of its own channel. *)
Lemma own_channel_task E ch plan managers :
  copres (adds (on_channel ch) (fun m => fst m = ch))
    (run_channel_task E ch plan managers).
Proof.
  unfold run_channel_task, run_steps_task, run_step_task, expand_step_task,
    single_params, single_runs_task, msa_level_sweep_task,
    msa_sweep_value_task, param_sweep_task, param_sweep_value_task,
    run_one_task, run_one_start, run_one_finish, leave_with.
  adds_tac.
Qed.

Lemma copres_impl (R R' : relation state) {A} (t : co A) :
  (forall s s', R s s' -> R' s s') -> copres R t -> copres R' t.
Proof.
  intros HR. induction t as [a|X c k IH|t IH]; simpl; auto.
  intros [Hc Hk]. split; [intros s; apply HR, Hc|]. intros x. apply IH, Hk.
Qed.

(** An event of a run on one of the channels [chs]. *)
Definition on_channels (chs : list Z) (e : event) : Prop :=
  exists ch, In ch chs /\ on_channel ch e.

(** X11: whatever the order in which the tasks are resumed, and whether
    [main] returns or raises, every run that is started, every log that is
    written and every warning carries the channel of one of the
    assignments, and so does every measurement added to the session; the
    session only grows. *)
Theorem runs_only_on_assigned_channels E channels assignments s :
  let s' := snd (connect_run_save E channels assignments s) in
  let assigned := map fst assignments in
  exists t ms,
    st_trace s' = st_trace s ++ t /\
    st_meas s' = st_meas s ++ ms /\
    Forall (fun rq => In (rq_ch rq) assigned) (runs_of t) /\
    Forall (fun l => In (lg_channel l) assigned) (logs_of t) /\
    Forall (fun w => In (fst w) assigned) (warnings t) /\
    Forall (fun m => In (fst m) assigned) ms.
Proof.
  intros s' assigned. subst s'. rewrite connect_run_save_eq. cbv zeta.
  set (managers := managers_after channels []).
  set (R := adds (on_channels assigned) (fun m => In (fst m) assigned)).
  assert (Htasks : Forall (copres R) (channel_tasks E managers assignments)).
  { unfold channel_tasks. apply Forall_map, Forall_forall.
    intros [ch plan] Hin.
    apply (copres_impl (adds (on_channel ch) (fun m => fst m = ch)));
      [|apply own_channel_task].
    assert (Hch : In ch assigned).
    { apply list_elem_of_In in Hin. exact (List.in_map fst _ _ Hin). }
    intros s1 s2 (t & ms & T & Ms & F & G). exists t, ms.
    split; [exact T|]. split; [exact Ms|]. split.
    - eapply Forall_impl; [exact F|]. intros e He. now exists ch.
    - eapply Forall_impl; [exact G|]. now intros m ->. }
  pose proof (pres_gather R E _ Htasks (connected channels s))
    as (t & ms & T & Ms & F & G).
  assert (Hruns : forall t0, Forall (on_channels assigned) t0 ->
            Forall (fun rq => In (rq_ch rq) assigned) (runs_of t0) /\
            Forall (fun l => In (lg_channel l) assigned) (logs_of t0) /\
            Forall (fun w => In (fst w) assigned) (warnings t0)).
  { induction 1 as [|e t0 (ch & Hin & He) _ (I1 & I2 & I3)];
      [repeat split; constructor|].
    destruct e; simpl in He; try contradiction; subst; cbn;
      repeat split; try assumption; constructor; assumption. }
  destruct (Hruns t F) as (H1 & H2 & H3).
  destruct (gather E _ (connected channels s)) as [[[]|e] s2]; simpl in *.
  - exists (map EvConnect channels ++ t ++ map EvDisconnect managers
              ++ [EvSave (st_meas s2)]), ms.
    split; [rewrite T; now rewrite <- !app_assoc|]. split; [exact Ms|].
    rewrite !runs_of_app, !logs_of_app.
    unfold warnings. rewrite !omap_app. fold (warnings t).
    assert (Hc : runs_of (map EvConnect channels) = []
                 /\ logs_of (map EvConnect channels) = []
                 /\ omap (fun e => match e with
                                   | EvWarn ch typ => Some (ch, typ)
                                   | _ => None
                                   end) (map EvConnect channels) = [])
      by (clear; induction channels; simpl; auto).
    assert (Hd : runs_of (map EvDisconnect managers) = []
                 /\ logs_of (map EvDisconnect managers) = []
                 /\ omap (fun e => match e with
                                   | EvWarn ch typ => Some (ch, typ)
                                   | _ => None
                                   end) (map EvDisconnect managers) = [])
      by (clear; induction managers; simpl; auto).
    destruct Hc as (-> & -> & ->). destruct Hd as (-> & -> & ->).
    simpl. rewrite !app_nil_r. auto.
  - exists (map EvConnect channels ++ t), ms.
    split; [rewrite T; now rewrite <- !app_assoc|]. split; [exact Ms|].
    rewrite !runs_of_app, !logs_of_app.
    unfold warnings. rewrite !omap_app. fold (warnings t).
    assert (Hc : runs_of (map EvConnect channels) = []
                 /\ logs_of (map EvConnect channels) = []
                 /\ omap (fun e => match e with
                                   | EvWarn ch typ => Some (ch, typ)
                                   | _ => None
                                   end) (map EvConnect channels) = [])
      by (clear; induction channels; simpl; auto).
    destruct Hc as (-> & -> & ->). simpl. auto.
Qed.

(* ----------------------------------------------------------------- *)
(** ** What holds as long as nothing raises *)

(** A relation between the state before and the state after that a
    computation respects when it returns. *)
Definition okpres {A} (R : relation state) (c : M A) : Prop :=
  forall s, match c s with (Ok _, s') => R s s' | (Raise _, _) => True end.

Fixpoint cookpres (R : relation state) {A} (t : co A) : Prop :=
  match t with
  | Fin _ => True
  | Act c k => okpres R c /\ forall x, cookpres R (k x)
  | Await t' => cookpres R t'
  end.

Definition pool_okpres (R : relation state) (pool : list status) : Prop :=
  Forall (fun st => match st with Waiting t => cookpres R t | _ => True end)
    pool.

Section OkPres.
Context (R : relation state) `{!PreOrder R}.

Lemma okpres_pres {A} (c : M A) : pres R c -> okpres R c.
Proof. intros H s. specialize (H s). now destruct (c s) as [[a|e] s']. Qed.

Lemma okpres_bind {A B} (c : M A) (k : A -> M B) :
  okpres R c -> (forall a, okpres R (k a)) -> okpres R (bind c k).
Proof.
  intros Hc Hk s. unfold bind. specialize (Hc s).
  destruct (c s) as [[a|e] s1]; [|exact I].
  specialize (Hk a s1). destruct (k a s1) as [[b|e] s2]; [|exact I].
  etransitivity; eassumption.
Qed.

Lemma cookpres_bind {A B} (t : co A) (f : A -> co B) :
  cookpres R t -> (forall a, cookpres R (f a)) -> cookpres R (co_bind t f).
Proof.
  intros Ht Hf. induction t as [a|X c k IH|t IH]; simpl in *.
  - apply Hf.
  - destruct Ht as [Hc Hk]. split; [exact Hc|]. intros x. apply IH, Hk.
  - apply IH, Ht.
Qed.

Lemma cookpres_lift {A} (c : M A) : okpres R c -> cookpres R (lift c).
Proof. intros H. split; [exact H|]. intros x. exact I. Qed.

Lemma cookpres_for_each {A} (xs : list A) (body : A -> co unit) :
  (forall x, cookpres R (body x)) -> cookpres R (co_for_each xs body).
Proof.
  intros Hb. induction xs as [|x xs IH]; simpl; [exact I|].
  apply cookpres_bind; auto.
Qed.

Lemma cookpres_alone {A} (t : co A) : cookpres R t -> okpres R (alone t).
Proof.
  induction t as [a|X c k IH|t IH]; simpl; intros Ht.
  - apply okpres_pres, pres_ret; assumption.
  - destruct Ht as [Hc Hk]. apply okpres_bind; auto.
  - auto.
Qed.

Lemma cookpres_resume t s :
  cookpres R t ->
  match fst (resume t s) with
  | Raised _ => True
  | Waiting t' => R s (snd (resume t s)) /\ cookpres R t'
  | Returned => R s (snd (resume t s))
  end.
Proof.
  revert s. induction t as [[]|X c k IH|t IH]; intros s Ht; simpl in *.
  - reflexivity.
  - destruct Ht as [Hc Hk]. specialize (Hc s).
    destruct (c s) as [[x|e] s']; simpl; [|exact I].
    specialize (IH x s' (Hk x)).
    destruct (resume (k x) s') as [[t'| |e] s'']; simpl in *.
    + destruct IH as [H1 H2]. split; [etransitivity; eassumption|exact H2].
    + etransitivity; eassumption.
    + exact I.
  - split; [reflexivity|exact Ht].
Qed.

Lemma event_loop_failed sched pool e s :
  snd (fst (event_loop sched pool (Some e) s)) = Some e.
Proof.
  revert pool s. induction sched as [|i rest IH]; intros pool s; simpl.
  - reflexivity.
  - destruct (resume_task i pool s) as [pool' s']. apply IH.
Qed.

Lemma okpres_event_loop sched pool s :
  pool_okpres R pool ->
  snd (fst (event_loop sched pool None s)) = None ->
  R s (snd (event_loop sched pool None s)) /\
  pool_okpres R (fst (fst (event_loop sched pool None s))).
Proof.
  revert pool s. induction sched as [|i rest IH]; intros pool s Hp; simpl.
  - intros _. split; [reflexivity|exact Hp].
  - unfold resume_task.
    destruct (pool !! i) as [[t| |]|] eqn:Hi.
    + assert (Ht : cookpres R t).
      { unfold pool_okpres in Hp. rewrite Forall_lookup in Hp.
        exact (Hp i _ Hi). }
      pose proof (cookpres_resume t s Ht) as Hres.
      destruct (resume t s) as [st s1]. simpl in Hres.
      rewrite list_lookup_insert_eq by (eapply lookup_lt_Some; eassumption).
      destruct st as [t'| |e]; simpl.
      * destruct Hres as [H1 H2]. intros Hnone.
        destruct (IH (<[i:=Waiting t']> pool) s1) as [H3 H4];
          [now apply Forall_insert|exact Hnone|].
        split; [etransitivity; eassumption|exact H4].
      * intros Hnone.
        destruct (IH (<[i:=Returned]> pool) s1) as [H3 H4];
          [now apply Forall_insert|exact Hnone|].
        split; [etransitivity; eassumption|exact H4].
      * rewrite event_loop_failed. discriminate.
    + rewrite Hi. simpl. now apply IH.
    + rewrite Hi. simpl. rewrite event_loop_failed. discriminate.
    + rewrite Hi. simpl. now apply IH.
Qed.

Lemma okpres_run_to_end pool s :
  pool_okpres R pool ->
  snd (fst (run_to_end pool s)) = None ->
  R s (snd (run_to_end pool s)).
Proof.
  revert s. induction pool as [|st pool IH]; intros s Hp; simpl.
  - reflexivity.
  - apply Forall_cons in Hp as [Ht Hp]. destruct st as [t| |].
    + pose proof (cookpres_alone t Ht s) as H1.
      destruct (alone t s) as [[[]|e] s']; simpl in *; [|discriminate].
      specialize (IH s' Hp).
      destruct (run_to_end pool s') as [[rest' failed] s'']. simpl in *.
      intros Hf. etransitivity; [exact H1|now apply IH].
    + specialize (IH s Hp).
      now destruct (run_to_end pool s) as [[rest' failed] s''].
    + specialize (IH s Hp).
      now destruct (run_to_end pool s) as [[rest' failed] s''].
Qed.

(** When [gather] returns, no task has raised: the whole run respects what
    every part respects when it returns. *)
Lemma okpres_gather E tasks :
  Forall (cookpres R) tasks -> okpres R (gather E tasks).
Proof.
  intros Ht s. unfold gather, run_tasks.
  assert (Hp : pool_okpres R (map Waiting tasks)).
  { unfold pool_okpres. rewrite Forall_map. exact Ht. }
  pose proof (okpres_event_loop (schedule E) _ s Hp) as H.
  destruct (event_loop (schedule E) (map Waiting tasks) None s)
    as [[pool [e|]] s']; simpl in *; [exact I|].
  destruct (H eq_refl) as [H1 H2].
  pose proof (okpres_run_to_end pool s' H2) as H3.
  destruct (run_to_end pool s') as [[pool' [e|]] s'']; simpl in *; [exact I|].
  etransitivity; [exact H1|now apply H3].
Qed.

End OkPres.

(** [recorded s s']: the session of [s'] is the one of [s] followed by one
    measurement for each run log written in between, in the same order and
    for the same channels. *)
Definition recorded : relation state :=
  fun s s' =>
    exists t ms,
      st_trace s' = st_trace s ++ t /\
      st_meas s' = st_meas s ++ ms /\
      map fst ms = map lg_channel (logs_of t).

#[local] Instance recorded_preorder : PreOrder recorded.
Proof.
  split.
  - intros s. exists [], []. now rewrite !app_nil_r.
  - intros s1 s2 s3 (t1 & m1 & T1 & M1 & L1) (t2 & m2 & T2 & M2 & L2).
    exists (t1 ++ t2), (m1 ++ m2).
    split; [rewrite T2, T1; now rewrite app_assoc|].
    split; [rewrite M2, M1; now rewrite app_assoc|].
    rewrite logs_of_app, !map_app. f_equal; assumption.
Qed.

Lemma recorded_same_io {A} (c : M A) : pres same_io c -> pres recorded c.
Proof.
  intros H s. destruct (H s) as [T Ms]. exists [], [].
  now rewrite !app_nil_r.
Qed.

(** An event other than a run log. *)
Definition not_log (e : event) : Prop :=
  match e with EvLog _ => False | _ => True end.

Lemma recorded_emit e : not_log e -> pres recorded (emit e).
Proof.
  intros He s. exists [e], []. simpl. rewrite app_nil_r.
  repeat split. now destruct e.
Qed.

Lemma bind_ok_inv {A B} (c : M A) (k : A -> M B) s b s' :
  bind c k s = (Ok b, s') ->
  exists a s1, c s = (Ok a, s1) /\ k a s1 = (Ok b, s').
Proof.
  unfold bind. destruct (c s) as [[a|e] s1]; [eauto|discriminate].
Qed.

(** The second part of [run_one], when it returns: the measurement and
    the log, and nothing else. *)
Lemma run_one_finish_ok E ch name params title conc k s s' :
  run_one_finish E ch name params title conc k s = (Ok tt, s') ->
  exists l,
    st_trace s' = st_trace s ++ [EvLog l] /\ lg_channel l = ch /\
    st_meas s' = st_meas s ++ [(ch, k)].
Proof.
  unfold run_one_finish. intros H.
  apply bind_ok_inv in H as ([] & s1 & H1 & H).
  apply bind_ok_inv in H as ([] & s2 & H2 & H).
  apply bind_ok_inv in H as ([] & s3 & H3 & H).
  apply bind_ok_inv in H as (sp & s4 & H4 & H).
  apply bind_ok_inv in H as ([] & s5 & H5 & H).
  apply bind_ok_inv in H as (h' & s6 & H6 & H).
  assert (E1 : s1 = s).
  { unfold leave_with in H1.
    destruct (measure_fails (run_fate E k)), (close_fails (run_fate E k));
      now inversion H1. }
  assert (E3 : s3 = s2)
    by (destruct (close_fails (run_fate E k)); now inversion H3).
  assert (E5 : s5 = s4)
    by (destruct (log_fails (run_fate E k)); now inversion H5).
  subst s1 s3 s5. inversion H2; subst s2; clear H2.
  inversion H6; subst s6 h'; clear H6.
  match type of H4 with
  | ?c ?x = _ =>
      assert (Hc : pres same_io c)
        by (repeat (first [pres_step | solve [auto with same_io]]));
      specialize (Hc x); rewrite H4 in Hc; destruct Hc as [T Ms]
  end.
  simpl in T, Ms.
  inversion H; subst s'; clear H. simpl.
  eexists. split; [rewrite T; reflexivity|]. split; [reflexivity|exact Ms].
Qed.

Lemma recorded_run_one_finish E ch name params title conc k :
  okpres recorded (run_one_finish E ch name params title conc k).
Proof.
  intros s.
  destruct (run_one_finish E ch name params title conc k s) as [[[]|e] s']
    eqn:H; [|exact I].
  apply run_one_finish_ok in H as (l & T & L & Ms).
  exists [EvLog l], [(ch, k)]. simpl. now rewrite L.
Qed.

Ltac recorded_tac :=
  repeat first
    [ match goal with
      | |- cookpres ?R (co_bind _ _) => apply (cookpres_bind R); [|intros ?]
      | |- cookpres ?R (lift (run_one_finish _ _ _ _ _ _ _)) =>
          apply (cookpres_lift R), recorded_run_one_finish
      | |- cookpres ?R (lift _) => apply (cookpres_lift R), (okpres_pres R)
      | |- cookpres ?R await => exact I
      | |- cookpres ?R (co_for_each _ _) =>
          apply (cookpres_for_each R); intros ?
      | |- cookpres ?R (match ?x with _ => _ end) => destruct x
      end
    | pres_step
    | apply recorded_same_io; solve [auto with same_io]
    | apply recorded_emit; exact I ].

(** As long as it does not raise, the task of a channel adds one
    measurement for each log it writes, in the same order. *)
Lemma recorded_run_channel_task E ch plan managers :
  cookpres recorded (run_channel_task E ch plan managers).
Proof.
  unfold run_channel_task, run_steps_task, run_step_task, expand_step_task,
    single_params, single_runs_task, msa_level_sweep_task,
    msa_sweep_value_task, param_sweep_task, param_sweep_value_task,
    run_one_task, run_one_start, leave_with.
  recorded_tac.
Qed.

Lemma logs_of_connects chs : logs_of (map EvConnect chs) = [].
Proof. induction chs; simpl; auto. Qed.

Lemma logs_of_disconnects chs : logs_of (map EvDisconnect chs) = [].
Proof. induction chs; simpl; auto. Qed.

(** X12: when [main] reaches the save, whatever the order in which the
    tasks were resumed, the session written to the file is the session
    that was loaded at the start (step 5), untouched, followed by one
    measurement for each run log written by the channel tasks, in the
    order of the logs.  The file is written once. *)
Theorem saved_session_extends_the_loaded_one E channels assignments s :
  let r := connect_run_save E channels assignments s in
  fst r = Ok tt ->
  exists t ms,
    st_trace (snd r) = st_trace s ++ t /\
    saves t = [st_meas s ++ ms] /\
    map fst ms = map lg_channel (logs_of t).
Proof.
  intros r. subst r. rewrite connect_run_save_eq. cbv zeta.
  set (managers := managers_after channels []).
  assert (Htasks : Forall (cookpres recorded)
                     (channel_tasks E managers assignments)).
  { unfold channel_tasks. apply Forall_map, Forall_forall.
    intros [ch plan] _. apply recorded_run_channel_task. }
  pose proof (okpres_gather recorded E _ Htasks (connected channels s)) as Hrec.
  pose proof (emits_gather E managers assignments (connected channels s))
    as (t' & T' & F).
  destruct (gather E _ (connected channels s)) as [[[]|e] s2];
    simpl in *; [intros _|discriminate].
  destruct Hrec as (t & ms & T & Ms & L).
  rewrite T in T'. apply app_inv_head in T'. subst t'.
  unfold connected in T, Ms. simpl in T, Ms.
  exists (map EvConnect channels ++ t ++ map EvDisconnect managers
            ++ [EvSave (st_meas s2)]), ms.
  split; [rewrite T; now rewrite <- !app_assoc|].
  rewrite !saves_app, !logs_of_app.
  rewrite saves_connects, (saves_run_events _ F), saves_disconnects,
    logs_of_connects, logs_of_disconnects.
  simpl. rewrite app_nil_r, Ms. split; [reflexivity|exact L].
Qed.

(** Two channels, each with its own copy of the plan of three CV runs, and
    a session that holds one measurement already. *)
Lemma saved_session_extends_the_loaded_one_witness :
  let s := {| st_heap := st_heap (snd (load_plan plan_cv3 VNone state_cv3));
              st_trace := []; st_meas := [(7%Z, 0)]; st_calls := 1 |} in
  let r := connect_run_save quiet_env [0; 1]%Z [(0%Z, VRef 3); (1%Z, VRef 7)] s in
  exists t ms,
    st_trace (snd r) = st_trace s ++ t /\
    saves t = [st_meas s ++ ms] /\
    map fst ms = map lg_channel (logs_of t).
Proof.
  intros s.
  apply (saved_session_extends_the_loaded_one quiet_env [0; 1]%Z
           [(0%Z, VRef 3); (1%Z, VRef 7)] s).
  reflexivity.
Defined.

(* ================================================================= *)
(** * The managers of the channels (run.py, lines 80-88 and 374-375) *)

Lemma existsb_eqb_In ch (l : list Z) : existsb (Z.eqb ch) l = true <-> In ch l.
Proof.
  rewrite existsb_exists. split.
  - intros (x & Hin & Heq). apply Z.eqb_eq in Heq. now subst.
  - intros H. exists ch. split; [exact H|apply Z.eqb_refl].
Qed.

(** The keys of [managers]: no key twice, and a key for every channel. *)
Lemma managers_after_spec channels :
  forall acc,
    List.NoDup acc ->
    List.NoDup (managers_after channels acc) /\
    forall ch, In ch (managers_after channels acc) <-> In ch acc \/ In ch channels.
Proof.
  induction channels as [|c rest IH]; intros acc Hnd; simpl.
  - split; [exact Hnd|]. intros ch. tauto.
  - destruct (existsb (Z.eqb c) acc) eqn:Hex.
    + destruct (IH acc Hnd) as [N I]. split; [exact N|].
      intros ch. rewrite I. apply existsb_eqb_In in Hex.
      split; [tauto|]. intros [H|[<-|H]]; auto.
    + assert (Hc : ~ In c acc) by (rewrite <- existsb_eqb_In; congruence).
      destruct (IH (acc ++ [c])) as [N I].
      { apply List.NoDup_app; [exact Hnd|repeat constructor; intros []|].
        intros a Ha [<-|[]]. contradiction. }
      split; [exact N|]. intros ch. rewrite I, List.in_app_iff. simpl. tauto.
Qed.

Lemma connects_app t1 t2 : connects (t1 ++ t2) = connects t1 ++ connects t2.
Proof. apply omap_app. Qed.

Lemma connects_run_events t : Forall run_event t -> connects t = [].
Proof.
  induction 1 as [|e t He _ IH]; [reflexivity|].
  destruct e; simpl in *; try contradiction; exact IH.
Qed.

Lemma connects_connects chs : connects (map EvConnect chs) = chs.
Proof. induction chs; simpl; [|unfold connects in *]; congruence. Qed.

Lemma connects_disconnects chs : connects (map EvDisconnect chs) = [].
Proof. induction chs; simpl; auto. Qed.

(** X13: every channel of the selection is connected, once for each time
    it was typed, before any run starts; a channel typed twice gets one
    entry in [managers] (the second manager replaces the first).  Every
    selected channel has a manager, so [managers[ch]] at line 139 finds
    one; and when every task returns, the channels disconnected are the
    selected ones, each of them once. *)
Theorem channels_connected_as_typed_disconnected_once E channels assignments s :
  let r := connect_run_save E channels assignments s in
  let managers := managers_after channels [] in
  exists t,
    st_trace (snd r) = st_trace s ++ map EvConnect channels ++ t /\
    connects t = [] /\
    List.NoDup managers /\
    (forall ch, In ch channels -> existsb (Z.eqb ch) managers = true) /\
    (fst r = Ok tt ->
     disconnects t = managers /\
     forall ch, In ch (disconnects t) <-> In ch channels).
Proof.
  intros r managers. subst r.
  destruct (managers_after_spec channels [] (List.NoDup_nil _)) as [Hnd Hin].
  fold managers in Hnd, Hin.
  assert (Hkeys : forall ch, In ch managers <-> In ch channels).
  { intros ch. rewrite Hin. simpl. tauto. }
  rewrite connect_run_save_eq. cbv zeta. fold managers.
  pose proof (emits_gather E managers assignments (connected channels s))
    as (t & T & F).
  destruct (gather E _ (connected channels s)) as [[[]|e] s2]; simpl in *.
  - exists (t ++ map EvDisconnect managers ++ [EvSave (st_meas s2)]).
    split; [rewrite T; now rewrite <- !app_assoc|].
    rewrite !connects_app, (connects_run_events _ F), connects_disconnects.
    split; [reflexivity|]. split; [exact Hnd|].
    split; [intros ch Hch; now apply existsb_eqb_In, Hkeys|].
    intros _. rewrite !disconnects_app, (disconnects_run_events _ F),
      disconnects_disconnects. simpl. rewrite app_nil_r.
    split; [reflexivity|exact Hkeys].
  - exists t. split; [rewrite T; now rewrite <- app_assoc|].
    split; [now apply connects_run_events|]. split; [exact Hnd|].
    split; [intros ch Hch; now apply existsb_eqb_In, Hkeys|discriminate].
Qed.

(* ================================================================= *)
(** * What [json.load] creates (run.py, lines 256 and 316) *)

(** The two loops of [json_load], on their own. *)
Fixpoint load_items (js : list json) (h : heap) : list val * heap :=
  match js with
  | [] => ([], h)
  | j :: js' =>
      let '(v, h1) := json_load j h in
      let '(vs, h2) := load_items js' h1 in
      (v :: vs, h2)
  end.

Fixpoint load_members (ms : list (string * json)) (d : dict) (h : heap)
    : dict * heap :=
  match ms with
  | [] => (d, h)
  | (k, j) :: ms' =>
      let '(v, h1) := json_load j h in
      load_members ms' (dict_set k v d) h1
  end.

Lemma json_load_arr items h :
  json_load (JArr items) h =
  let '(vs, h') := load_items items h in (VRef (length h'), h' ++ [OList vs]).
Proof. reflexivity. Qed.

Lemma json_load_obj members h :
  json_load (JObj members) h =
  let '(d, h') := load_members members [] h in
  (VRef (length h'), h' ++ [ODict d]).
Proof. reflexivity. Qed.

(** Induction on a document: the property holds of an array or an object
    when it holds of everything inside. *)
Lemma json_induction (P : json -> Prop) :
  P JNull -> (forall b, P (JBool b)) -> (forall n, P (JInt n)) ->
  (forall r, P (JFloat r)) -> (forall s, P (JStr s)) ->
  (forall items, Forall P items -> P (JArr items)) ->
  (forall members, Forall (fun m => P (snd m)) members -> P (JObj members)) ->
  forall j, P j.
Proof.
  intros HN HB HI HF HS HA HO. fix IH 1.
  intros [|b|n|r|s|items|members];
    [exact HN|apply HB|apply HI|apply HF|apply HS| |].
  - apply HA. revert items. fix IHl 1.
    intros [|j js]; constructor; [apply IH|apply IHl].
  - apply HO. revert members. fix IHl 1.
    intros [|[k j] ms]; constructor; [apply IH|apply IHl].
Qed.

(** A value that does not refer to any of the first [n] cells. *)
Definition above (n : nat) (v : val) : Prop :=
  match v with VRef l => n <= l | _ => True end.

Definition obj_above (n : nat) (o : obj) : Prop :=
  match o with
  | ODict d | OLevel d => Forall (fun kv => above n (snd kv)) d
  | OList xs => Forall (above n) xs
  | OMixed => False
  end.

(** From cell [n] on, the store only refers to cells from [n] on, and its
    dictionaries have string keys only. *)
Definition closed_from (n : nat) (h : heap) : Prop :=
  forall l o, n <= l -> h !! l = Some o -> obj_above n o.

(** A value that is not a dictionary with a key other than a string. *)
Definition unmixed (h : heap) (v : val) : Prop :=
  deref h v <> Some OMixed.

Lemma closed_from_unmixed n h v : closed_from n h -> above n v -> unmixed h v.
Proof.
  intros Hc Hv Ho. destruct v as [| | | | |l]; try discriminate.
  exact (Hc l _ Hv Ho).
Qed.

Lemma closed_from_length (h : heap) : closed_from (length h) h.
Proof.
  intros l o Hl Ho. apply lookup_lt_Some in Ho. lia.
Qed.

Lemma closed_from_app n (h : heap) o :
  closed_from n h -> obj_above n o -> closed_from n (h ++ [o]).
Proof.
  intros Hh Ho l o' Hl Hlook.
  destruct (decide (l < length h)) as [Hlt|Hge].
  - rewrite lookup_app_l in Hlook by exact Hlt. now apply (Hh l).
  - rewrite lookup_app_r in Hlook by lia.
    destruct (l - length h) as [|k]; simpl in Hlook; [|discriminate].
    now inversion Hlook; subst.
Qed.

Lemma dict_set_above n k v d :
  above n v -> Forall (fun kv => above n (snd kv)) d ->
  Forall (fun kv => above n (snd kv)) (dict_set k v d).
Proof.
  intros Hv. induction 1 as [|[k' v'] d Hk Hd IH]; simpl.
  - now repeat constructor.
  - destruct (String.eqb k k'); constructor; auto.
Qed.

Lemma dict_get_above n k d v :
  Forall (fun kv => above n (snd kv)) d -> dict_get k d = Some v -> above n v.
Proof.
  induction 1 as [|[k' v'] d Hk Hd IH]; simpl; [discriminate|].
  destruct (String.eqb k k'); [|exact IH]. now intros [= <-].
Qed.

(** What a load is known to do, from a store with at least [n] cells that
    is closed from [n] on. *)
Definition loads_above (j : json) : Prop :=
  forall n h, n <= length h -> closed_from n h ->
    h `prefix_of` snd (json_load j h) /\
    above n (fst (json_load j h)) /\
    closed_from n (snd (json_load j h)).

Lemma load_items_above items :
  Forall loads_above items ->
  forall n h, n <= length h -> closed_from n h ->
    h `prefix_of` snd (load_items items h) /\
    Forall (above n) (fst (load_items items h)) /\
    closed_from n (snd (load_items items h)).
Proof.
  induction 1 as [|j js Hj _ IH]; intros n h Hn Hc; simpl.
  - repeat split; [reflexivity|constructor|exact Hc].
  - destruct (Hj n h Hn Hc) as (P1 & A1 & C1).
    destruct (json_load j h) as [v h1]; simpl in *.
    assert (Hn1 : n <= length h1) by (apply prefix_length in P1; lia).
    destruct (IH n h1 Hn1 C1) as (P2 & A2 & C2).
    destruct (load_items js h1) as [vs h2]; simpl in *.
    repeat split; [etransitivity; eassumption|now constructor|exact C2].
Qed.

Lemma load_members_above members :
  Forall (fun m => loads_above (snd m)) members ->
  forall n d h, n <= length h -> closed_from n h ->
    Forall (fun kv => above n (snd kv)) d ->
    h `prefix_of` snd (load_members members d h) /\
    Forall (fun kv => above n (snd kv)) (fst (load_members members d h)) /\
    closed_from n (snd (load_members members d h)).
Proof.
  induction 1 as [|[k j] ms Hj _ IH]; intros n d h Hn Hc Hd; simpl.
  - repeat split; [reflexivity|exact Hd|exact Hc].
  - simpl in Hj. destruct (Hj n h Hn Hc) as (P1 & A1 & C1).
    destruct (json_load j h) as [v h1]; simpl in *.
    assert (Hn1 : n <= length h1) by (apply prefix_length in P1; lia).
    destruct (IH n (dict_set k v d) h1 Hn1 C1 (dict_set_above n k v d A1 Hd))
      as (P2 & A2 & C2).
    repeat split; [etransitivity; eassumption|exact A2|exact C2].
Qed.

(** [json.load] only adds cells, and what it adds refers to nothing that
    existed before. *)
Lemma json_load_above j : loads_above j.
Proof.
  induction j as [|b|z|r|s|items IH|members IH] using json_induction;
    intros n h Hn Hc;
    try (simpl; repeat split; [reflexivity|exact Hc]).
  - rewrite json_load_arr.
    destruct (load_items_above items IH n h Hn Hc) as (P & A & C).
    destruct (load_items items h) as [vs h']; simpl in *.
    repeat split.
    + etransitivity; [exact P|]. now apply prefix_app_r.
    + apply prefix_length in P. lia.
    + now apply closed_from_app.
  - rewrite json_load_obj.
    destruct (load_members_above members IH n [] h Hn Hc (List.Forall_nil _))
      as (P & A & C).
    destruct (load_members members [] h) as [d h']; simpl in *.
    repeat split.
    + etransitivity; [exact P|]. now apply prefix_app_r.
    + apply prefix_length in P. lia.
    + now apply closed_from_app.
Qed.

(* ================================================================= *)
(** * Loading and tagging a plan (run.py, lines 256-258 and 316-318) *)

Lemma load_plan_eq doc conc s :
  load_plan doc conc s =
  bind (bind (subscript (fst (json_load doc (st_heap s))) "sequence")
             (fun sq => py_iter sq))
       (fun steps =>
          bind (for_each steps (fun step => setitem step "concentration" conc))
               (fun _ => ret (fst (json_load doc (st_heap s)))))
       (with_heap (snd (json_load doc (st_heap s))) s).
Proof.
  unfold load_plan. unfold bind at 1 2 3. unfold get_heap at 1.
  destruct (json_load doc (st_heap s)) as [v h1]. reflexivity.
Qed.

(** The steps a plan holds: what [plan["sequence"]] iterates over. *)
Definition plan_steps (s : state) (plan : val) (steps : list val) : Prop :=
  fst (bind (subscript plan "sequence") (fun sq => py_iter sq) s) = Ok steps.

Lemma reader_steps plan :
  reader (bind (subscript plan "sequence") (fun sq => py_iter sq)).
Proof.
  apply reader_bind; [apply reader_subscript|intros sq; apply reader_py_iter].
Qed.

Lemma read_steps plan s :
  snd (bind (subscript plan "sequence") (fun sq => py_iter sq) s) = s.
Proof. apply reader_steps. Qed.

Lemma plan_steps_run plan steps s :
  plan_steps s plan steps ->
  bind (subscript plan "sequence") (fun sq => py_iter sq) s = (Ok steps, s).
Proof.
  unfold plan_steps. intros H. pose proof (read_steps plan s) as Hs.
  destruct (bind _ _ s) as [o s1]. simpl in *. now subst.
Qed.

(** The steps of a loaded document are new objects or plain values. *)
Lemma plan_steps_above n plan steps s :
  closed_from n (st_heap s) -> above n plan ->
  plan_steps s plan steps -> Forall (above n) steps.
Proof.
  intros Hc Hp. unfold plan_steps, subscript, py_iter, bind, get_heap.
  destruct plan as [| | | | |l]; simpl; try discriminate.
  destruct (st_heap s !! l) as [[pd|xs|kw|]|] eqn:Hl; simpl; try discriminate.
  destruct (dict_get "sequence" pd) as [sq|] eqn:Hsq; simpl; [|discriminate].
  pose proof (dict_get_above n _ _ _ (Hc l _ Hp Hl) Hsq) as Ha.
  destruct sq as [| | | |str|l']; simpl; try discriminate.
  - intros [= <-]. apply Forall_fmap, Forall_true. intros c. exact I.
  - destruct (st_heap s !! l') as [[d|xs|kw|]|] eqn:Hl'; simpl; try discriminate.
    + intros [= <-]. apply Forall_fmap, Forall_true. intros kv. exact I.
    + intros [= <-]. exact (Hc l' _ Ha Hl').
Qed.

Lemma setitem_scalar v k x s :
  scalar v -> setitem v k x s = (Raise TypeError, s).
Proof. destruct v; simpl; intros H; [reflexivity..|contradiction]. Qed.

(** Tagging the steps of a loaded document writes into new objects only. *)
Lemma tag_loop_frame n conc steps :
  Forall (above n) steps ->
  pres (frame n)
    (for_each steps (fun step => setitem step "concentration" conc)).
Proof.
  induction 1 as [|v steps Hv _ IH]; simpl.
  - apply (pres_ret (frame n)).
  - apply (pres_bind (frame n)); [|intros ?; exact IH].
    destruct v as [| | | | |l];
      try (intros st; rewrite setitem_scalar by exact I;
           now apply frame_same_heap).
    apply frame_setitem. exists l. split; [reflexivity|exact Hv].
Qed.

Lemma undisturbed_take n s s' :
  undisturbed n s s' -> n <= length (st_heap s) ->
  take n (st_heap s) `prefix_of` st_heap s'.
Proof.
  intros (Hlen & Hsame & _) Hn. exists (drop n (st_heap s')).
  rewrite <- (take_drop n (st_heap s')) at 1.
  f_equal. apply list_eq. intros l.
  destruct (decide (l < n)) as [Hl|Hl].
  - rewrite !lookup_take_lt by exact Hl. now apply Hsame.
  - now rewrite !lookup_take_ge by lia.
Qed.

Lemma load_plan_extends doc conc s :
  st_heap s `prefix_of` st_heap (snd (load_plan doc conc s)).
Proof.
  rewrite load_plan_eq.
  destruct (json_load_above doc (length (st_heap s)) (st_heap s) (le_n _)
              (closed_from_length _)) as (P & A & C).
  destruct (json_load doc (st_heap s)) as [plan h1]. simpl in *.
  set (n := length (st_heap s)) in *. set (s1 := with_heap h1 s).
  assert (Hn1 : n <= length (st_heap s1)) by (apply prefix_length in P; exact P).
  assert (Hfr : undisturbed n s1
                  (snd (bind (bind (subscript plan "sequence")
                                   (fun sq => py_iter sq))
                          (fun steps =>
                             bind (for_each steps
                                     (fun step => setitem step "concentration" conc))
                                  (fun _ => ret plan)) s1))).
  { unfold bind at 1.
    destruct (bind (subscript plan "sequence") (fun sq => py_iter sq) s1)
      as [[steps|e] s2] eqn:Hsteps.
    - pose proof (read_steps plan s1) as Hs2. rewrite Hsteps in Hs2.
      simpl in Hs2. subst s2.
      assert (Hab : Forall (above n) steps).
      { apply (plan_steps_above n plan steps s1 C A).
        unfold plan_steps. now rewrite Hsteps. }
      apply (pres_bind (frame n)); [now apply tag_loop_frame| |exact Hn1].
      intros ?. apply (pres_ret (frame n)).
    - pose proof (read_steps plan s1) as Hs2. rewrite Hsteps in Hs2.
      simpl in *. subst s2. now apply (frame_preorder n). }
  apply undisturbed_take in Hfr; [|exact Hn1].
  replace (take n (st_heap s1)) with (st_heap s) in Hfr; [exact Hfr|].
  destruct P as [ext Hext]. subst s1 n. simpl. rewrite Hext.
  now rewrite take_app_length.
Qed.

Lemma load_plan_same_io doc conc : pres same_io (load_plan doc conc).
Proof.
  unfold load_plan.
  repeat (first [ pres_step | solve [auto with same_io] ]).
Qed.

(** X14: loading a plan creates new objects and changes no object that
    existed before: the store after the load is the store before it
    followed by new cells.  A plan loaded earlier (for another channel, or
    from the same file) is untouched by the tagging of a later one. *)
Theorem load_plan_never_mutates doc conc s :
  st_heap s `prefix_of` st_heap (snd (load_plan doc conc s)) /\
  st_trace (snd (load_plan doc conc s)) = st_trace s /\
  st_meas (snd (load_plan doc conc s)) = st_meas s.
Proof.
  split; [apply load_plan_extends|]. exact (load_plan_same_io doc conc s).
Qed.

(* ================================================================= *)
(** * The concentration tag (run.py, lines 144, 257-258 and 317-318) *)

(** A step that is a dictionary tagged with the concentration [c]. *)
Definition tagged_step (c : val) (h : heap) (v : val) : Prop :=
  exists d, deref h v = Some (ODict d) /\ dict_get "concentration" d = Some c.

(** A plan all of whose steps are tagged with [c]. *)
Definition plan_tagged (c : val) (s : state) (plan : val) : Prop :=
  exists steps,
    plan_steps s plan steps /\ Forall (tagged_step c (st_heap s)) steps.

Lemma tagged_step_prefix c h h' v :
  h `prefix_of` h' -> tagged_step c h v -> tagged_step c h' v.
Proof.
  intros Hp (d & Hv & Hc). exists d. split; [|exact Hc].
  now apply (deref_prefix h h').
Qed.

Lemma plan_steps_prefix s s' plan steps :
  st_heap s `prefix_of` st_heap s' ->
  plan_steps s plan steps -> plan_steps s' plan steps.
Proof.
  intros [ext Hext]. unfold plan_steps, subscript, py_iter, bind, get_heap.
  rewrite Hext.
  destruct plan as [| | | | |l]; simpl; try discriminate.
  destruct (st_heap s !! l) as [[pd|xs|kw|]|] eqn:Hl; simpl; try discriminate.
  rewrite (lookup_app_l_Some _ _ _ _ Hl). simpl.
  destruct (dict_get "sequence" pd) as [sq|]; simpl; [|discriminate].
  destruct sq as [| | | |str|l']; simpl; try discriminate; [auto|].
  destruct (st_heap s !! l') as [[d|xs|kw|]|] eqn:Hl'; simpl; try discriminate;
    rewrite Hext, (lookup_app_l_Some _ _ _ _ Hl'); auto.
Qed.

Lemma plan_tagged_prefix c s s' plan :
  st_heap s `prefix_of` st_heap s' ->
  plan_tagged c s plan -> plan_tagged c s' plan.
Proof.
  intros Hp (steps & Hs & Ht). exists steps. split.
  - now apply (plan_steps_prefix s s').
  - eapply Forall_impl; [exact Ht|]. intros v. now apply tagged_step_prefix.
Qed.

(** Tagging with [c] never removes a tag [c]. *)
Definition keeps_tags (c : val) : relation state :=
  fun s s' =>
    forall v, tagged_step c (st_heap s) v -> tagged_step c (st_heap s') v.

#[local] Instance keeps_tags_preorder c : PreOrder (keeps_tags c).
Proof.
  split.
  - intros s v H. exact H.
  - intros s1 s2 s3 H12 H23 v H. apply H23, H12, H.
Qed.

Lemma keeps_tags_setitem c w : pres (keeps_tags c) (setitem w "concentration" c).
Proof.
  intros s v (d & Hv & Hc). unfold setitem, bind, get_heap.
  destruct w as [| | | | |l]; try (exists d; now split).
  destruct (st_heap s !! l) as [[d0|xs|kw|]|] eqn:Hl; try (exists d; now split).
  simpl. destruct v as [| | | | |lv]; try discriminate. simpl in Hv.
  destruct (decide (l = lv)) as [->|Hne].
  - exists (dict_set "concentration" c d0). split; [|apply dict_get_set_eq].
    simpl. apply list_lookup_insert_eq. now apply lookup_lt_Some in Hl.
  - exists d. split; [|exact Hc]. simpl.
    now rewrite list_lookup_insert_ne by exact Hne.
Qed.

Lemma setitem_ok_inv v k x s s1 :
  unmixed (st_heap s) v ->
  setitem v k x s = (Ok tt, s1) ->
  exists l d, v = VRef l /\ st_heap s !! l = Some (ODict d) /\
    s1 = with_heap (<[l := ODict (dict_set k x d)]> (st_heap s)) s.
Proof.
  unfold unmixed, setitem, bind, get_heap.
  destruct v as [| | | | |l]; try discriminate. simpl.
  destruct (st_heap s !! l) as [[d|xs|kw|]|] eqn:Hl; try discriminate.
  - intros _ [= <-]. now exists l, d.
  - intros H. now destruct H.
Qed.

(** A write into a dictionary leaves every object of its kind. *)
Lemma unmixed_write h l d d' v :
  h !! l = Some (ODict d) -> unmixed h v -> unmixed (<[l := ODict d']> h) v.
Proof.
  unfold unmixed. intros Hl Hv.
  destruct v as [| | | | |lv]; try discriminate. simpl in *.
  destruct (decide (l = lv)) as [->|Hne].
  - rewrite list_lookup_insert_eq by (now apply lookup_lt_Some in Hl).
    discriminate.
  - now rewrite list_lookup_insert_ne by exact Hne.
Qed.

(** The loop of lines 257-258, when it ends: every step is tagged. *)
Lemma tag_loop_tags c steps :
  forall s s',
    Forall (unmixed (st_heap s)) steps ->
    for_each steps (fun step => setitem step "concentration" c) s = (Ok tt, s') ->
    Forall (tagged_step c (st_heap s')) steps.
Proof.
  induction steps as [|v steps IH]; intros s s' Hun H; [constructor|].
  apply Forall_cons in Hun as [Hv Hun].
  simpl in H.
  destruct (setitem v "concentration" c s) as [[[]|e] s1] eqn:Hset.
  2:{ rewrite (bind_raise _ _ _ _ _ Hset) in H. discriminate. }
  rewrite (bind_ok _ _ _ _ _ Hset) in H.
  destruct (setitem_ok_inv _ _ _ _ _ Hv Hset) as (l & d & -> & Hl & ->).
  constructor.
  2:{ refine (IH _ s' _ H). simpl.
      eapply Forall_impl; [exact Hun|]. intros w.
      now apply (unmixed_write _ l d). }
  pose proof (pres_for_each (keeps_tags c) steps
                (fun step => setitem step "concentration" c)
                (fun step => keeps_tags_setitem c step)
                (with_heap (<[l := ODict (dict_set "concentration" c d)]> (st_heap s)) s))
    as Hkeep.
  rewrite H in Hkeep. apply Hkeep.
  exists (dict_set "concentration" c d). split; [|apply dict_get_set_eq].
  simpl. apply list_lookup_insert_eq. now apply lookup_lt_Some in Hl.
Qed.

(** Tagging does not change what a plan's sequence holds. *)
Lemma plan_steps_tagged s s' plan l rest :
  tagged s s' -> plan_steps s plan (VRef l :: rest) ->
  plan_steps s' plan (VRef l :: rest).
Proof.
  intros [_ Hkeep]. unfold plan_steps, subscript, py_iter, bind, get_heap.
  destruct plan as [| | | | |lp]; simpl; try discriminate.
  destruct (st_heap s !! lp) as [[pd|xs|kw|]|] eqn:Hl; simpl; try discriminate.
  destruct (Hkeep lp _ Hl) as (pd' & Hl' & Hsame). rewrite Hl'. simpl.
  rewrite (Hsame "sequence") by discriminate.
  destruct (dict_get "sequence" pd) as [sq|]; simpl; [|discriminate].
  destruct sq as [| | | |str|lq]; simpl; try discriminate.
  - destruct (list_ascii_of_string str); simpl; discriminate.
  - destruct (st_heap s !! lq) as [[d|xs|kw|]|] eqn:Hq; simpl; try discriminate.
    + destruct d; simpl; discriminate.
    + now rewrite (Hkeep lq _ Hq).
Qed.

Lemma load_plan_tags doc c s plan s' :
  load_plan doc c s = (Ok plan, s') -> plan_tagged c s' plan.
Proof.
  rewrite load_plan_eq.
  set (v := fst (json_load doc (st_heap s))).
  set (s1 := with_heap (snd (json_load doc (st_heap s))) s).
  intros H.
  destruct (bind (subscript v "sequence") (fun sq => py_iter sq) s1)
    as [[steps|e] s2] eqn:Hsteps.
  2:{ rewrite (bind_raise _ _ _ _ _ Hsteps) in H. discriminate. }
  assert (Hps : plan_steps s1 v steps)
    by (unfold plan_steps; now rewrite Hsteps).
  rewrite (plan_steps_run _ _ _ Hps) in Hsteps. injection Hsteps as <-.
  rewrite (bind_ok _ _ _ _ _ (plan_steps_run _ _ _ Hps)) in H.
  destruct (for_each steps (fun step => setitem step "concentration" c) s1)
    as [[[]|e] s3] eqn:Hloop.
  2:{ rewrite (bind_raise _ _ _ _ _ Hloop) in H. discriminate. }
  rewrite (bind_ok _ _ _ _ _ Hloop) in H. injection H as <- <-.
  assert (Hun : Forall (unmixed (st_heap s1)) steps).
  { destruct (json_load_above doc (length (st_heap s)) (st_heap s) (le_n _)
                (closed_from_length _)) as (_ & A & C).
    eapply Forall_impl;
      [exact (plan_steps_above _ v steps s1 C A Hps)|].
    intros w. now apply closed_from_unmixed. }
  exists steps. split; [|exact (tag_loop_tags c steps s1 s3 Hun Hloop)].
  destruct steps as [|v0 rest].
  - simpl in Hloop. injection Hloop as <-. exact Hps.
  - pose proof (pres_for_each tagged (v0 :: rest)
                  (fun step => setitem step "concentration" c)
                  (fun step => tagged_setitem step c) s1) as Htag.
    rewrite Hloop in Htag. simpl in Htag.
    simpl in Hloop.
    destruct (setitem v0 "concentration" c s1) as [[[]|e] s4] eqn:Hset.
    2:{ rewrite (bind_raise _ _ _ _ _ Hset) in Hloop. discriminate. }
    apply Forall_cons in Hun as [Hv0 _].
    destruct (setitem_ok_inv _ _ _ _ _ Hv0 Hset) as (l & d & -> & _ & _).
    now apply (plan_steps_tagged s1 s3).
Qed.

(** X15: when a plan is loaded, every step of it ends up tagged with the
    concentration given at the prompt: a ["concentration"] written in the
    plan file is overwritten, and a step without one gets one.  The steps
    are those [run_channel] will iterate over. *)
Theorem load_plan_tags_every_step doc conc s plan s' :
  load_plan doc conc s = (Ok plan, s') ->
  exists steps,
    plan_steps s' plan steps /\
    Forall (fun step =>
              exists d, deref (st_heap s') step = Some (ODict d) /\
                        dict_get "concentration" d = Some conc) steps.
Proof. exact (load_plan_tags doc conc s plan s'). Qed.

(** A plan whose only step carries a concentration of its own. *)
Definition plan_own_tag : json :=
  JObj [("name", JStr "own_tag");
        ("sequence", JArr [JObj [("method", JStr "CV"); ("type", JStr "single");
                                 ("params", cv_params); ("repeats", JInt 1);
                                 ("concentration", JStr "1e-3")]])].

Lemma load_plan_tags_every_step_witness :
  let r := load_plan plan_own_tag (VStr "1e-6") init_state in
  exists steps,
    plan_steps (snd r) (VRef 3) steps /\
    Forall (fun step =>
              exists d, deref (st_heap (snd r)) step = Some (ODict d) /\
                        dict_get "concentration" d = Some (VStr "1e-6")) steps.
Proof.
  apply (load_plan_tags_every_step plan_own_tag (VStr "1e-6") init_state (VRef 3)).
  reflexivity.
Defined.

(* ================================================================= *)
(** * Plans loaded one after the other (run.py, lines 251-258, 312-318) *)

(** X18: plans loaded one after the other (one per channel, lines 312-318)
    keep their own tags: loading and tagging a second plan with another
    concentration leaves every step of the first tagged as it was, even
    when both come from the same file. *)
Theorem later_load_keeps_earlier_tags doc1 c1 doc2 c2 s plan1 s1 :
  load_plan doc1 c1 s = (Ok plan1, s1) ->
  let r := load_plan doc2 c2 s1 in
  plan_tagged c1 (snd r) plan1 /\
  (forall plan2, fst r = Ok plan2 -> plan_tagged c2 (snd r) plan2).
Proof.
  intros H1 r. subst r. split.
  - apply (plan_tagged_prefix c1 s1); [apply load_plan_extends|].
    exact (load_plan_tags doc1 c1 s plan1 s1 H1).
  - intros plan2 H2. apply (load_plan_tags doc2 c2 s1).
    destruct (load_plan doc2 c2 s1) as [o s2]. simpl in *. now subst.
Qed.

Lemma later_load_keeps_earlier_tags_witness :
  let s1 := snd (load_plan plan_cv3 (VStr "1e-6") init_state) in
  let r := load_plan plan_cv3 (VStr "5e-6") s1 in
  plan_tagged (VStr "1e-6") (snd r) (VRef 3) /\
  (forall plan2, fst r = Ok plan2 -> plan_tagged (VStr "5e-6") (snd r) plan2).
Proof.
  apply (later_load_keeps_earlier_tags plan_cv3 (VStr "1e-6") plan_cv3
           (VStr "5e-6") init_state (VRef 3)).
  reflexivity.
Defined.

(* ================================================================= *)
(** * Choosing the session (run.py, lines 62-77) *)

(** What reading from the keyboard gives: a value and the lines not yet
    read, the end of the input ([EOFError]), or a [ValueError]. *)
Inductive reading (A : Type) :=
| Got (a : A) (rest : list string)
| Eof
| ValueErr.
Arguments Got {A} a rest.
Arguments Eof {A}.
Arguments ValueErr {A}.

(** Lines 74-77: the first line that is not blank, stripped. *)
Fixpoint new_session_name (inputs : list string) : reading string :=
  match inputs with
  | [] => Eof
  | x :: rest =>
      let new_name := py_strip x in
      if String.eqb new_name "" then new_session_name rest
      else Got new_name rest
  end.

(** Lines 62-77, given the sorted names of the session directories and
    the lines the user types. *)
Definition choose_session (existing : list string) (inputs : list string)
    : reading string :=
  match existing with
  | [] => new_session_name inputs
  | _ :: _ =>
      match inputs with
      | [] => Eof
      | x :: rest =>
          let choice := py_strip x in
          if str_isdigit choice then
            match py_int choice with
            | Some n =>
                if (n <? Z.of_nat (length existing))%Z then
                  (* existing[int(choice)] *)
                  match norm_index (length existing) n with
                  | Some j =>
                      match existing !! j with
                      | Some name => Got name rest
                      | None => new_session_name rest
                      end
                  | None => new_session_name rest
                  end
                else new_session_name rest
            | None => ValueErr
            end
          else new_session_name rest
      end
  end.

Section Strip.
Variable sp : ascii -> bool.

Lemma rstrip_idem s : rstrip sp (rstrip sp s) = rstrip sp s.
Proof.
  induction s as [|c s IH]; simpl; [reflexivity|].
  destruct (rstrip sp s) as [|d r] eqn:Hr.
  - destruct (sp c) eqn:Hc; simpl; [reflexivity|]. now rewrite Hc.
  - simpl in *. now rewrite IH.
Qed.

Lemma lstrip_starts s :
  lstrip sp s = "" \/ exists c r, lstrip sp s = String c r /\ sp c = false.
Proof.
  induction s as [|c s IH]; simpl; [now left|].
  destruct (sp c) eqn:Hc; [exact IH|]. right. now exists c, s.
Qed.

Lemma lstrip_rstrip c r :
  sp c = false -> lstrip sp (rstrip sp (String c r)) = rstrip sp (String c r).
Proof.
  intros Hc. simpl. destruct (rstrip sp r); rewrite ?Hc; simpl; now rewrite Hc.
Qed.

(** Stripping twice is stripping once. *)
Lemma strip_idem x : strip sp (strip sp x) = strip sp x.
Proof.
  unfold strip. destruct (lstrip_starts x) as [->|(c & r & -> & Hc)].
  - reflexivity.
  - rewrite (lstrip_rstrip c r Hc). apply rstrip_idem.
Qed.

End Strip.

Lemma py_strip_idem x : py_strip (py_strip x) = py_strip x.
Proof. apply strip_idem. Qed.

Lemma new_session_name_spec inputs :
  match new_session_name inputs with
  | Got name rest =>
      name <> "" /\ py_strip name = name /\
      exists blank x, inputs = blank ++ x :: rest /\ name = py_strip x /\
                      Forall (fun y => py_strip y = "") blank
  | Eof => Forall (fun y => py_strip y = "") inputs
  | ValueErr => False
  end.
Proof.
  induction inputs as [|x rest IH]; simpl; [constructor|].
  destruct (String.eqb_spec (py_strip x) "") as [Hx|Hx].
  - destruct (new_session_name rest) as [name rest'| |].
    + destruct IH as (H1 & H2 & blank & y & -> & H3 & H4).
      split; [exact H1|]. split; [exact H2|].
      exists (x :: blank), y. split; [reflexivity|]. split; [exact H3|].
      now constructor.
    + now constructor.
    + exact IH.
  - split; [exact Hx|]. split; [apply py_strip_idem|].
    exists [], x. split; [reflexivity|]. split; [reflexivity|constructor].
Qed.



(* ================================================================= *)
(** * The parameters of a single MSA step (run.py, lines 147-162) *)

(** X21: a single MSA step builds its parameters once, for all its runs:
    a new dictionary with the entries of the step's ["params"] other than
    ["levels"], the level objects under ["levels"] (one for each level
    dictionary of the plan, in order), and under ["_raw_levels"] the plan's
    own list of levels (the same object, not a copy).  With [repeats = r]
    there are [r] runs, all on that one dictionary. *)
Theorem single_msa_step_builds_levels_once E ch i step d p pd lv lvls lds r s :
  (forall k, device_ok E k = true) ->
  deref (st_heap s) step = Some (ODict d) ->
  dict_get "method" d = Some (VStr "MSA") ->
  or_default (VStr "single") (dict_get "type" d) = VStr "single" ->
  dict_get "repeats" d = Some (VInt r) ->
  dict_get "params" d = Some p ->
  deref (st_heap s) p = Some (ODict pd) ->
  dict_get "levels" pd = Some lv ->
  deref (st_heap s) lv = Some (OList lvls) ->
  Forall2 (fun v ld => deref (st_heap s) v = Some (ODict ld)) lvls lds ->
  let res := run_step E ch i step s in
  let conc := or_default VNone (dict_get "concentration" d) in
  exists new params,
    fst res = Ok tt /\
    st_trace (snd res) = st_trace s ++ new /\
    map msa_view (runs_of new)
      = map (fun j => (ch, "MSA", single_title "MSA" i j, conc,
                       Some (map ODict lds), Some (map OLevel lds)))
            (map Z.of_nat (seq 1 (Z.to_nat r))) /\
    fresh (length (st_heap s)) params /\
    Forall (fun rq =>
              rq_params rq = params /\
              run_param rq "_raw_levels" = Some lv /\
              forall key, key <> "levels" -> key <> "_raw_levels" ->
                run_param rq key = dict_get key pd) (runs_of new).
Proof.
  intros Hdev Hs Hm Ht Hr Hp Hpd Hlv Hl Hlds res conc. subst res.
  rewrite (run_step_reads E ch i step d (VStr "MSA") s Hs Hm), Ht, Hr. simpl.
  fold conc. unfold expand_step. simpl.
  rewrite (bind_ok _ _ _ _ _
             (single_params_msa step d p pd lv lvls lds s Hs Hp Hpd Hlv Hl Hlds)).
  set (h := st_heap s). set (n := length lds).
  set (P := msa_params pd lv (VRef (S (length h) + n))).
  set (mats := map VRef (seq (S (length h)) n)).
  set (H1 := h ++ ODict P :: map OLevel lds ++ [OList mats]).
  unfold single_runs. run_refl.
  erewrite for_each_ext by (intros; reflexivity).
  destruct (repeat_runs E Hdev ch "MSA" (VRef (length h)) P conc
              (single_title "MSA" i) (map Z.of_nat (seq 1 (Z.to_nat r)))
              (with_heap H1 s) eq_refl)
    as (s' & new & Hrun & _ & Htr & Hv & Hsame).
  { simpl. apply heap_lookup_at. }
  match goal with
  | |- context [fst ?x] =>
      assert (Heq : x = (Ok tt, s')) by exact Hrun; rewrite Heq
  end.
  simpl in Htr |- *.
  assert (HhH1 : h `prefix_of` H1) by (subst H1; now apply prefix_app_r).
  assert (HX : deep_list H1 lv = Some (map ODict lds)).
  { unfold deep_list. rewrite (deref_prefix _ _ _ _ HhH1 Hl).
    apply mapM_Some, Forall2_fmap_r.
    eapply Forall2_impl; [exact Hlds|].
    intros x y Hx. now apply (deref_prefix h H1). }
  assert (HY : deep_list H1 (VRef (S (length h) + n)) = Some (map OLevel lds)).
  { subst H1. change (h ++ ODict P :: map OLevel lds ++ [OList mats])
      with (h ++ [ODict P] ++ map OLevel lds ++ [OList mats]).
    rewrite (app_assoc h). apply deep_list_refs.
    rewrite length_app. simpl.
    replace (length h + 1) with (S (length h)) by lia. fold n mats.
    simpl. rewrite app_assoc.
    replace (S (length h + n))
      with (length ((h ++ [ODict P]) ++ map OLevel lds))
      by (rewrite !length_app, length_map; simpl; lia).
    apply heap_lookup_last. }
  destruct (msa_views (runs_of new) _ ch "MSA" (single_title "MSA" i) conc P lv
              (VRef (S (length h) + n)) (map ODict lds) (map OLevel lds) H1 Hv)
    as [Hmv Hpar].
  { eapply Forall_impl; [exact Hsame|]. now intros rq [_ ?]. }
  { subst P. unfold msa_params.
    rewrite dict_get_set_ne by discriminate. apply dict_get_set_eq. }
  { exact HX. }
  { subst P. apply dict_get_set_eq. }
  { exact HY. }
  exists new, (VRef (length h)).
  split; [reflexivity|]. split; [exact Htr|]. split; [exact Hmv|].
  split; [exists (length h); split; [reflexivity|apply le_n]|].
  apply Forall_forall. intros rq Hin.
  rewrite Forall_forall in Hsame, Hpar.
  destruct (Hsame rq Hin) as [Hq _]. split; [exact Hq|].
  split.
  - rewrite (Hpar rq Hin). subst P. unfold msa_params.
    rewrite dict_get_set_ne by discriminate. apply dict_get_set_eq.
  - intros key K1 K2. rewrite (Hpar rq Hin). subst P. unfold msa_params.
    rewrite !dict_get_set_ne by assumption.
    now apply dict_get_without_ne.
Qed.

(** A plan with one single MSA step of two levels, run three times. *)
Definition plan_msa_single : json :=
  JObj [("name", JStr "msa_single");
        ("sequence", JArr [JObj [("method", JStr "MSA"); ("type", JStr "single");
                                 ("params", msa_base); ("repeats", JInt 3)]])].

Lemma single_msa_step_builds_levels_once_witness :
  let s0 := snd (loaded plan_msa_single) in
  exists new params,
    fst (run_step quiet_env 0 1 (VRef 4) s0) = Ok tt /\
    st_trace (snd (run_step quiet_env 0 1 (VRef 4) s0)) = st_trace s0 ++ new /\
    map msa_view (runs_of new)
      = map (fun j => (0%Z, "MSA", single_title "MSA" 1 j, VNone,
                       Some (map ODict msa_level_dicts),
                       Some (map OLevel msa_level_dicts)))
            (map Z.of_nat (seq 1 (Z.to_nat 3))) /\
    fresh (length (st_heap s0)) params /\
    Forall (fun rq =>
              rq_params rq = params /\
              run_param rq "_raw_levels" = Some (VRef 2) /\
              forall key, key <> "levels" -> key <> "_raw_levels" ->
                run_param rq key = dict_get key msa_base_dict) (runs_of new).
Proof.
  apply (single_msa_step_builds_levels_once quiet_env 0 1 (VRef 4)
           [("method", VStr "MSA"); ("type", VStr "single");
            ("params", VRef 3); ("repeats", VInt 3); ("concentration", VNone)]
           (VRef 3) msa_base_dict (VRef 2) [VRef 0; VRef 1] msa_level_dicts 3
           (snd (loaded plan_msa_single)));
    try reflexivity.
  repeat constructor.
Defined.

(* ================================================================= *)
(** * The titles of the runs of single steps (run.py, line 160) *)

Lemma str_of_Z_inj a b : str_of_Z a = str_of_Z b -> a = b.
Proof.
  unfold str_of_Z. intros H. apply (f_equal NilEmpty.int_of_string) in H.
  rewrite !NilEmpty.isi in H. injection H as H. now apply DecimalZ.to_int_inj.
Qed.

Definition not_underscore (c : ascii) : bool := negb (Ascii.eqb c "_").

(** A number is printed without any underscore. *)
Lemma str_of_Z_no_underscore n : str_all not_underscore (str_of_Z n) = true.
Proof.
  assert (H : forall u,
             str_all not_underscore (NilEmpty.string_of_uint u) = true).
  { intros u. apply (str_all_impl is_decimal); [|apply string_of_uint_digits].
    intros c Hc. unfold not_underscore.
    now destruct (digit_char c Hc) as (_ & _ & -> & _). }
  unfold str_of_Z. destruct (Z.to_int n); simpl; auto.
Qed.

Lemma append_inv_head (a x y : string) : a +:+ x = a +:+ y -> x = y.
Proof.
  induction a as [|c a IH]; simpl; [auto|]. intros [= H]. auto.
Qed.

(** Text without underscore, an underscore, and the rest: the underscore
    found first is the one that was put in. *)
Lemma append_underscore_inj u u' v v' :
  str_all not_underscore u = true -> str_all not_underscore u' = true ->
  u +:+ String "_" v = u' +:+ String "_" v' -> u = u' /\ v = v'.
Proof.
  revert u'. induction u as [|c u IH]; intros [|c' u']; simpl; intros Hu Hu' H.
  - injection H as <-. now split.
  - injection H as <- _. apply andb_true_iff in Hu' as [Hc _]. discriminate.
  - injection H as -> _. apply andb_true_iff in Hu as [Hc _]. discriminate.
  - injection H as <- H.
    apply andb_true_iff in Hu as [_ Hu]. apply andb_true_iff in Hu' as [_ Hu'].
    destruct (IH u' Hu Hu' H) as [-> ->]. now split.
Qed.

(** X22: the title of a run of a single step tells the step and the run:
    two runs of single steps of the same method have the same title only
    if they are the same run of the same step.  So within a plan the
    data files of such runs are told apart by their titles alone. *)
Theorem single_step_titles_are_distinct m i j i' j' :
  single_title m i j = single_title m i' j' <-> i = i' /\ j = j'.
Proof.
  split; [|now intros [-> ->]].
  unfold single_title. intros H.
  apply append_inv_head in H.
  change ("_step" +:+ str_of_Z i +:+ "_run" +:+ str_of_Z j)
    with ("_step" +:+ (str_of_Z i +:+ String "_" ("run" +:+ str_of_Z j))) in H.
  change ("_step" +:+ str_of_Z i' +:+ "_run" +:+ str_of_Z j')
    with ("_step" +:+ (str_of_Z i' +:+ String "_" ("run" +:+ str_of_Z j'))) in H.
  apply append_inv_head in H.
  apply append_underscore_inj in H as [Hi Hj];
    try apply str_of_Z_no_underscore.
  apply append_inv_head in Hj.
  split; now apply str_of_Z_inj.
Qed.

(* ================================================================= *)
(** * An MSA sweep without [modify_levels] (run.py, lines 166 and 186-193) *)

(** X23: an MSA sweep step whose [modify_levels] is missing or false is
    expanded as the sweep of one named parameter, like a sweep of any other
    method: for each value, in order, [repeats] runs on a new copy of
    [base_params] with [sweep_param] set to the value.  The levels are
    passed on as they are in [base_params] (no level object is built, and
    no ["_raw_levels"] entry is added). *)
Theorem msa_sweep_without_modify_levels_is_generic E ch i step d sp base bd sv
    vals r s :
  (forall k, device_ok E k = true) ->
  deref (st_heap s) step = Some (ODict d) ->
  dict_get "method" d = Some (VStr "MSA") ->
  dict_get "type" d = Some (VStr "sweep") ->
  truthy (st_heap s) (or_default VNone (dict_get "modify_levels" d)) = false ->
  dict_get "repeats" d = Some (VInt r) ->
  dict_get "base_params" d = Some base ->
  deref (st_heap s) base = Some (ODict bd) ->
  dict_get "sweep_param" d = Some (VStr sp) ->
  dict_get "sweep_values" d = Some sv ->
  deref (st_heap s) sv = Some (OList vals) ->
  Forall scalar vals ->
  let res := run_step E ch i step s in
  let conc := or_default VNone (dict_get "concentration" d) in
  exists new,
    fst res = Ok tt /\
    st_trace (snd res) = st_trace s ++ new /\
    map run_view (runs_of new)
      = flat_map (fun v =>
          map (fun j => (ch, "MSA", sweep_title E "MSA" sp v j, conc,
                         Some (ODict (dict_set sp v bd))))
              (map Z.of_nat (seq 1 (Z.to_nat r)))) vals /\
    Forall (on_new_object (length (st_heap s))) (runs_of new) /\
    (sp <> "levels" -> sp <> "_raw_levels" ->
     Forall (fun rq => run_param rq "levels" = dict_get "levels" bd /\
                       run_param rq "_raw_levels" = dict_get "_raw_levels" bd)
            (runs_of new)).
Proof.
  intros Hdev Hs Hm Ht Hmod Hr Hbase Hbd Hsp Hsv Hvals Hsc res conc.
  subst res.
  rewrite (run_step_reads E ch i step d (VStr "MSA") s Hs Hm), Ht, Hr. simpl.
  fold conc. unfold expand_step. simpl.
  rewrite (bind_ok _ _ _ _ _ (subscript_ok _ _ _ _ _ Hs Hbase)).
  erewrite (bind_ok (bind (get_method step "modify_levels" VNone) _)).
  2:{ erewrite bind_ok by (apply get_method_ok; exact Hs). reflexivity. }
  rewrite Hmod. unfold param_sweep.
  rewrite (bind_ok _ _ _ _ _ (subscript_ok _ _ _ _ _ Hs Hsp)).
  erewrite (bind_ok (bind (subscript step "sweep_values") _)).
  2:{ rewrite (bind_ok _ _ _ _ _ (subscript_ok _ _ _ _ _ Hs Hsv)).
      apply py_iter_list, Hvals. }
  destruct (param_sweep_loop E Hdev ch "MSA" sp base bd r conc vals eq_refl Hsc
              s Hbd)
    as (s' & new & Hrun & _ & Htr & Hv & Hnew).
  match goal with
  | |- context [fst ?x] =>
      assert (Heq : x = (Ok tt, s')) by exact Hrun; rewrite Heq
  end.
  simpl. exists new.
  split; [reflexivity|]. split; [exact Htr|]. split; [exact Hv|].
  split; [exact Hnew|].
  intros K1 K2. clear -Hv K1 K2.
  revert Hv. generalize (runs_of new). clear new.
  induction vals as [|v vals IH]; intros rs Hv.
  - destruct rs; [constructor|discriminate].
  - simpl in Hv. revert rs Hv.
    generalize (map Z.of_nat (seq 1 (Z.to_nat r))) at 1.
    intros rng. induction rng as [|j rng IHr]; intros rs Hv; simpl in Hv.
    + now apply IH.
    + destruct rs as [|rq rs]; [discriminate|]. simpl in Hv.
      unfold run_view at 1 in Hv. injection Hv as _ _ _ _ Hd Hrest.
      constructor; [|now apply IHr].
      unfold run_param. rewrite Hd.
      rewrite !dict_get_set_ne by congruence. now split.
Qed.

(** An MSA sweep of [n_cycles], as a sweep of any method is written. *)
Definition plan_msa_generic : json :=
  JObj [("name", JStr "msa_generic");
        ("sequence", JArr [JObj [("method", JStr "MSA"); ("type", JStr "sweep");
                                 ("sweep_param", JStr "n_cycles");
                                 ("base_params", msa_base);
                                 ("sweep_values", JArr [JInt 2; JInt 3]);
                                 ("repeats", JInt 1)]])].

Lemma msa_sweep_without_modify_levels_is_generic_witness :
  let s0 := snd (loaded plan_msa_generic) in
  exists new,
    fst (run_step quiet_env 0 1 (VRef 5) s0) = Ok tt /\
    st_trace (snd (run_step quiet_env 0 1 (VRef 5) s0)) = st_trace s0 ++ new /\
    map run_view (runs_of new)
      = flat_map (fun v =>
          map (fun j => (0%Z, "MSA", sweep_title quiet_env "MSA" "n_cycles" v j,
                         VNone, Some (ODict (dict_set "n_cycles" v msa_base_dict))))
              (map Z.of_nat (seq 1 (Z.to_nat 1)))) [VInt 2; VInt 3] /\
    Forall (on_new_object (length (st_heap s0))) (runs_of new) /\
    ("n_cycles" <> "levels" -> "n_cycles" <> "_raw_levels" ->
     Forall (fun rq =>
               run_param rq "levels" = dict_get "levels" msa_base_dict /\
               run_param rq "_raw_levels" = dict_get "_raw_levels" msa_base_dict)
            (runs_of new)).
Proof.
  apply (msa_sweep_without_modify_levels_is_generic quiet_env 0 1 (VRef 5)
           [("method", VStr "MSA"); ("type", VStr "sweep");
            ("sweep_param", VStr "n_cycles"); ("base_params", VRef 3);
            ("sweep_values", VRef 4); ("repeats", VInt 1);
            ("concentration", VNone)]
           "n_cycles" (VRef 3) msa_base_dict (VRef 4) [VInt 2; VInt 3] 1
           (snd (loaded plan_msa_generic)));
    try reflexivity.
  repeat constructor.
Defined.
